(** * Pulsar native foundations: NXH, Arena, DAGGER, WEAVE, ZORYA-INI, ORDINAL

    A shallow embedding of the C sources under [src/native] and the
    properties of the specification checked against it.

    Conventions used throughout:
    - a [uint64_t]/[size_t] is a [Z] in [0, 2^64); every C operation that
      can wrap is written with [u64];
    - a byte string (C string or byte slice) is a [string]; the byte value
      of a character is [byte_val];
    - a pointer that may be [NULL] is an [option];
    - [malloc]/[realloc] failure is an explicit boolean argument in the
      Arena and Weave models; elsewhere allocation is taken to succeed. *)

From Stdlib Require Import ZArith List String Ascii Bool Lia.
Import ListNotations.
Local Open Scope string_scope.
Local Open Scope list_scope.
Local Open Scope Z_scope.

(** String concatenation; [++] is kept for lists. *)
Infix "+++" := String.append (right associativity, at level 60).

(* ================================================================== *)
(** * Machine integers and bytes *)
(* ================================================================== *)

Definition u64 (x : Z) : Z := x mod 2 ^ 64.
Definition u32 (x : Z) : Z := x mod 2 ^ 32.
Definition u8 (x : Z) : Z := x mod 2 ^ 8.

Definition byte_val (c : ascii) : Z := Z.of_N (N_of_ascii c).

(** The number of bytes of a byte string, as a [size_t]. *)
Definition zlen (s : string) : Z := Z.of_nat (String.length s).

Definition NUL : ascii := "000"%char.

(** The C string stored at [s]: its bytes up to the first NUL.  A byte
    string without NUL stands for a buffer whose bytes are followed by
    the terminating NUL. *)
Fixpoint c_str (s : string) : string :=
  match s with
  | EmptyString => EmptyString
  | String c s' => if Ascii.eqb c NUL then EmptyString else String c (c_str s')
  end.

(** [strlen(s)]. *)
Definition strlen (s : string) : Z := zlen (c_str s).

(** The byte at offset [i] of a byte string ([p[i]] for a pointer [p] to
    its first byte); reads past the end are not performed by the code
    modelled here and yield 0. *)
Definition bytes_at (s : string) (i : Z) : Z :=
  if i <? 0 then 0
  else match String.get (Z.to_nat i) s with
       | Some c => byte_val c
       | None => 0
       end.

(* ================================================================== *)
(** * NXH: src/native/include/nxh.h, src/native/hash/nxh.c *)
(* ================================================================== *)

Module NXH.

Definition NXH_PRIME_NEXUS : Z := 0x9E3779B185EBCA87.
Definition NXH_PRIME_VOID  : Z := 0xC2B2AE3D27D4EB4F.
Definition NXH_PRIME_ECHO  : Z := 0x165667B19E3779F9.
Definition NXH_PRIME_PULSE : Z := 0x85EBCA77C2B2AE63.
Definition NXH_PRIME_DRIFT : Z := 0x27D4EB2F165667C5.
Definition NXH_PRIME_ALT_1 : Z := 0x517CC1B727220A95.
Definition NXH_PRIME_ALT_2 : Z := 0x71D67FFFEDA60000.
Definition NXH_SEED_DEFAULT : Z := 0.
Definition NXH_SEED_ALT : Z := 0xDEADBEEFCAFEBABE.

Definition nxh_rotl64 (x r : Z) : Z :=
  Z.lor (u64 (Z.shiftl x r)) (Z.shiftr x (64 - r)).

(** A data pointer is [None] (NULL) or [Some src] where [src i] is the
    byte [p[i]].  Every dereference is recorded: the functions below
    return the value computed together with the offsets read, in order. *)
Definition source := Z -> Z.

(** What one call of a hash function did: the digest it returned, the
    offsets of [data] it dereferenced, in order, and the integers it
    added to a null pointer, in order.  A pointer into the buffer is its
    offset from [data]; a null pointer has no buffer, so the sums formed
    on it ([end = p + len], [p + 8], [p + 4]) are kept as they are. *)
Record run := Run {
  run_digest : Z;
  run_reads : list Z;
  run_null_sums : list Z
}.

(** ISO C defines [p + n] only for a pointer [p] into an array object,
    the result staying inside it or one past its end (C11 6.5.6p8).  A
    null pointer points into no object: adding a non-zero integer to it
    is undefined. *)
Definition sums_defined (r : run) : Prop :=
  forall n, In n (run_null_sums r) -> n = 0.

Definition nxh_read64 (src : source) (p : Z) : Z * list Z :=
  (Z.lor (src p)
   (Z.lor (Z.shiftl (src (p + 1)) 8)
   (Z.lor (Z.shiftl (src (p + 2)) 16)
   (Z.lor (Z.shiftl (src (p + 3)) 24)
   (Z.lor (Z.shiftl (src (p + 4)) 32)
   (Z.lor (Z.shiftl (src (p + 5)) 40)
   (Z.lor (Z.shiftl (src (p + 6)) 48)
          (Z.shiftl (src (p + 7)) 56))))))),
   [p; p + 1; p + 2; p + 3; p + 4; p + 5; p + 6; p + 7]).

Definition nxh_read32 (src : source) (p : Z) : Z * list Z :=
  (Z.lor (src p)
   (Z.lor (Z.shiftl (src (p + 1)) 8)
   (Z.lor (Z.shiftl (src (p + 2)) 16)
          (Z.shiftl (src (p + 3)) 24))),
   [p; p + 1; p + 2; p + 3]).

Definition nxh_mix (acc input : Z) : Z :=
  let acc := u64 (acc + input * NXH_PRIME_VOID) in
  let acc := nxh_rotl64 acc 31 in
  u64 (acc * NXH_PRIME_NEXUS).

Definition nxh_merge (h v : Z) : Z :=
  let v := u64 (v * NXH_PRIME_VOID) in
  let v := nxh_rotl64 v 31 in
  let v := u64 (v * NXH_PRIME_NEXUS) in
  let h := Z.lxor h v in
  u64 (h * NXH_PRIME_NEXUS + NXH_PRIME_PULSE).

Definition nxh_avalanche (h : Z) : Z :=
  let h := Z.lxor h (Z.shiftr h 33) in
  let h := u64 (h * NXH_PRIME_VOID) in
  let h := Z.lxor h (Z.shiftr h 29) in
  let h := u64 (h * NXH_PRIME_ECHO) in
  Z.lxor h (Z.shiftr h 32).

Definition nxh_mix_alt (acc input : Z) : Z :=
  let acc := u64 (acc + input * NXH_PRIME_ALT_2) in
  let acc := nxh_rotl64 acc 27 in
  u64 (acc * NXH_PRIME_ALT_1).

Definition nxh_avalanche_alt (h : Z) : Z :=
  let h := Z.lxor h (Z.shiftr h 31) in
  let h := u64 (h * NXH_PRIME_ALT_1) in
  let h := Z.lxor h (Z.shiftr h 27) in
  let h := u64 (h * NXH_PRIME_ALT_2) in
  Z.lxor h (Z.shiftr h 33).

(** The state of the four-lane block loop. *)
Record lanes := Lanes { lp : Z; v1 : Z; v2 : Z; v3 : Z; v4 : Z; lreads : list Z }.

(** [do { ... } while (p <= limit)]: one iteration per whole 32-byte
    block; [n] is the number of iterations the loop guard allows,
    [len / 32] when entered with [p = 0] and [len >= 32]. *)
Fixpoint nxh_blocks (mix : Z -> Z -> Z) (src : source) (n : nat) (s : lanes) : lanes :=
  match n with
  | O => s
  | S n' =>
      let p := lp s in
      let '(w1, r1) := nxh_read64 src p in
      let '(w2, r2) := nxh_read64 src (p + 8) in
      let '(w3, r3) := nxh_read64 src (p + 16) in
      let '(w4, r4) := nxh_read64 src (p + 24) in
      nxh_blocks mix src n'
        (Lanes (p + 32) (mix (v1 s) w1) (mix (v2 s) w2) (mix (v3 s) w3)
               (mix (v4 s) w4) (lreads s ++ r1 ++ r2 ++ r3 ++ r4))
  end.

(** [while (p + 8 <= end)]: [n] iterations of the 8-byte tail step. *)
Fixpoint nxh_words (step : Z -> Z -> Z) (src : source) (n : nat)
    (p h : Z) (rs : list Z) : Z * Z * list Z :=
  match n with
  | O => (p, h, rs)
  | S n' =>
      let '(w, r) := nxh_read64 src p in
      nxh_words step src n' (p + 8) (step h w) (rs ++ r)
  end.

(** [while (p < end)]: [n] iterations of the single-byte tail step. *)
Fixpoint nxh_tail (step : Z -> Z -> Z) (src : source) (n : nat)
    (p h : Z) (rs : list Z) : Z * Z * list Z :=
  match n with
  | O => (p, h, rs)
  | S n' => nxh_tail step src n' (p + 1) (step h (src p)) (rs ++ [p])
  end.

Definition nxh64_word_step (h k1 : Z) : Z :=
  let k1 := u64 (k1 * NXH_PRIME_VOID) in
  let k1 := nxh_rotl64 k1 31 in
  let k1 := u64 (k1 * NXH_PRIME_NEXUS) in
  let h := Z.lxor h k1 in
  u64 (nxh_rotl64 h 27 * NXH_PRIME_NEXUS + NXH_PRIME_PULSE).

Definition nxh64_byte_step (h b : Z) : Z :=
  let h := Z.lxor h (u64 (b * NXH_PRIME_DRIFT)) in
  u64 (nxh_rotl64 h 11 * NXH_PRIME_NEXUS).

(** The body of [nxh64] on a buffer: the digest and the offsets of
    [data] dereferenced. *)
Definition nxh64_steps (src : source) (len seed : Z) : Z * list Z :=
  let '(p, h64, rs) :=
    if 32 <=? len then
      let s := nxh_blocks nxh_mix src (Z.to_nat (len / 32))
                 (Lanes 0 (u64 (seed + NXH_PRIME_NEXUS + NXH_PRIME_VOID))
                        (u64 (seed + NXH_PRIME_VOID)) seed
                        (u64 (seed - NXH_PRIME_NEXUS)) []) in
      let h := u64 (nxh_rotl64 (v1 s) 1 + nxh_rotl64 (v2 s) 7 +
                    nxh_rotl64 (v3 s) 12 + nxh_rotl64 (v4 s) 18) in
      let h := nxh_merge h (v1 s) in
      let h := nxh_merge h (v2 s) in
      let h := nxh_merge h (v3 s) in
      let h := nxh_merge h (v4 s) in
      (lp s, h, lreads s)
    else (0, u64 (seed + NXH_PRIME_DRIFT), []) in
  let h64 := u64 (h64 + len) in
  let '(p, h64, rs) :=
    nxh_words nxh64_word_step src (Z.to_nat ((len - p) / 8)) p h64 rs in
  let '(p, h64, rs) :=
    if p + 4 <=? len then
      let '(w, r) := nxh_read32 src p in
      let h := Z.lxor h64 (u64 (w * NXH_PRIME_NEXUS)) in
      (p + 4, u64 (nxh_rotl64 h 23 * NXH_PRIME_VOID + NXH_PRIME_ECHO), rs ++ r)
    else (p, h64, rs) in
  let '(_, h64, rs) :=
    nxh_tail nxh64_byte_step src (Z.to_nat (len - p)) p h64 rs in
  (nxh_avalanche h64, rs).

(** [nxh64(data, len, seed)].  [end = p + len] is formed first, before
    the test for a null [data]; with a null [data] and [len = 0] the
    function goes on past the guard and forms [p + 8] and [p + 4] in
    the loop conditions, none of which holds. *)
Definition nxh64_run (data : option source) (len seed : Z) : run :=
  match data with
  | None =>
      if negb (len =? 0) then
        Run (nxh_avalanche (Z.lxor seed NXH_PRIME_NEXUS)) [] [len]
      else
        Run (nxh_avalanche (u64 (u64 (seed + NXH_PRIME_DRIFT) + len))) []
            [len; 8; 4]
  | Some src =>
      let '(h64, rs) := nxh64_steps src len seed in Run h64 rs []
  end.

Definition nxh64 (data : option source) (len seed : Z) : Z :=
  run_digest (nxh64_run data len seed).

Definition nxh64_alt_word_step (h w : Z) : Z :=
  let k1 := u64 (w * NXH_PRIME_ALT_2) in
  let k1 := nxh_rotl64 k1 29 in
  let k1 := u64 (k1 * NXH_PRIME_ALT_1) in
  let h := Z.lxor h k1 in
  u64 (nxh_rotl64 h 25 * NXH_PRIME_ALT_1 + NXH_PRIME_ALT_2).

Definition nxh64_alt_byte_step (h b : Z) : Z :=
  let h := Z.lxor h (u64 (b * NXH_PRIME_ALT_2)) in
  u64 (nxh_rotl64 h 13 * NXH_PRIME_ALT_1).

(** The body of [nxh64_alt] on a buffer. *)
Definition nxh64_alt_steps (src : source) (len seed : Z) : Z * list Z :=
  let '(p, h64, rs) :=
    if 32 <=? len then
      let s := nxh_blocks nxh_mix_alt src (Z.to_nat (len / 32))
                 (Lanes 0 (u64 (seed + NXH_PRIME_ALT_1 + NXH_PRIME_ALT_2))
                        (u64 (seed + NXH_PRIME_ALT_2)) seed
                        (u64 (seed - NXH_PRIME_ALT_1)) []) in
      let h := u64 (nxh_rotl64 (v1 s) 3 + nxh_rotl64 (v2 s) 11 +
                    nxh_rotl64 (v3 s) 17 + nxh_rotl64 (v4 s) 23) in
      let h := Z.lxor h (u64 (v1 s * NXH_PRIME_ALT_1)) in
      let h := Z.lxor h (u64 (v2 s * NXH_PRIME_ALT_2)) in
      let h := Z.lxor h (u64 (v3 s * NXH_PRIME_ALT_1)) in
      let h := Z.lxor h (u64 (v4 s * NXH_PRIME_ALT_2)) in
      (lp s, h, lreads s)
    else (0, u64 (seed + NXH_PRIME_ALT_1), []) in
  let h64 := u64 (h64 + len) in
  let '(p, h64, rs) :=
    nxh_words nxh64_alt_word_step src (Z.to_nat ((len - p) / 8)) p h64 rs in
  let '(p, h64, rs) :=
    if p + 4 <=? len then
      let '(w, r) := nxh_read32 src p in
      let h := Z.lxor h64 (u64 (w * NXH_PRIME_ALT_1)) in
      (p + 4, u64 (nxh_rotl64 h 21 * NXH_PRIME_ALT_2), rs ++ r)
    else (p, h64, rs) in
  let '(_, h64, rs) :=
    nxh_tail nxh64_alt_byte_step src (Z.to_nat (len - p)) p h64 rs in
  (nxh_avalanche_alt h64, rs).

(** [nxh64_alt(data, len, seed)], with the same first statement and the
    same guard as [nxh64]. *)
Definition nxh64_alt_run (data : option source) (len seed : Z) : run :=
  match data with
  | None =>
      if negb (len =? 0) then
        Run (nxh_avalanche_alt (Z.lxor seed NXH_PRIME_ALT_1)) [] [len]
      else
        Run (nxh_avalanche_alt (u64 (u64 (seed + NXH_PRIME_ALT_1) + len))) []
            [len; 8; 4]
  | Some src =>
      let '(h64, rs) := nxh64_alt_steps src len seed in Run h64 rs []
  end.

Definition nxh64_alt (data : option source) (len seed : Z) : Z :=
  run_digest (nxh64_alt_run data len seed).

(** Hash of a byte string held in memory. *)
Definition nxh64_bytes (s : string) (seed : Z) : Z :=
  nxh64 (Some (bytes_at s)) (zlen s) seed.
Definition nxh64_alt_bytes (s : string) (seed : Z) : Z :=
  nxh64_alt (Some (bytes_at s)) (zlen s) seed.

End NXH.

(* ================================================================== *)
(** * Arrays *)
(* ================================================================== *)

(** [a[i] = x] on an array held as a list; the code modelled below only
    writes at indices below the array length. *)
Fixpoint list_set {A : Type} (l : list A) (n : nat) (x : A) : list A :=
  match l, n with
  | [], _ => []
  | _ :: t, O => x :: t
  | h :: t, S n' => h :: list_set t n' x
  end.

(* ================================================================== *)
(** * DAGGER: src/native/include/dagger.h, src/native/dagger/dagger.c *)
(* ================================================================== *)

(** Keys are byte slices [(key, key_len)]; the table stores the pointer,
    the caller keeps the bytes alive and unchanged, so a stored key is
    modelled by the bytes it points to.  Values are opaque [void*]; the
    table never inspects them, so the model is generic in their type [V].
    [calloc] is taken to succeed (the NOMEM paths are not modelled), and
    the optional destructors, which only release caller memory, have no
    effect on the table and are left out. *)
Module Dagger.

Definition DAGGER_PSL_THRESHOLD : Z := 16.
Definition DAGGER_MAX_CUCKOO_CYCLES : Z := 500.
Definition DAGGER_INITIAL_CAPACITY : Z := 64.
Definition DAGGER_LOAD_FACTOR_PERCENT : Z := 75.
Definition DAGGER_MIN_CAPACITY : Z := 16.
Definition DAGGER_GROWTH_FACTOR : Z := 2.

Inductive dagger_result_t :=
| DAGGER_OK
| DAGGER_NOT_FOUND
| DAGGER_EXISTS
| DAGGER_ERROR_NULLPTR
| DAGGER_ERROR_NOMEM
| DAGGER_ERROR_FULL
| DAGGER_ERROR_INVALID.

Definition result_eqb (a b : dagger_result_t) : bool :=
  match a, b with
  | DAGGER_OK, DAGGER_OK | DAGGER_NOT_FOUND, DAGGER_NOT_FOUND
  | DAGGER_EXISTS, DAGGER_EXISTS | DAGGER_ERROR_NULLPTR, DAGGER_ERROR_NULLPTR
  | DAGGER_ERROR_NOMEM, DAGGER_ERROR_NOMEM | DAGGER_ERROR_FULL, DAGGER_ERROR_FULL
  | DAGGER_ERROR_INVALID, DAGGER_ERROR_INVALID => true
  | _, _ => false
  end.

Definition dagger_key_eq_fn := string -> Z -> string -> Z -> bool.

(** [memcmp(k1, k2, n) == 0] on the first [n] bytes. *)
Definition memcmp_eq (k1 k2 : string) (n : Z) : bool :=
  String.eqb (String.substring 0 (Z.to_nat n) k1)
             (String.substring 0 (Z.to_nat n) k2).

Definition dagger_key_eq_default : dagger_key_eq_fn :=
  fun k1 k1_len k2 k2_len =>
    if negb (k1_len =? k2_len) then false else memcmp_eq k1 k2 k1_len.

Definition dagger_next_pow2 (n : Z) : Z :=
  if n =? 0 then 1
  else
    let n := u64 (n - 1) in
    let n := Z.lor n (Z.shiftr n 1) in
    let n := Z.lor n (Z.shiftr n 2) in
    let n := Z.lor n (Z.shiftr n 4) in
    let n := Z.lor n (Z.shiftr n 8) in
    let n := Z.lor n (Z.shiftr n 16) in
    let n := Z.lor n (Z.shiftr n 32) in
    u64 (n + 1).

Section Table.
Context {V : Type}.

Record DaggerEntry := mkEntry {
  hash_primary : Z;
  hash_alternate : Z;
  key : string;
  value : option V;
  key_len : Z;
  psl : Z;
  occupied : bool;
  in_cuckoo : bool
}.

(** A slot after [calloc]/[memset(slot, 0, ...)]. *)
Definition empty_entry : DaggerEntry := mkEntry 0 0 "" None 0 0 false false.

Record DaggerTable := mkTable {
  entries : list DaggerEntry;
  capacity : Z;
  count : Z;
  mask : Z;
  seed_primary : Z;
  seed_alternate : Z;
  key_eq : dagger_key_eq_fn;
  max_psl : Z;
  cuckoo_count : Z;
  resize_count : Z;
  total_probes : Z;
  total_lookups : Z
}.

Definition set_entries (T : DaggerTable) (es : list DaggerEntry) : DaggerTable :=
  mkTable es (capacity T) (count T) (mask T) (seed_primary T) (seed_alternate T)
          (key_eq T) (max_psl T) (cuckoo_count T) (resize_count T)
          (total_probes T) (total_lookups T).

Definition set_counters (T : DaggerTable) (cnt mx cc : Z) : DaggerTable :=
  mkTable (entries T) (capacity T) cnt (mask T) (seed_primary T) (seed_alternate T)
          (key_eq T) mx cc (resize_count T) (total_probes T) (total_lookups T).

Definition set_lookup_stats (T : DaggerTable) (probes lookups : Z) : DaggerTable :=
  mkTable (entries T) (capacity T) (count T) (mask T) (seed_primary T)
          (seed_alternate T) (key_eq T) (max_psl T) (cuckoo_count T)
          (resize_count T) probes lookups.

(** [T->entries[idx]] and [T->entries[idx] = e]. *)
Definition slot_at (T : DaggerTable) (idx : Z) : DaggerEntry :=
  nth (Z.to_nat idx) (entries T) empty_entry.
Definition slot_put (T : DaggerTable) (idx : Z) (e : DaggerEntry) : DaggerTable :=
  set_entries T (list_set (entries T) (Z.to_nat idx) e).

Definition dagger_slot (T : DaggerTable) (hash : Z) : Z := Z.land hash (mask T).

Definition next_idx (T : DaggerTable) (idx : Z) : Z := Z.land (u64 (idx + 1)) (mask T).

Definition dagger_create (initial_capacity : Z) (keq : option dagger_key_eq_fn)
  : DaggerTable :=
  let initial_capacity :=
    if initial_capacity <? DAGGER_MIN_CAPACITY then DAGGER_INITIAL_CAPACITY
    else initial_capacity in
  let initial_capacity := dagger_next_pow2 initial_capacity in
  mkTable (repeat empty_entry (Z.to_nat initial_capacity))
          initial_capacity 0 (initial_capacity - 1)
          NXH.NXH_SEED_DEFAULT NXH.NXH_SEED_ALT
          (match keq with Some f => f | None => dagger_key_eq_default end)
          0 0 0 0 0.

Definition with_psl (e : DaggerEntry) (p : Z) : DaggerEntry :=
  mkEntry (hash_primary e) (hash_alternate e) (key e) (value e) (key_len e)
          p (occupied e) (in_cuckoo e).
Definition with_cuckoo (e : DaggerEntry) (c : bool) : DaggerEntry :=
  mkEntry (hash_primary e) (hash_alternate e) (key e) (value e) (key_len e)
          (psl e) (occupied e) c.
Definition with_kv (e : DaggerEntry) (k : string) (kl : Z) (v : option V)
  : DaggerEntry :=
  mkEntry (hash_primary e) (hash_alternate e) k v kl (psl e) (occupied e)
          (in_cuckoo e).

(** The [while (1)] loop of [dagger_insert_internal].  [entry] is the
    candidate being carried, [h1]/[k]/[klen]/[v] the arguments of the call
    (the duplicate check always compares against those).  The loop has no
    bound of its own in the Robin Hood phase: [None] means it was still
    running after [fuel] iterations. *)
Fixpoint insert_loop (fuel : nat) (T : DaggerTable) (entry : DaggerEntry)
    (idx cuckoo_cycles : Z) (in_cuckoo_phase : bool)
    (h1 : Z) (k : string) (klen : Z) (v : option V) (allow_replace : bool)
  : option (dagger_result_t * DaggerTable) :=
  match fuel with
  | O => None
  | S fuel' =>
      let slot := slot_at T idx in
      if negb (occupied slot) then
        let T := slot_put T idx (with_cuckoo entry in_cuckoo_phase) in
        let T := set_counters T (u64 (count T + 1))
                   (if max_psl T <? psl entry then psl entry else max_psl T)
                   (if in_cuckoo_phase then u64 (cuckoo_count T + 1)
                    else cuckoo_count T) in
        Some (DAGGER_OK, T)
      else if (hash_primary slot =? h1) && (key_len slot =? klen)
              && key_eq T (key slot) (key_len slot) k klen then
        if allow_replace then
          Some (DAGGER_OK, slot_put T idx (with_kv slot k klen v))
        else Some (DAGGER_EXISTS, T)
      else
        let '(T, entry) :=
          if psl slot <? psl entry then
            (slot_put T idx (with_cuckoo entry in_cuckoo_phase), slot)
          else (T, entry) in
        let entry := with_psl entry (u8 (psl entry + 1)) in
        let idx := next_idx T idx in
        let '(in_cuckoo_phase, entry, idx, cuckoo_cycles) :=
          if negb in_cuckoo_phase && (DAGGER_PSL_THRESHOLD <? psl entry) then
            (true, with_psl entry 0, dagger_slot T (hash_alternate entry), 0)
          else (in_cuckoo_phase, entry, idx, cuckoo_cycles) in
        if in_cuckoo_phase then
          let cuckoo_cycles := cuckoo_cycles + 1 in
          if DAGGER_MAX_CUCKOO_CYCLES <? cuckoo_cycles then
            Some (DAGGER_ERROR_FULL, T)
          else insert_loop fuel' T entry idx cuckoo_cycles in_cuckoo_phase
                 h1 k klen v allow_replace
        else insert_loop fuel' T entry idx cuckoo_cycles in_cuckoo_phase
               h1 k klen v allow_replace
  end.

(** Enough iterations to walk every slot once in the Robin Hood phase and
    to exhaust the cuckoo cycle limit afterwards. *)
Definition insert_fuel (T : DaggerTable) : nat :=
  (Z.to_nat (capacity T) + Z.to_nat DAGGER_MAX_CUCKOO_CYCLES + 2)%nat.

Definition dagger_insert_internal (T : DaggerTable) (k : string) (klen : Z)
    (v : option V) (h1 h2 : Z) (allow_replace : bool)
  : option (dagger_result_t * DaggerTable) :=
  insert_loop (insert_fuel T) T (mkEntry h1 h2 k v klen 0 true false)
              (dagger_slot T h1) 0 false h1 k klen v allow_replace.

(** The re-insertion loop of [dagger_resize] over the old slots. *)
Fixpoint reinsert_all (T : DaggerTable) (old : list DaggerEntry)
  : option (dagger_result_t * DaggerTable) :=
  match old with
  | [] => Some (DAGGER_OK, T)
  | e :: rest =>
      if occupied e then
        match dagger_insert_internal T (key e) (key_len e) (value e)
                (hash_primary e) (hash_alternate e) true with
        | None => None
        | Some (DAGGER_OK, T') => reinsert_all T' rest
        | Some (r, T') => Some (r, T')
        end
      else reinsert_all T rest
  end.

Definition dagger_resize (T : DaggerTable) (new_capacity : Z)
  : option (dagger_result_t * DaggerTable) :=
  let new_capacity := dagger_next_pow2 new_capacity in
  let new_capacity :=
    if new_capacity <? DAGGER_MIN_CAPACITY then DAGGER_MIN_CAPACITY
    else new_capacity in
  let old_entries := entries T in
  let old_capacity := capacity T in
  let T1 := mkTable (repeat empty_entry (Z.to_nat new_capacity))
              new_capacity 0 (new_capacity - 1) (seed_primary T)
              (seed_alternate T) (key_eq T) 0 0 (u64 (resize_count T + 1))
              (total_probes T) (total_lookups T) in
  match reinsert_all T1 old_entries with
  | None => None
  | Some (DAGGER_OK, T2) => Some (DAGGER_OK, T2)
  | Some (r, T2) =>
      (* restore the old array; count and the statistics stay as they are *)
      Some (r, mkTable old_entries old_capacity (count T2) (old_capacity - 1)
                 (seed_primary T2) (seed_alternate T2) (key_eq T2) (max_psl T2)
                 (cuckoo_count T2) (resize_count T2) (total_probes T2)
                 (total_lookups T2))
  end.

Definition hash1 (T : DaggerTable) (k : string) (klen : Z) : Z :=
  NXH.nxh64 (Some (bytes_at k)) klen (seed_primary T).
Definition hash2 (T : DaggerTable) (k : string) (klen : Z) : Z :=
  NXH.nxh64_alt (Some (bytes_at k)) klen (seed_alternate T).

Definition dagger_set (T : DaggerTable) (k : option string) (klen : Z)
    (v : option V) (replace : bool) : option (dagger_result_t * DaggerTable) :=
  match k with
  | None => Some (DAGGER_ERROR_NULLPTR, T)
  | Some k =>
      if klen =? 0 then Some (DAGGER_ERROR_INVALID, T)
      else
        let threshold := u64 (capacity T * DAGGER_LOAD_FACTOR_PERCENT) / 100 in
        let pre :=
          if threshold <=? count T then
            dagger_resize T (u64 (capacity T * DAGGER_GROWTH_FACTOR))
          else Some (DAGGER_OK, T) in
        match pre with
        | None => None
        | Some (DAGGER_OK, T) =>
            let h1 := hash1 T k klen in
            let h2 := hash2 T k klen in
            match dagger_insert_internal T k klen v h1 h2 replace with
            | None => None
            | Some (DAGGER_ERROR_FULL, T) =>
                match dagger_resize T (u64 (capacity T * DAGGER_GROWTH_FACTOR)) with
                | None => None
                | Some (DAGGER_OK, T) =>
                    let h1 := hash1 T k klen in
                    let h2 := hash2 T k klen in
                    dagger_insert_internal T k klen v h1 h2 replace
                | Some (r, T) => Some (r, T)
                end
            | Some (r, T) => Some (r, T)
            end
        | Some (r, T) => Some (r, T)
        end
  end.

(** ** Lookup *)

Definition slot_matches (T : DaggerTable) (slot : DaggerEntry) (h1 : Z)
    (k : string) (klen : Z) : bool :=
  (hash_primary slot =? h1) && (key_len slot =? klen)
  && key_eq T (key slot) (key_len slot) k klen.

Definition slot_matches_alt (T : DaggerTable) (slot : DaggerEntry) (h2 : Z)
    (k : string) (klen : Z) : bool :=
  in_cuckoo slot && (hash_alternate slot =? h2) && (key_len slot =? klen)
  && key_eq T (key slot) (key_len slot) k klen.

Inductive rh_outcome :=
| RhFound (v : option V) (probes : Z)
| RhAbsent (probes : Z)
| RhBreak (probes : Z).

(** Phase 1 of [dagger_get], the [while (1)] Robin Hood probe.  The guard
    [probes > DAGGER_PSL_THRESHOLD + 1] is tested before the recursive
    call, so started with [fuel = 17] and [probes = 0] the [O] branch is
    never taken (see [get_rh_fuel]). *)
Fixpoint get_rh (fuel : nat) (T : DaggerTable) (h1 : Z) (k : string) (klen : Z)
    (idx probes : Z) : rh_outcome :=
  let slot := slot_at T idx in
  let probes := probes + 1 in
  if negb (occupied slot) then RhAbsent probes
  else if slot_matches T slot h1 k klen then RhFound (value slot) probes
  else if psl slot <? probes - 1 then RhBreak probes
  else if DAGGER_PSL_THRESHOLD + 1 <? probes then RhBreak probes
  else match fuel with
       | O => RhBreak probes
       | S fuel' => get_rh fuel' T h1 k klen (next_idx T idx) probes
       end.

(** Phase 2 of [dagger_get]: [for (i = 0; i <= DAGGER_PSL_THRESHOLD; i++)],
    [n] iterations left.  Returns the result, the value and [probes]. *)
Fixpoint get_cuckoo (n : nat) (T : DaggerTable) (h2 : Z) (k : string) (klen : Z)
    (idx probes : Z) : dagger_result_t * option V * Z :=
  match n with
  | O => (DAGGER_NOT_FOUND, None, probes)
  | S n' =>
      let slot := slot_at T idx in
      let probes := probes + 1 in
      if negb (occupied slot) then (DAGGER_NOT_FOUND, None, probes)
      else if slot_matches_alt T slot h2 k klen then
        (DAGGER_OK, value slot, probes)
      else get_cuckoo n' T h2 k klen (next_idx T idx) probes
  end.

Record get_result := mkGet {
  g_result : dagger_result_t;
  g_value : option V;      (* what [*value] holds afterwards; [None] is NULL *)
  g_probes : Z;            (* slots examined by this call *)
  g_table : DaggerTable    (* the table with its lookup statistics updated *)
}.

Definition dagger_get (T : DaggerTable) (k : option string) (klen : Z)
  : get_result :=
  match k with
  | None => mkGet DAGGER_ERROR_NULLPTR None 0 T
  | Some k =>
      if klen =? 0 then mkGet DAGGER_ERROR_INVALID None 0 T
      else
        let lookups := u64 (total_lookups T + 1) in
        let h1 := hash1 T k klen in
        let fin r v probes :=
          mkGet r v probes (set_lookup_stats T (u64 (total_probes T + probes)) lookups) in
        match get_rh 17 T h1 k klen (dagger_slot T h1) 0 with
        | RhAbsent probes => fin DAGGER_NOT_FOUND None probes
        | RhFound v probes => fin DAGGER_OK v probes
        | RhBreak probes =>
            let h2 := hash2 T k klen in
            let '(r, v, probes) :=
              get_cuckoo 17 T h2 k klen (dagger_slot T h2) probes in
            fin r v probes
        end
  end.

Definition dagger_contains (T : DaggerTable) (k : option string) (klen : Z) : bool :=
  result_eqb (g_result (dagger_get T k klen)) DAGGER_OK.

(** ** Removal *)

(** Phase 1 of [dagger_remove]: [while (probes <= DAGGER_PSL_THRESHOLD)],
    [n] iterations left.  [Some (idx, in_cuckoo)] when found. *)
Fixpoint remove_rh (n : nat) (T : DaggerTable) (h1 : Z) (k : string) (klen : Z)
    (idx probes : Z) : option (Z * bool) :=
  match n with
  | O => None
  | S n' =>
      let slot := slot_at T idx in
      let probes := probes + 1 in
      if negb (occupied slot) then None
      else if slot_matches T slot h1 k klen then Some (idx, in_cuckoo slot)
      else if psl slot <? probes - 1 then None
      else remove_rh n' T h1 k klen (next_idx T idx) probes
  end.

Fixpoint remove_cuckoo (n : nat) (T : DaggerTable) (h2 : Z) (k : string)
    (klen : Z) (idx : Z) : option (Z * bool) :=
  match n with
  | O => None
  | S n' =>
      let slot := slot_at T idx in
      if negb (occupied slot) then None
      else if slot_matches_alt T slot h2 k klen then Some (idx, true)
      else remove_cuckoo n' T h2 k klen (next_idx T idx)
  end.

(** The backward-shift [while] loop; [None] when it is still running
    after [fuel] iterations. *)
Fixpoint shift_back (fuel : nat) (T : DaggerTable) (idx nxt : Z)
  : option DaggerTable :=
  match fuel with
  | O => None
  | S fuel' =>
      let e := slot_at T nxt in
      if occupied e && (0 <? psl e) then
        let T := slot_put T idx (with_psl e (psl e - 1)) in
        let T := slot_put T nxt empty_entry in
        shift_back fuel' T nxt (next_idx T nxt)
      else Some T
  end.

Definition dagger_remove (T : DaggerTable) (k : option string) (klen : Z)
  : option (dagger_result_t * DaggerTable) :=
  match k with
  | None => Some (DAGGER_ERROR_NULLPTR, T)
  | Some k =>
      if klen =? 0 then Some (DAGGER_ERROR_INVALID, T)
      else
        let h1 := hash1 T k klen in
        let found :=
          match remove_rh 17 T h1 k klen (dagger_slot T h1) 0 with
          | Some f => Some f
          | None =>
              let h2 := hash2 T k klen in
              remove_cuckoo 17 T h2 k klen (dagger_slot T h2)
          end in
        match found with
        | None => Some (DAGGER_NOT_FOUND, T)
        | Some (idx, in_ck) =>
            let T := slot_put T idx empty_entry in
            let T := set_counters T (u64 (count T - 1)) (max_psl T)
                       (if in_ck then u64 (cuckoo_count T - 1)
                        else cuckoo_count T) in
            match shift_back (256 * Z.to_nat (capacity T) + 1) T idx
                    (next_idx T idx) with
            | None => None
            | Some T => Some (DAGGER_OK, T)
            end
        end
  end.

Definition dagger_clear (T : DaggerTable) : DaggerTable :=
  set_counters (set_entries T (repeat empty_entry (Z.to_nat (capacity T)))) 0 0 0.

(** ** Iteration, for a callback that does not touch the table. *)

Fixpoint foreach_loop {S : Type}
    (fn : string -> Z -> option V -> S -> bool * S)
    (es : list DaggerEntry) (cnt : Z) (ctx : S) : Z * S :=
  match es with
  | [] => (cnt, ctx)
  | e :: rest =>
      if occupied e then
        let '(stop, ctx) := fn (key e) (key_len e) (value e) ctx in
        if stop then (cnt + 1, ctx) else foreach_loop fn rest (cnt + 1) ctx
      else foreach_loop fn rest cnt ctx
  end.

Definition dagger_foreach {S : Type} (T : DaggerTable)
    (fn : string -> Z -> option V -> S -> bool * S) (ctx : S) : Z * S :=
  foreach_loop fn (entries T) 0 ctx.

(** ** String key convenience functions: [strlen] then the call. *)

Definition dagger_set_str (T : DaggerTable) (k : option string) (v : option V)
    (replace : bool) : option (dagger_result_t * DaggerTable) :=
  match k with
  | None => Some (DAGGER_ERROR_NULLPTR, T)
  | Some s => dagger_set T (Some s) (u32 (strlen s)) v replace
  end.

Definition dagger_get_str (T : DaggerTable) (k : option string) : get_result :=
  match k with
  | None => mkGet DAGGER_ERROR_NULLPTR None 0 T
  | Some s => dagger_get T (Some s) (u32 (strlen s))
  end.

Definition dagger_remove_str (T : DaggerTable) (k : option string)
  : option (dagger_result_t * DaggerTable) :=
  match k with
  | None => Some (DAGGER_ERROR_NULLPTR, T)
  | Some s => dagger_remove T (Some s) (u32 (strlen s))
  end.

End Table.
Arguments DaggerEntry : clear implicits.
Arguments DaggerTable : clear implicits.
Arguments get_result : clear implicits.
Arguments rh_outcome : clear implicits.

End Dagger.

(* ================================================================== *)
(** * Arena: src/native/include/zorya_arena.h *)
(* ================================================================== *)

(** The chunk chain [first -> ... ] is the list [chunks]; a chunk pointer
    is its position in the chain, [first] is position 0.  An allocation
    is identified by its chunk and its offset in [data[]]. *)
Module Arena.

Definition ARENA_DEFAULT_CHUNK_SIZE : Z := 64 * 1024.
Definition ARENA_DEFAULT_ALIGNMENT : Z := 8.

Record ArenaChunk := mkChunk {
  capacity : Z;
  used : Z;
  peak : Z
}.

Record Arena := mkArena {
  chunks : list ArenaChunk;
  current : nat;
  chunk_size : Z;
  alignment : Z;
  total_allocated : Z;
  total_capacity : Z;
  peak_allocated : Z;
  chunk_count : Z;
  alloc_count : Z
}.

Definition ptr : Type := nat * Z.

Definition ptr_eqb (p q : ptr) : bool :=
  Nat.eqb (fst p) (fst q) && (snd p =? snd q).

Definition arena_align (size : Z) : Z :=
  Z.land (u64 (size + ARENA_DEFAULT_ALIGNMENT - 1))
         (u64 (Z.lnot (ARENA_DEFAULT_ALIGNMENT - 1))).

Definition arena_chunk_create (min_capacity : Z) (malloc_ok : bool)
  : option ArenaChunk :=
  if malloc_ok then Some (mkChunk min_capacity 0 0) else None.

Definition arena_create (chunk_size : Z) (malloc_ok : bool) : option Arena :=
  let chunk_size :=
    if chunk_size =? 0 then ARENA_DEFAULT_CHUNK_SIZE else chunk_size in
  match arena_chunk_create chunk_size malloc_ok with
  | None => None
  | Some chunk =>
      Some (mkArena [chunk] 0 chunk_size ARENA_DEFAULT_ALIGNMENT 0 chunk_size
                    0 1 0)
  end.

Definition empty_chunk : ArenaChunk := mkChunk 0 0 0.

Definition current_chunk (a : Arena) : ArenaChunk :=
  nth (current a) (chunks a) empty_chunk.

Definition with_used (c : ArenaChunk) (u : Z) : ArenaChunk :=
  mkChunk (capacity c) u (peak c).

(** [arena_alloc]; [malloc_ok] tells whether the system allocator can
    provide a new chunk should one be needed.  Linking the new chunk
    overwrites [chunk->next], so whatever followed the current chunk
    leaves the chain. *)
Definition arena_alloc (a : Arena) (size : Z) (malloc_ok : bool)
  : option ptr * Arena :=
  if size =? 0 then (None, a)
  else
    let aligned := arena_align size in
    let chunk := current_chunk a in
    if u64 (used chunk + aligned) <=? capacity chunk then
      let total := u64 (total_allocated a + aligned) in
      (Some (current a, used chunk),
       mkArena (list_set (chunks a) (current a)
                         (with_used chunk (u64 (used chunk + aligned))))
               (current a) (chunk_size a) (alignment a) total
               (total_capacity a)
               (if peak_allocated a <? total then total else peak_allocated a)
               (chunk_count a) (u64 (alloc_count a + 1)))
    else
      let new_chunk_size :=
        if chunk_size a <? aligned then aligned else chunk_size a in
      match arena_chunk_create new_chunk_size malloc_ok with
      | None => (None, a)
      | Some new_chunk =>
          (Some (S (current a), 0),
           mkArena (firstn (S (current a)) (chunks a)
                      ++ [with_used new_chunk aligned])
                   (S (current a)) (chunk_size a) (alignment a)
                   (u64 (total_allocated a + aligned))
                   (u64 (total_capacity a + new_chunk_size))
                   (peak_allocated a) (u64 (chunk_count a + 1))
                   (alloc_count a))
      end.

Definition arena_reset (a : Arena) : Arena :=
  let first := nth 0 (chunks a) empty_chunk in
  mkArena [mkChunk (capacity first) 0 0] 0 (chunk_size a) (alignment a) 0
          (capacity first) (peak_allocated a) 1 0.

(** [arena_stats]: allocated, capacity, chunks. *)
Definition arena_stats (a : option Arena) : Z * Z * Z :=
  match a with
  | None => (0, 0, 0)
  | Some a => (total_allocated a, total_capacity a, chunk_count a)
  end.

End Arena.

(* ================================================================== *)
(** * Arena temporary scopes: src/native/weave/weave_napi.c *)
(* ================================================================== *)

(** [zorya_arena.h] declares [ArenaTemp] and mentions
    [arena_temp_begin]/[arena_temp_end] in its usage comment but defines
    neither; the temporary scopes of this repository are the ones
    implemented on [ArenaWrapper] by [arena_js_temp_begin] and
    [arena_js_temp_end]. *)
Module ArenaNapi.
Import Arena.

Record ArenaWrapper := mkWrapper {
  arena : Arena;
  temp_chunk : option nat;
  temp_used : Z
}.

(** The outcome of a binding call: a JavaScript value or a thrown error. *)
Inductive js_result (A : Type) :=
| JsOk (a : A)
| JsThrow (msg : string).
Arguments JsOk {A} a.
Arguments JsThrow {A} msg.

Definition arena_js_create (chunk_size : Z) (malloc_ok : bool)
  : js_result ArenaWrapper :=
  match arena_create (u32 chunk_size) malloc_ok with
  | None => JsThrow "Failed to create Arena"
  | Some a => JsOk (mkWrapper a None 0)
  end.

Definition arena_js_alloc (aw : ArenaWrapper) (size : Z) (malloc_ok : bool)
  : js_result ptr * ArenaWrapper :=
  match arena_alloc (arena aw) (u32 size) malloc_ok with
  | (None, _) => (JsThrow "Arena allocation failed", aw)
  | (Some p, a) => (JsOk p, mkWrapper a (temp_chunk aw) (temp_used aw))
  end.

Definition arena_js_temp_begin (aw : ArenaWrapper) : js_result bool * ArenaWrapper :=
  (JsOk true,
   mkWrapper (arena aw) (Some (current (arena aw)))
             (used (current_chunk (arena aw)))).

Definition arena_js_temp_end (aw : ArenaWrapper) : js_result bool * ArenaWrapper :=
  match temp_chunk aw with
  | None => (JsThrow "No temp scope active", aw)
  | Some tc =>
      let a := arena aw in
      let kept := firstn (S tc) (chunks a) in
      let c := nth tc kept empty_chunk in
      (JsOk true,
       mkWrapper
         (mkArena (list_set kept tc (with_used c (temp_used aw))) tc
                  (chunk_size a) (alignment a) (total_allocated a)
                  (total_capacity a) (peak_allocated a) (chunk_count a)
                  (alloc_count a))
         None 0)
  end.

Definition arena_js_reset (aw : ArenaWrapper) : js_result bool * ArenaWrapper :=
  (JsOk true, mkWrapper (arena_reset (arena aw)) None 0).

(** [temp_begin; alloc*; temp_end] as a script: the allocation requests
    are [(size, malloc_ok)] pairs; a failed allocation throws into
    JavaScript and the script goes on with the next call. *)
Fixpoint allocs (aw : ArenaWrapper) (reqs : list (Z * bool)) : ArenaWrapper :=
  match reqs with
  | [] => aw
  | (size, ok) :: rest => allocs (snd (arena_js_alloc aw size ok)) rest
  end.

Definition temp_scope (aw : ArenaWrapper) (reqs : list (Z * bool)) : ArenaWrapper :=
  snd (arena_js_temp_end (allocs (snd (arena_js_temp_begin aw)) reqs)).

End ArenaNapi.

(* ================================================================== *)
(** * WEAVE: src/native/include/weave.h, src/native/weave/weave.c *)
(* ================================================================== *)

(** A [Weave] object: the header fields and the [len] bytes of [data[]]
    before the terminating NUL.  A function returning [Weave*] returns
    [None] for NULL and otherwise the object the returned pointer refers
    to (after [realloc] that may be a moved copy); on every NULL path of
    the code the argument object is left untouched.  [realloc_ok] tells
    whether [realloc] succeeds should it be called. *)
Module Weave.

Definition WEAVE_INITIAL_CAP : Z := 32.
Definition WEAVE_FLAG_NONE : Z := 0.
Definition WEAVE_FLAG_INTERNED : Z := 1.
Definition WEAVE_FLAG_READONLY : Z := 2.
Definition WEAVE_FLAG_STATIC : Z := 4.

(** [sizeof(Weave)]: two [size_t], one [uint8_t], padded to 8. *)
Definition SIZEOF_WEAVE : Z := 24.

Record Weave := mkWeave {
  len : Z;
  cap : Z;
  flags : Z;
  data : string
}.

(** [ZORYA_NEXT_POWER_OF_2_64] and [ZORYA_ALIGN_UP] of pcm.h. *)
Definition WEAVE_NEXT_POW2 (x : Z) : Z :=
  if x <=? 1 then 1 else u64 (Z.shiftl 1 (Z.log2 (x - 1) + 1)).
Definition WEAVE_ALIGN_UP (x a : Z) : Z :=
  Z.land (u64 (x + (a - 1))) (u64 (Z.lnot (a - 1))).

Definition weave_alloc_size (cap : Z) : Z :=
  WEAVE_ALIGN_UP (u64 (SIZEOF_WEAVE + cap + 1)) 8.

Definition weave_grow_cap (current needed : Z) : Z :=
  if needed <=? 64 then 64
  else
    let new_cap := WEAVE_NEXT_POW2 needed in
    if new_cap <? u64 (current * 2) then WEAVE_NEXT_POW2 (u64 (current * 2))
    else new_cap.

Definition safe_strlen (s : option string) : Z :=
  match s with None => 0 | Some s => strlen s end.

(** The first [n] bytes at [s]. *)
Definition take_bytes (s : string) (n : Z) : string :=
  String.substring 0 (Z.to_nat n) s.

Definition weave_new_len (s : option string) (n : Z) (malloc_ok : bool)
  : option Weave :=
  let cap := if n <? WEAVE_INITIAL_CAP then WEAVE_INITIAL_CAP
             else WEAVE_NEXT_POW2 n in
  if malloc_ok then
    Some (mkWeave n cap WEAVE_FLAG_NONE
            (match s with
             | Some s => if 0 <? n then take_bytes s n else ""
             | None => ""
             end))
  else None.

Definition weave_new (s : option string) (malloc_ok : bool) : option Weave :=
  weave_new_len s (safe_strlen s) malloc_ok.

Definition weave_with_cap (cap : Z) (malloc_ok : bool) : option Weave :=
  let cap := if cap <? WEAVE_INITIAL_CAP then WEAVE_INITIAL_CAP else cap in
  if malloc_ok then Some (mkWeave 0 cap WEAVE_FLAG_NONE "") else None.

Definition weave_cstr (w : option Weave) : string :=
  match w with Some w => data w | None => "" end.
Definition weave_len (w : option Weave) : Z :=
  match w with Some w => len w | None => 0 end.
Definition weave_cap (w : option Weave) : Z :=
  match w with Some w => cap w | None => 0 end.
Definition weave_flags (w : option Weave) : Z :=
  match w with Some w => flags w | None => 0 end.
Definition weave_is_interned (w : option Weave) : bool :=
  match w with
  | Some w => negb (Z.land (flags w) WEAVE_FLAG_INTERNED =? 0)
  | None => false
  end.

(** [w->flags & (WEAVE_FLAG_INTERNED | WEAVE_FLAG_READONLY)]. *)
Definition immutable (w : Weave) : bool :=
  negb (Z.land (flags w) (Z.lor WEAVE_FLAG_INTERNED WEAVE_FLAG_READONLY) =? 0).

Definition with_cap (w : Weave) (c : Z) : Weave :=
  mkWeave (len w) c (flags w) (data w).
Definition with_content (w : Weave) (n : Z) (d : string) : Weave :=
  mkWeave n (cap w) (flags w) d.

Definition weave_ensure_cap (w : option Weave) (additional : Z)
    (realloc_ok : bool) : option Weave :=
  match w with
  | None => None
  | Some w =>
      if immutable w then None
      else
        let needed := u64 (len w + additional) in
        if needed <=? cap w then Some w
        else
          let new_cap := weave_grow_cap (cap w) needed in
          if realloc_ok then Some (with_cap w new_cap) else None
  end.

(** Where the bytes handed to [weave_append_len] or [weave_prepend_len]
    lie: in a buffer that shares no byte with the block of the Weave, or
    in that block, [off] bytes into [data[]]. *)
Inductive origin :=
| Apart (s : string)
| Within (off : Z).

(** What such a call gives: the pointer returned ([None] for NULL) with
    the object it refers to, or no defined result. *)
Inductive outcome :=
| Ret (w : option Weave)
| Undefined.

(** The initialised bytes of [data[]]: the content and its NUL. *)
Definition buffer (w : Weave) : string := data w +++ String NUL "".

(** Whether [weave_ensure_cap(w, additional)] calls [realloc]; once it
    has succeeded, every pointer into the old block is invalid. *)
Definition must_grow (w : Weave) (additional : Z) : bool :=
  negb (u64 (len w + additional) <=? cap w).

(** Whether a [const char *s] argument can be read as a C string: a
    pointer into the Weave has to point at its content or at the NUL
    that ends it, the bytes after the NUL being uninitialised. *)
Definition readable (w : option Weave) (s : option origin) : bool :=
  match s, w with
  | Some (Within off), Some w0 => (0 <=? off) && (off <=? len w0)
  | Some (Within _), None => false
  | _, _ => true
  end.

(** [safe_strlen(s)] of a readable [const char *s] argument. *)
Definition origin_strlen (w : option Weave) (s : option origin) : Z :=
  match s with
  | None => 0
  | Some (Apart b) => strlen b
  | Some (Within off) =>
      match w with
      | Some w =>
          strlen (String.substring (Z.to_nat off) (String.length (data w)) (data w))
      | None => 0
      end
  end.

(** [weave_append_len].  With the source inside the Weave, [memcpy]
    copies from [data + off] to [data + len]: [s] is invalid when the
    block was reallocated, and the two regions must not overlap. *)
Definition weave_append_len (w : option Weave) (s : option origin) (n : Z)
    (realloc_ok : bool) : outcome :=
  match w with
  | None => Ret None
  | Some w0 =>
      match s with
      | None => Ret (Some w0)
      | Some src =>
          if n =? 0 then Ret (Some w0)
          else
            match weave_ensure_cap (Some w0) n realloc_ok with
            | None => Ret None
            | Some w =>
                match src with
                | Apart s =>
                    Ret (Some (with_content w (u64 (len w + n))
                                 (take_bytes (data w) (len w) +++ take_bytes s n)))
                | Within off =>
                    if must_grow w0 n
                       || negb ((0 <=? off) && (off + n <=? len w0))
                    then Undefined
                    else
                      Ret (Some (with_content w (u64 (len w + n))
                                   (take_bytes (data w) (len w) +++
                                    String.substring (Z.to_nat off) (Z.to_nat n)
                                      (data w))))
                end
            end
      end
  end.

Definition weave_append (w : option Weave) (s : option origin)
    (realloc_ok : bool) : outcome :=
  if readable w s then weave_append_len w s (origin_strlen w s) realloc_ok
  else Undefined.

(** [&c] is the address of the parameter, outside the Weave. *)
Definition weave_append_char (w : option Weave) (c : ascii)
    (realloc_ok : bool) : outcome :=
  weave_append_len w (Some (Apart (String c ""))) 1 realloc_ok.

(** The second argument of [weave_append_weave]: another Weave, or the
    one being appended to. *)
Inductive weave_ref :=
| Other (o : Weave)
| Itself.

Definition weave_append_weave (w : option Weave) (other : option weave_ref)
    (realloc_ok : bool) : outcome :=
  match other with
  | None => Ret w
  | Some (Other o) =>
      weave_append_len w (Some (Apart (data o))) (len o) realloc_ok
  | Some Itself =>
      weave_append_len w (Some (Within 0)) (weave_len w) realloc_ok
  end.

(** [weave_prepend_len].  [memmove] shifts the content and its NUL right
    by [n] first; with the source inside the Weave, [memcpy] then reads
    the shifted bytes at [data + off], and must not overlap the first
    [n] bytes it writes. *)
Definition weave_prepend_len (w : option Weave) (s : option origin) (n : Z)
    (realloc_ok : bool) : outcome :=
  match w with
  | None => Ret None
  | Some w0 =>
      match s with
      | None => Ret (Some w0)
      | Some src =>
          if n =? 0 then Ret (Some w0)
          else
            match weave_ensure_cap (Some w0) n realloc_ok with
            | None => Ret None
            | Some w =>
                match src with
                | Apart s =>
                    Ret (Some (with_content w (u64 (len w + n))
                                 (take_bytes s n +++ take_bytes (data w) (len w))))
                | Within off =>
                    if must_grow w0 n
                       || negb ((n <=? off) && (off <=? len w0 + 1))
                    then Undefined
                    else
                      Ret (Some (with_content w (u64 (len w + n))
                                   (String.substring (Z.to_nat (off - n)) (Z.to_nat n)
                                      (buffer w) +++
                                    take_bytes (data w) (len w))))
                end
            end
      end
  end.

Definition weave_prepend (w : option Weave) (s : option origin)
    (realloc_ok : bool) : outcome :=
  if readable w s then weave_prepend_len w s (origin_strlen w s) realloc_ok
  else Undefined.

(** [void] mutators return the object as it is after the call. *)
Definition weave_clear (w : Weave) : Weave :=
  if immutable w then w else with_content w 0 "".

Definition weave_truncate (w : Weave) (n : Z) : Weave :=
  if immutable w then w
  else if len w <=? n then w
  else with_content w n (take_bytes (data w) n).

Definition weave_reserve (w : option Weave) (min_cap : Z) (realloc_ok : bool)
  : option Weave :=
  match w with
  | None => None
  | Some w0 =>
      if min_cap <=? cap w0 then Some w0
      else weave_ensure_cap (Some w0) (u64 (min_cap - len w0)) realloc_ok
  end.

Definition weave_shrink (w : option Weave) (realloc_ok : bool) : option Weave :=
  match w with
  | None => None
  | Some w0 =>
      if negb (Z.land (flags w0) WEAVE_FLAG_INTERNED =? 0) then Some w0
      else if len w0 =? cap w0 then Some w0
      else if realloc_ok then Some (with_cap w0 (len w0))
      else Some w0
  end.

(** [weave_append_fmt]: [formatted] is what [vsnprintf] produces for the
    format and arguments, [None] when it reports an error ([size < 0]). *)
Definition weave_append_fmt (w : option Weave) (fmt : option string)
    (formatted : option string) (realloc_ok : bool) : option Weave :=
  match w, fmt with
  | None, _ => None
  | Some w0, None => Some w0
  | Some w0, Some _ =>
      match formatted with
      | None => Some w0
      | Some out =>
          match weave_ensure_cap (Some w0) (zlen out) realloc_ok with
          | None => None
          | Some w =>
              Some (with_content w (u64 (len w + zlen out))
                      (take_bytes (data w) (len w) +++ out))
          end
      end
  end.

End Weave.

(* ================================================================== *)
(** * Tablet: the interned pool of weave.c *)
(* ================================================================== *)

(** An interned Weave lives in the Tablet's arena; its pointer is the
    arena allocation, and [heap] records the object written there.  The
    DAGGER key of an interned Weave is its own [data[]], which is never
    modified afterwards. *)
Module Tablet.
Import Arena Weave.

Definition TABLET_INITIAL_BUCKETS : Z := 256.

Record Tablet := mkTablet {
  pool : Dagger.DaggerTable ptr;
  arena : Arena;
  count : Z;
  memory : Z;
  heap : list (ptr * Weave)
}.

Definition tablet_create_sized (initial_buckets : Z) (malloc_ok : bool)
  : option Tablet :=
  match arena_create 4096 malloc_ok with
  | None => None
  | Some a => Some (mkTablet (Dagger.dagger_create initial_buckets None) a 0 0 [])
  end.

Definition tablet_create (malloc_ok : bool) : option Tablet :=
  tablet_create_sized TABLET_INITIAL_BUCKETS malloc_ok.

(** The object a Weave pointer of this Tablet refers to. *)
Fixpoint heap_find (h : list (ptr * Weave)) (p : ptr) : option Weave :=
  match h with
  | [] => None
  | (q, w) :: rest => if ptr_eqb q p then Some w else heap_find rest p
  end.

Definition deref (T : Tablet) (p : option ptr) : option Weave :=
  match p with None => None | Some p => heap_find (heap T) p end.

(** [tablet_intern_len]; the outer [option] is [None] only when the
    DAGGER insertion loop does not come back (see [Dagger.insert_loop]). *)
Definition tablet_intern_len (T : Tablet) (s : option string) (n : Z)
    (malloc_ok : bool) : option (option ptr * Tablet) :=
  if (match s with None => true | Some _ => false end) && (0 <? n) then
    Some (None, T)
  else
    let g := Dagger.dagger_get (pool T) s (u32 n) in
    let T := mkTablet (Dagger.g_table g) (arena T) (count T) (memory T) (heap T) in
    match Dagger.g_result g, Dagger.g_value g with
    | Dagger.DAGGER_OK, Some existing => Some (Some existing, T)
    | _, _ =>
        let alloc_size := weave_alloc_size n in
        match arena_alloc (arena T) alloc_size malloc_ok with
        | (None, _) => Some (None, T)
        | (Some p, a) =>
            let w := mkWeave n n (Z.lor WEAVE_FLAG_INTERNED WEAVE_FLAG_READONLY)
                       (match s with
                        | Some s => if 0 <? n then take_bytes s n else ""
                        | None => ""
                        end) in
            let T := mkTablet (pool T) a (count T) (memory T) ((p, w) :: heap T) in
            match Dagger.dagger_set (pool T) (Some (data w)) (u32 n) (Some p) false with
            | None => None
            | Some (Dagger.DAGGER_OK, pool') =>
                Some (Some p,
                      mkTablet pool' (arena T) (u64 (count T + 1))
                               (u64 (memory T + alloc_size)) (heap T))
            | Some (_, pool') =>
                Some (None, mkTablet pool' (arena T) (count T) (memory T) (heap T))
            end
        end
    end.

Definition tablet_intern (T : Tablet) (s : option string) (malloc_ok : bool)
  : option (option ptr * Tablet) :=
  match s with
  | None => Some (None, T)
  | Some str => tablet_intern_len T (Some str) (strlen str) malloc_ok
  end.

Definition tablet_lookup_len (T : Tablet) (s : option string) (n : Z)
  : option ptr :=
  let g := Dagger.dagger_get (pool T) s (u32 n) in
  match Dagger.g_result g, Dagger.g_value g with
  | Dagger.DAGGER_OK, Some existing => Some existing
  | _, _ => None
  end.

Definition tablet_lookup (T : Tablet) (s : option string) : option ptr :=
  match s with
  | None => None
  | Some str => tablet_lookup_len T (Some str) (strlen str)
  end.

Definition tablet_contains (T : Tablet) (s : option string) : bool :=
  match tablet_lookup T s with Some _ => true | None => false end.

Definition tablet_count (T : option Tablet) : Z :=
  match T with Some T => count T | None => 0 end.
Definition tablet_memory (T : option Tablet) : Z :=
  match T with Some T => memory T | None => 0 end.

End Tablet.

(* ================================================================== *)
(** * C strings *)
(* ================================================================== *)

(** The [<string.h>]/[<stdlib.h>] functions the INI parser and the build
    orchestrator rely on, over NUL-free byte strings. *)
Module CStr.

Definition TAB : ascii := "009"%char.
Definition LF : ascii := "010"%char.
Definition VT : ascii := "011"%char.
Definition FF : ascii := "012"%char.
Definition CR : ascii := "013"%char.

Definition is_blank (c : ascii) : bool := Ascii.eqb c " " || Ascii.eqb c TAB.

Definition is_empty (s : string) : bool :=
  match s with EmptyString => true | _ => false end.

(** Advances past blanks (space and tab). *)
Fixpoint skip_ws (s : string) : string :=
  match s with
  | EmptyString => EmptyString
  | String c s' => if is_blank c then skip_ws s' else s
  end.

(** [trim_trailing]: strips trailing blanks, CR and LF. *)
Fixpoint trim_trailing (s : string) : string :=
  match s with
  | EmptyString => EmptyString
  | String c s' =>
      match trim_trailing s' with
      | EmptyString =>
          if is_blank c || Ascii.eqb c CR || Ascii.eqb c LF then EmptyString
          else String c EmptyString
      | t => String c t
      end
  end.

(** Strips trailing blanks only (the [key_end] / item-end loops). *)
Fixpoint trim_trailing_blank (s : string) : string :=
  match s with
  | EmptyString => EmptyString
  | String c s' =>
      match trim_trailing_blank s' with
      | EmptyString => if is_blank c then EmptyString else String c EmptyString
      | t => String c t
      end
  end.

(** [strchr(s, c) != NULL]. *)
Fixpoint strchr (c : ascii) (s : string) : bool :=
  match s with
  | EmptyString => false
  | String d s' => Ascii.eqb c d || strchr c s'
  end.

(** Offset of the first [c] in [s], as [strchr] returns it. *)
Fixpoint strchr_at (c : ascii) (s : string) : option nat :=
  match s with
  | EmptyString => None
  | String d s' =>
      if Ascii.eqb c d then Some O else option_map S (strchr_at c s')
  end.

(** Offset of the last [c] in [s], as [strrchr] returns it. *)
Fixpoint strrchr_at (c : ascii) (s : string) : option nat :=
  match s with
  | EmptyString => None
  | String d s' =>
      match strrchr_at c s' with
      | Some i => Some (S i)
      | None => if Ascii.eqb c d then Some O else None
      end
  end.

(** [strncmp(s, pre, strlen(pre)) == 0]. *)
Definition starts_with (pre s : string) : bool := String.prefix pre s.

(** Offset of the first occurrence of [pat] in [s], as [strstr] returns it. *)
Fixpoint strstr (pat s : string) : option nat :=
  if starts_with pat s then Some O
  else match s with
       | EmptyString => None
       | String _ s' => option_map S (strstr pat s')
       end.

(** [s + n] and the first [n] bytes of [s]. *)
Fixpoint drop (n : nat) (s : string) : string :=
  match n, s with
  | O, _ => s
  | S n', String _ s' => drop n' s'
  | S _, EmptyString => EmptyString
  end.
Definition take (n : nat) (s : string) : string := String.substring 0 n s.

(** The bytes before the first one satisfying [stop], and the rest. *)
Fixpoint span_until (stop : ascii -> bool) (s : string) : string * string :=
  match s with
  | EmptyString => (EmptyString, EmptyString)
  | String c s' =>
      if stop c then (EmptyString, s)
      else let '(a, b) := span_until stop s' in (String c a, b)
  end.

Definition to_lower (c : ascii) : ascii :=
  let n := nat_of_ascii c in
  if (Nat.leb 65 n && Nat.leb n 90)%bool then ascii_of_nat (n + 32) else c.

(** [strcasecmp(a, b) == 0]. *)
Fixpoint strcaseeq (a b : string) : bool :=
  match a, b with
  | EmptyString, EmptyString => true
  | String x a', String y b' => Ascii.eqb (to_lower x) (to_lower y) && strcaseeq a' b'
  | _, _ => false
  end.

Definition is_space (c : ascii) : bool :=
  is_blank c || Ascii.eqb c LF || Ascii.eqb c VT || Ascii.eqb c FF || Ascii.eqb c CR.

Definition digit_of (c : ascii) : option Z :=
  let n := nat_of_ascii c in
  if (Nat.leb 48 n && Nat.leb n 57)%bool then Some (Z.of_nat (n - 48)) else None.

Fixpoint skip_space (s : string) : string :=
  match s with
  | EmptyString => EmptyString
  | String c s' => if is_space c then skip_space s' else s
  end.

Fixpoint digits (s : string) (acc : Z) : Z :=
  match s with
  | EmptyString => acc
  | String c s' =>
      match digit_of c with
      | Some d => digits s' (acc * 10 + d)
      | None => acc
      end
  end.

(** [strtoll(s, NULL, 10)], saturating at the [long long] bounds. *)
Definition strtoll (s : string) : Z :=
  let s := skip_space s in
  let '(neg, s) :=
    match s with
    | String "-"%char s' => (true, s')
    | String "+"%char s' => (false, s')
    | _ => (false, s)
    end in
  let v := digits s 0 in
  let v := if neg then - v else v in
  Z.max (- 2 ^ 63) (Z.min (2 ^ 63 - 1) v).

(** [snprintf("%d")] of a non-negative or negative integer. *)
Fixpoint dec_digits (fuel : nat) (n : Z) (acc : string) : string :=
  match fuel with
  | O => acc
  | S fuel' =>
      let acc := String (ascii_of_nat (48 + Z.to_nat (n mod 10))) acc in
      if n / 10 =? 0 then acc else dec_digits fuel' (n / 10) acc
  end.
Definition itoa (n : Z) : string :=
  if n <? 0 then String "-"%char (dec_digits 20 (- n) EmptyString)
  else dec_digits 20 n EmptyString.

End CStr.

(** Sequencing for code whose result may be undefined. *)
Notation "' pat <- e ;; k" :=
  (match e with Some pat => k | None => None end)
  (at level 100, pat pattern, e at next level, right associativity).

(* ================================================================== *)
(** * ZORYA-INI: src/native/include/zorya_ini.h, src/native/ini/zorya_ini.c *)
(* ================================================================== *)

(** The parser runs against an environment: [getenv] and the files that
    [fopen]/[fread] can deliver.  A function of this module returns
    [None] where the C code has no defined result: an insertion loop of
    the underlying table that does not come back, or [strlen(NULL)] on
    an unset base path.  [strtod] is not computed; a float value keeps
    its text.  The lookup statistics that [dagger_get] accumulates inside
    the entries table are not tracked through the getters. *)
Module Ini.
Import CStr.

Definition INI_MAX_LINE_LENGTH : Z := 4096.
Definition INI_MAX_KEY_LENGTH : Z := 256.
Definition INI_MAX_SECTION_LENGTH : Z := 256.
Definition INI_MAX_INCLUDE_DEPTH : Z := 16.
Definition INI_INITIAL_CAPACITY : Z := 64.
Definition INTERP_MAX_DEPTH : Z := 32.
Definition INTERP_MAX_OUTPUT : Z := 65536.

Inductive zorya_ini_error_t :=
| ZORYA_INI_OK
| ZORYA_INI_ERROR_NULLPTR
| ZORYA_INI_ERROR_NOMEM
| ZORYA_INI_ERROR_IO
| ZORYA_INI_ERROR_SYNTAX
| ZORYA_INI_ERROR_NOT_FOUND
| ZORYA_INI_ERROR_TYPE
| ZORYA_INI_ERROR_CIRCULAR
| ZORYA_INI_ERROR_INCLUDE
| ZORYA_INI_ERROR_INTERP.

Inductive zorya_ini_type_t :=
| ZORYA_INI_TYPE_STRING
| ZORYA_INI_TYPE_INT
| ZORYA_INI_TYPE_FLOAT
| ZORYA_INI_TYPE_BOOL
| ZORYA_INI_TYPE_PATH
| ZORYA_INI_TYPE_URL
| ZORYA_INI_TYPE_DATE
| ZORYA_INI_TYPE_DATETIME
| ZORYA_INI_TYPE_ARRAY.

(** [ZoryaIniValue]: the tag, the union member in use and [is_array]
    are always set together, so one constructor stands for the three. *)
Inductive ZoryaIniValue :=
| VString (str : string)
| VInt (i : Z)
| VFloat (text : string)
| VBool (b : bool)
| VArray (items : list string).

Record IniEntry := mkIniEntry {
  section : option Arena.ptr;      (* interned, owned by the Tablet *)
  key : option Arena.ptr;
  raw_value : option Arena.ptr;
  resolved_value : option string;
  parsed : ZoryaIniValue;
  hint : zorya_ini_type_t;
  line : Z
}.

Record ZoryaIniParseError := mkParseError {
  pe_line : Z;
  pe_column : Z;
  pe_message : option string;
  pe_file : option string
}.

Record ZoryaIni := mkIni {
  entries : Dagger.DaggerTable IniEntry;
  strings : Tablet.Tablet;
  sections : list string;
  base_path : option string;
  include_depth : Z;
  last_error : ZoryaIniParseError;
  key_count : Z;
  include_count : Z
}.

Definition zorya_ini_new (malloc_ok : bool) : option ZoryaIni :=
  match Tablet.tablet_create malloc_ok with
  | None => None
  | Some T =>
      Some (mkIni (Dagger.dagger_create INI_INITIAL_CAPACITY None) T []
                  None 0 (mkParseError 0 0 None None) 0 0)
  end.

(** [weave_cstr] of an interned pointer held by an entry. *)
Definition interned_cstr (ini : ZoryaIni) (p : option Arena.ptr) : string :=
  Weave.weave_cstr (Tablet.deref (strings ini) p).

Definition entry_value (ini : ZoryaIni) (e : IniEntry) : string :=
  match resolved_value e with
  | Some r => r
  | None => interned_cstr ini (raw_value e)
  end.

Definition find_entry (ini : ZoryaIni) (k : string) : option IniEntry :=
  let g := Dagger.dagger_get (entries ini) (Some k) (u32 (zlen k)) in
  match Dagger.g_result g, Dagger.g_value g with
  | Dagger.DAGGER_OK, Some e => Some e
  | _, _ => None
  end.

Definition zorya_ini_get (ini : ZoryaIni) (k : option string) : option string :=
  match k with
  | None => None
  | Some k =>
      match find_entry ini k with
      | Some e => Some (entry_value ini e)
      | None => None
      end
  end.

Definition zorya_ini_has (ini : ZoryaIni) (k : option string) : bool :=
  match k with
  | None => false
  | Some k => match find_entry ini k with Some _ => true | None => false end
  end.

(** [zorya_ini_get_array]: the items when the entry is an array. *)
Definition zorya_ini_get_array (ini : ZoryaIni) (k : option string)
  : option (list string) :=
  match k with
  | None => None
  | Some k =>
      match find_entry ini k with
      | Some e => match parsed e with VArray items => Some items | _ => None end
      | None => None
      end
  end.

Definition zorya_ini_sections (ini : ZoryaIni) : list string := sections ini.

Definition zorya_ini_strerror (err : zorya_ini_error_t) : string :=
  match err with
  | ZORYA_INI_OK => "Success"
  | ZORYA_INI_ERROR_NULLPTR => "NULL pointer argument"
  | ZORYA_INI_ERROR_NOMEM => "Memory allocation failed"
  | ZORYA_INI_ERROR_IO => "File I/O error"
  | ZORYA_INI_ERROR_SYNTAX => "Syntax error"
  | ZORYA_INI_ERROR_NOT_FOUND => "Key not found"
  | ZORYA_INI_ERROR_TYPE => "Type conversion error"
  | ZORYA_INI_ERROR_CIRCULAR => "Circular reference detected"
  | ZORYA_INI_ERROR_INCLUDE => "Include file error"
  | ZORYA_INI_ERROR_INTERP => "Interpolation error"
  end.


Definition make_full_key (sec : option string) (k : string) : string :=
  match sec with
  | None => k
  | Some EmptyString => k
  | Some s => s +++ "." +++ k
  end.

Definition parse_type_hint (h : string) : zorya_ini_type_t :=
  if String.eqb h "int" then ZORYA_INI_TYPE_INT
  else if String.eqb h "float" then ZORYA_INI_TYPE_FLOAT
  else if String.eqb h "bool" then ZORYA_INI_TYPE_BOOL
  else if String.eqb h "path" then ZORYA_INI_TYPE_PATH
  else if String.eqb h "url" then ZORYA_INI_TYPE_URL
  else if String.eqb h "date" then ZORYA_INI_TYPE_DATE
  else if String.eqb h "datetime" then ZORYA_INI_TYPE_DATETIME
  else if String.eqb h "str" then ZORYA_INI_TYPE_STRING
  else
    let n := String.length h in
    if (Nat.ltb 2 n && String.eqb (drop (n - 2) h) "[]")%bool
    then ZORYA_INI_TYPE_ARRAY
    else ZORYA_INI_TYPE_STRING.

Definition parse_bool_value (s : string) : bool :=
  let s := skip_ws s in
  strcaseeq s "true" || strcaseeq s "yes" || strcaseeq s "on" || String.eqb s "1".

(** The item loop of [parse_array]: [cur] holds the bytes of the item
    being read, leading blanks already skipped. *)
Fixpoint parse_array_items (s : string) (cur : string) : list string :=
  let emit (rest : list string) :=
    match trim_trailing_blank cur with
    | EmptyString => rest
    | item => item :: rest
    end in
  match s with
  | EmptyString => emit []
  | String c s' =>
      if Ascii.eqb c "|" then emit (parse_array_items s' EmptyString)
      else if is_empty cur && is_blank c then parse_array_items s' cur
      else parse_array_items s' (cur +++ String c EmptyString)
  end.

Definition parse_array (v : string) : list string := parse_array_items v EmptyString.

Definition parse_value (h : zorya_ini_type_t) (text : string) : ZoryaIniValue :=
  match h with
  | ZORYA_INI_TYPE_INT => VInt (strtoll text)
  | ZORYA_INI_TYPE_FLOAT => VFloat text
  | ZORYA_INI_TYPE_BOOL => VBool (parse_bool_value text)
  | _ => VString text
  end.

(** ** Interpolation engine *)

Section Interp.
Variable getenv : string -> option string.

(** [find_variable]; [resolve_next str section] is
    [resolve_string(ini, str, section, depth + 1)]. *)
Definition find_variable
    (resolve_next : option string -> string -> option string)
    (ini : ZoryaIni) (var_name : option string) (current_section : string)
  : option string :=
  match var_name with
  | None => None
  | Some EmptyString => None
  | Some var_name =>
      let '(var_name, default_val) :=
        match strstr ":-" var_name with
        | Some i => (take i var_name, Some (drop (i + 2) var_name))
        | None => (var_name, None)
        end in
      let result :=
        if starts_with "env:" var_name then getenv (drop 4 var_name)
        else if starts_with "@" var_name then
          match strchr_at ":" (drop 1 var_name) with
          | Some j =>
              let sec := take j (drop 1 var_name) in
              let k := drop (j + 1) (drop 1 var_name) in
              match zorya_ini_get ini (Some (make_full_key (Some sec) k)) with
              | Some val => resolve_next (Some val) current_section
              | None => None
              end
          | None => None
          end
        else
          let try_current :=
            if negb (is_empty current_section) then
              zorya_ini_get ini (Some (make_full_key (Some current_section) var_name))
            else None in
          match try_current with
          | Some val => resolve_next (Some val) current_section
          | None =>
          match zorya_ini_get ini (Some var_name) with
          | Some val => resolve_next (Some val) current_section
          | None =>
          match zorya_ini_get ini (Some (make_full_key (Some "default") var_name)) with
          | Some val => resolve_next (Some val) "default"
          | None =>
          match zorya_ini_get ini (Some (make_full_key (Some "project") var_name)) with
          | Some val => resolve_next (Some val) "project"
          | None =>
          match zorya_ini_get ini (Some (make_full_key (Some "env") var_name)) with
          | Some val => resolve_next (Some val) "env"
          | None => None
          end end end end end in
      match result, default_val with
      | None, Some d => resolve_next (Some d) current_section
      | _, _ => result
      end
  end.

(** The closing-brace search of [resolve_string]: the bytes between
    [start] and the matching [}], when there is one. *)
Fixpoint find_close (s : string) (brace_depth : nat) : option string :=
  match s with
  | EmptyString => None
  | String c s' =>
      if Ascii.eqb c "{" then option_map (String c) (find_close s' (S brace_depth))
      else if Ascii.eqb c "}" then
        match brace_depth with
        | O | S O => Some EmptyString
        | S d => option_map (String c) (find_close s' d)
        end
      else option_map (String c) (find_close s' brace_depth)
  end.

(** [while (out_len + n + 1 > out_cap) { out_cap *= 2; ... }].  The
    capacity starts at 64 or more, so it passes [INTERP_MAX_OUTPUT]
    within 11 doublings; [None] is the [return NULL] of the loop. *)
Fixpoint grow_out (fuel : nat) (needed out_cap : Z) : option Z :=
  if out_cap <? needed then
    let out_cap := u64 (out_cap * 2) in
    if INTERP_MAX_OUTPUT <? out_cap then None
    else match fuel with
         | O => None
         | S fuel' => grow_out fuel' needed out_cap
         end
  else Some out_cap.

(** The character loop of [resolve_string].  [skip] counts the
    bytes of a reference already consumed ([p = end + 1]). *)
Fixpoint resolve_scan (find_var : string -> option string) (s : string)
    (skip : nat) (out : string) (out_cap : Z) : option string :=
  match s with
  | EmptyString => Some out
  | String c s' =>
      let regular :=
        let cap :=
          if out_cap <=? zlen out + 1 then
            let c2 := u64 (out_cap * 2) in
            if INTERP_MAX_OUTPUT <? c2 then None else Some c2
          else Some out_cap in
        match cap with
        | None => None
        | Some cap => resolve_scan find_var s' O (out +++ String c EmptyString) cap
        end in
      match skip with
      | S k => resolve_scan find_var s' k out out_cap
      | O =>
          if Ascii.eqb c "$" then
            match s' with
            | String "{"%char body =>
                match find_close body 1 with
                | Some var_name =>
                    let var_len := String.length var_name in
                    if starts_with "_" var_name then
                      match grow_out 17 (zlen out + (Z.of_nat var_len + 3) + 1) out_cap with
                      | None => None
                      | Some cap =>
                          resolve_scan find_var s' (var_len + 2)
                            (out +++ "${" +++ var_name +++ "}") cap
                      end
                    else
                      match find_var var_name with
                      | Some resolved =>
                          match grow_out 17 (zlen out + zlen resolved + 1) out_cap with
                          | None => None
                          | Some cap =>
                              resolve_scan find_var s' (var_len + 2)
                                (out +++ resolved) cap
                          end
                      | None => resolve_scan find_var s' (var_len + 2) out out_cap
                      end
                | None => regular
                end
            | _ => regular
            end
          else regular
      end
  end.

(** [resolve_string]; [budget] is [INTERP_MAX_DEPTH + 1 - depth], so
    [budget = 0] is the [depth > INTERP_MAX_DEPTH] exit. *)
Fixpoint resolve_string (budget : nat) (ini : ZoryaIni) (str : option string)
    (current_section : string) : option string :=
  match budget with
  | O => None
  | S b =>
      match str with
      | None => None
      | Some str =>
          if negb (strchr "$" str) then Some str
          else
            let out_cap := zlen str * 2 + 64 in
            let out_cap :=
              if INTERP_MAX_OUTPUT <? out_cap then INTERP_MAX_OUTPUT else out_cap in
            resolve_scan
              (fun v => find_variable (resolve_string b ini) ini (Some v)
                          current_section)
              str O EmptyString out_cap
      end
  end.

Definition depth_budget (depth : Z) : nat :=
  Z.to_nat (INTERP_MAX_DEPTH + 1 - depth).

(** The two functions at an explicit recursion depth, as the C code
    passes it. *)
Definition resolve_string_at (ini : ZoryaIni) (str : option string)
    (current_section : string) (depth : Z) : option string :=
  resolve_string (depth_budget depth) ini str current_section.

Definition find_variable_at (ini : ZoryaIni) (var_name : option string)
    (current_section : string) (depth : Z) : option string :=
  find_variable (fun s sec => resolve_string_at ini s sec (depth + 1))
                ini var_name current_section.

(** [resolve_entry_callback]: [inl e'] is the entry as the callback
    leaves it (return 0), [inr err] the error it reports (return 1). *)
Definition resolve_entry_callback (ini : ZoryaIni) (e : IniEntry)
  : IniEntry + zorya_ini_error_t :=
  match raw_value e with
  | None => inl e
  | Some _ =>
      let raw_str := interned_cstr ini (raw_value e) in
      if negb (strchr "$" raw_str) then inl e
      else
        match resolve_string_at ini (Some raw_str)
                (interned_cstr ini (section e)) 0 with
        | None => inr ZORYA_INI_ERROR_INTERP
        | Some resolved =>
            let is_arr := match parsed e with VArray _ => true | _ => false end in
            inl (mkIniEntry (section e) (key e) (raw_value e) (Some resolved)
                   (if is_arr || strchr "|" resolved
                    then VArray (parse_array resolved)
                    else parse_value (hint e) resolved)
                   (hint e) (line e))
        end
  end.

Definition with_entries (ini : ZoryaIni) (E : Dagger.DaggerTable IniEntry)
  : ZoryaIni :=
  mkIni E (strings ini) (sections ini) (base_path ini) (include_depth ini)
        (last_error ini) (key_count ini) (include_count ini).

(** [dagger_foreach(ini->entries, resolve_entry_callback, &ctx)]: the
    callback rewrites the entry a slot points to and reads the same
    table through [zorya_ini_get], so every step sees the entries
    resolved before it.  [n] slots are left, [i] is the next one. *)
Fixpoint resolve_all_loop (n : nat) (i : Z) (ini : ZoryaIni)
  : zorya_ini_error_t * ZoryaIni :=
  match n with
  | O => (ZORYA_INI_OK, ini)
  | S n' =>
      let slot := Dagger.slot_at (entries ini) i in
      if Dagger.occupied slot then
        match Dagger.value slot with
        | None => resolve_all_loop n' (i + 1) ini
        | Some e =>
            match resolve_entry_callback ini e with
            | inr err => (err, ini)
            | inl e' =>
                resolve_all_loop n' (i + 1)
                  (with_entries ini
                     (Dagger.slot_put (entries ini) i
                        (Dagger.with_kv slot (Dagger.key slot)
                           (Dagger.key_len slot) (Some e'))))
            end
        end
      else resolve_all_loop n' (i + 1) ini
  end.

Definition resolve_all_interpolations (ini : ZoryaIni)
  : zorya_ini_error_t * ZoryaIni :=
  resolve_all_loop (Z.to_nat (Dagger.capacity (entries ini))) 0 ini.

End Interp.

(** ** Parsing *)

Definition add_section (ini : ZoryaIni) (sec : string) : ZoryaIni :=
  if existsb (String.eqb sec) (sections ini) then ini
  else mkIni (entries ini) (strings ini) (sections ini ++ [sec]) (base_path ini)
             (include_depth ini) (last_error ini) (key_count ini)
             (include_count ini).

Definition add_entry (ini : ZoryaIni) (sec : option string) (k value : string)
    (h : zorya_ini_type_t) (ln : Z) : option (zorya_ini_error_t * ZoryaIni) :=
  let full_key := make_full_key sec k in
  ' (sp, T) <- Tablet.tablet_intern (strings ini)
                 (Some (match sec with Some s => s | None => EmptyString end)) true ;;
  ' (kp, T) <- Tablet.tablet_intern T (Some k) true ;;
  ' (vp, T) <- Tablet.tablet_intern T (Some value) true ;;
  let p :=
    if strchr "|" value then VArray (parse_array value)
    else match h with
         | ZORYA_INI_TYPE_INT | ZORYA_INI_TYPE_FLOAT | ZORYA_INI_TYPE_BOOL =>
             parse_value h value
         | _ => VString (Weave.weave_cstr (Tablet.deref T vp))
         end in
  let e := mkIniEntry sp kp vp None p h ln in
  ' (r, E) <- Dagger.dagger_set (entries ini) (Some full_key)
                (u32 (zlen full_key)) (Some e) true ;;
  let ini := mkIni E T (sections ini) (base_path ini) (include_depth ini)
                   (last_error ini) (key_count ini) (include_count ini) in
  match r with
  | Dagger.DAGGER_OK =>
      Some (ZORYA_INI_OK,
            mkIni (entries ini) (strings ini) (sections ini) (base_path ini)
                  (include_depth ini) (last_error ini) (u64 (key_count ini + 1))
                  (include_count ini))
  | _ => Some (ZORYA_INI_ERROR_NOMEM, ini)
  end.

Definition get_directory (path : option string) : string :=
  match path with
  | None => "."
  | Some path =>
      match strrchr_at "/" path with
      | None => "."
      | Some O => "/"
      | Some n => take n path
      end
  end.

(** [join_path]; [None] is [strlen] applied to a NULL base. *)
Definition join_path (base : option string) (file : string) : option string :=
  if starts_with "/" file then Some file
  else match base with
       | None => None
       | Some b => Some (b +++ "/" +++ file)
       end.

(** The line reader of [parse_buffer]: a line ends at LF (consumed) or
    after [INI_MAX_LINE_LENGTH - 1] bytes; [cur] is the line being read,
    [n] its length.  A line is read whenever input is left. *)
Fixpoint read_lines (s : string) (cur : string) (n : nat) : list string :=
  match s with
  | EmptyString => match n with O => [] | _ => [cur] end
  | String c s' =>
      if Ascii.eqb c LF then cur :: read_lines s' EmptyString O
      else
        let cur := cur +++ String c EmptyString in
        if Nat.eqb (S n) (Z.to_nat (INI_MAX_LINE_LENGTH - 1)) then
          match s' with
          | String d s'' =>
              if Ascii.eqb d LF then cur :: read_lines s'' EmptyString O
              else cur :: read_lines s' EmptyString O
          | EmptyString => [cur]
          end
        else read_lines s' cur (S n)
  end.

(** [if (line_len > 0 && line_buf[line_len - 1] == '\r') ...]. *)
Fixpoint strip_cr (s : string) : string :=
  match s with
  | EmptyString => EmptyString
  | String c EmptyString => if Ascii.eqb c CR then EmptyString else s
  | String c s' => String c (strip_cr s')
  end.

(** The local variables of one [parse_buffer] activation. *)
Record pstate := mkPstate {
  ps_ini : ZoryaIni;
  current_section : string;
  in_multiline : bool;
  pending_key : string;
  pending_hint : zorya_ini_type_t;
  value_buf : string;
  line_num : Z;
  value_start_line : Z
}.

Definition with_ini (st : pstate) (ini : ZoryaIni) : pstate :=
  mkPstate ini (current_section st) (in_multiline st) (pending_key st)
           (pending_hint st) (value_buf st) (line_num st) (value_start_line st).

(** What one iteration of the line loop does: go on ([continue] or
    falling off the loop body) or leave [parse_buffer] with a code. *)
Inductive step :=
| Next (st : pstate)
| Return (err : zorya_ini_error_t) (ini : ZoryaIni).

Section Parser.
Variable getenv : string -> option string.
(** [fopen(path, "rb")] and the bytes [fread] delivers; [None] when the
    file cannot be opened. *)
Variable read_file : string -> option string.

(** The [::] directive branch. [parse_inc ini data] is the recursive
    [parse_buffer] call on the included file. *)
Definition parse_directive
    (parse_inc : option (ZoryaIni -> string -> option (zorya_ini_error_t * ZoryaIni)))
    (st : pstate) (lp : string) : option step :=
  if starts_with "include" lp then
    let lp := drop 7 lp in
    let optional := starts_with "?" lp in
    let lp := if optional then drop 1 lp else lp in
    let lp := trim_trailing (skip_ws lp) in
    let ini := ps_ini st in
    ' inc_path <- join_path (base_path ini) lp ;;
    if INI_MAX_INCLUDE_DEPTH <=? include_depth ini then
      Some (Return ZORYA_INI_ERROR_CIRCULAR ini)
    else
      match read_file inc_path with
      | None =>
          if optional then Some (Next st)
          else Some (Return ZORYA_INI_ERROR_INCLUDE ini)
      | Some inc_data =>
          let old_base := base_path ini in
          let ini1 := mkIni (entries ini) (strings ini) (sections ini)
                        (Some (get_directory (Some inc_path)))
                        (include_depth ini + 1) (last_error ini) (key_count ini)
                        (u64 (include_count ini + 1)) in
          ' recurse <- parse_inc ;;
          ' (inc_err, ini2) <- recurse ini1 inc_data ;;
          let ini3 := mkIni (entries ini2) (strings ini2) (sections ini2)
                        old_base (include_depth ini2 - 1) (last_error ini2)
                        (key_count ini2) (include_count ini2) in
          match inc_err with
          | ZORYA_INI_OK => Some (Next (with_ini st ini3))
          | _ => Some (Return inc_err ini3)
          end
      end
  else Some (Next st).

(** The [key = value] branch, [lp] at the first byte of the key. *)
Definition parse_key_value (st : pstate) (lp : string) : option step :=
  let '(key_part, rest) :=
    span_until (fun c => Ascii.eqb c "=" || Ascii.eqb c ":") lp in
  if is_empty rest then Some (Next st)                       (* invalid line *)
  else
    let k := trim_trailing_blank key_part in
    if is_empty k || (INI_MAX_KEY_LENGTH <=? zlen k) then Some (Next st)
    else
      let '(h, rest) :=
        if starts_with ":" rest then
          let '(hint_str, r) :=
            span_until (fun c => Ascii.eqb c "=" || is_blank c) (drop 1 rest) in
          let h := if negb (is_empty hint_str) && (zlen hint_str <? 32)
                   then parse_type_hint hint_str else ZORYA_INI_TYPE_STRING in
          (h, snd (span_until (fun c => Ascii.eqb c "=") r))
        else (ZORYA_INI_TYPE_STRING, rest) in
      if negb (starts_with "=" rest) then Some (Next st)     (* invalid line *)
      else
        let v := skip_ws (drop 1 rest) in
        if is_empty v then
          Some (Next (mkPstate (ps_ini st) (current_section st) true k h
                        EmptyString (line_num st) (line_num st)))
        else
          ' (_, ini) <- add_entry (ps_ini st) (Some (current_section st)) k
                          (trim_trailing v) h (line_num st) ;;
          Some (Next (with_ini st ini)).

(** One iteration of the [while (p < end)] loop on the line just read. *)
Definition parse_line
    (parse_inc : option (ZoryaIni -> string -> option (zorya_ini_error_t * ZoryaIni)))
    (st : pstate) (raw : string) : option step :=
  let line_buf := c_str (strip_cr raw) in
  let st := mkPstate (ps_ini st) (current_section st) (in_multiline st)
              (pending_key st) (pending_hint st) (value_buf st)
              (line_num st + 1) (value_start_line st) in
  if in_multiline st && (starts_with " " line_buf || starts_with (String TAB EmptyString) line_buf) then
    let content := skip_ws line_buf in
    let val_len := zlen (value_buf st) in
    let buf :=
      if val_len + zlen content + 2 <? INI_MAX_LINE_LENGTH * 4 then
        (if 0 <? val_len then value_buf st +++ String LF EmptyString
         else value_buf st) +++ content
      else value_buf st in
    Some (Next (mkPstate (ps_ini st) (current_section st) true (pending_key st)
                  (pending_hint st) buf (line_num st) (value_start_line st)))
  else
    ' st <- (if in_multiline st then
               ' (_, ini) <- add_entry (ps_ini st) (Some (current_section st))
                               (pending_key st) (value_buf st) (pending_hint st)
                               (value_start_line st) ;;
               Some (mkPstate ini (current_section st) false EmptyString
                       (pending_hint st) EmptyString (line_num st)
                       (value_start_line st))
             else Some st) ;;
    let lp := skip_ws line_buf in
    if is_empty lp then Some (Next st)
    else if starts_with "#" lp || starts_with ";" lp then Some (Next st)
    else if starts_with "::" lp then parse_directive parse_inc st (drop 2 lp)
    else if starts_with "[" lp then
      let sec := fst (span_until (fun c => Ascii.eqb c "]") (drop 1 lp)) in
      if negb (is_empty sec) && (zlen sec <? INI_MAX_SECTION_LENGTH) then
        Some (Next (mkPstate (add_section (ps_ini st) sec) sec (in_multiline st)
                      (pending_key st) (pending_hint st) (value_buf st)
                      (line_num st) (value_start_line st)))
      else Some (Next st)
    else parse_key_value st lp.

(** The line loop. *)
Fixpoint parse_lines
    (parse_inc : option (ZoryaIni -> string -> option (zorya_ini_error_t * ZoryaIni)))
    (st : pstate) (lines : list string) : option step :=
  match lines with
  | [] => Some (Next st)
  | l :: rest =>
      ' s <- parse_line parse_inc st l ;;
      match s with
      | Next st' => parse_lines parse_inc st' rest
      | Return err ini => Some (Return err ini)
      end
  end.

(** [parse_buffer(ini, data, len, filepath)]; [nesting] bounds the
    include recursion the way [include_depth] does: a nested call is made
    only while [include_depth < INI_MAX_INCLUDE_DEPTH]. *)
Fixpoint parse_buffer (nesting : nat) (ini : ZoryaIni) (data : string) (len : Z)
  : option (zorya_ini_error_t * ZoryaIni) :=
  let parse_inc :=
    match nesting with
    | O => None
    | S n => Some (fun ini' d => parse_buffer n ini' d (zlen d))
    end in
  let st0 := mkPstate ini EmptyString false EmptyString ZORYA_INI_TYPE_STRING
               EmptyString 0 0 in
  ' s <- parse_lines parse_inc st0 (read_lines (Weave.take_bytes data len) EmptyString O) ;;
  match s with
  | Return err ini => Some (err, ini)
  | Next st =>
      ' ini <- (if in_multiline st && negb (is_empty (pending_key st)) then
                  ' (_, ini) <- add_entry (ps_ini st) (Some (current_section st))
                                  (pending_key st) (value_buf st)
                                  (pending_hint st) (value_start_line st) ;;
                  Some ini
                else Some (ps_ini st)) ;;
      if include_depth ini =? 0 then
        Some (resolve_all_interpolations getenv ini)
      else Some (ZORYA_INI_OK, ini)
  end.

Definition zorya_ini_load_buffer (ini : option ZoryaIni) (data : option string)
    (len : Z) : option (zorya_ini_error_t * option ZoryaIni) :=
  match ini, data with
  | Some ini, Some data =>
      ' (err, ini) <- parse_buffer 17 ini data len ;;
      Some (err, Some ini)
  | _, _ => Some (ZORYA_INI_ERROR_NULLPTR, ini)
  end.

Definition zorya_ini_load (ini : option ZoryaIni) (filepath : option string)
  : option (zorya_ini_error_t * option ZoryaIni) :=
  match ini, filepath with
  | Some ini, Some path =>
      let ini := mkIni (entries ini) (strings ini) (sections ini)
                   (Some (get_directory (Some path))) (include_depth ini)
                   (last_error ini) (key_count ini) (include_count ini) in
      match read_file path with
      | None => Some (ZORYA_INI_ERROR_IO, Some ini)
      | Some data =>
          if 100 * 1024 * 1024 <? zlen data then Some (ZORYA_INI_ERROR_IO, Some ini)
          else if zlen data =? 0 then Some (ZORYA_INI_OK, Some ini)
          else
            ' (err, ini) <- parse_buffer 17 ini data (zlen data) ;;
            Some (err, Some ini)
      end
  | _, _ => Some (ZORYA_INI_ERROR_NULLPTR, ini)
  end.

End Parser.

End Ini.

(* ================================================================== *)
(** * ORDINAL: src/native/include/ordinal.h, src/native/ordinal/ordinal.c *)
(* ================================================================== *)

(** The orchestrator acts on the operating system: [stat], [glob],
    [system], [chdir] and [getcwd] are operations of an abstract [World].
    Elapsed times ([build_time_ms], [total_time_ms]) and what [printf]
    writes are not modelled.  The commands handed to [system] are
    recorded in order, as are the calls of the progress callback when one
    is registered. *)
Module Ordinal.
Import CStr.

Definition ORD_MAX_DEPS : nat := 128.
Definition ORD_MAX_RECURSION : Z := 32.

Inductive ordinal_error_t :=
| ORDINAL_OK
| ORDINAL_ERROR_NULLPTR
| ORDINAL_ERROR_NOMEM
| ORDINAL_ERROR_IO
| ORDINAL_ERROR_SYNTAX
| ORDINAL_ERROR_NO_TARGET
| ORDINAL_ERROR_CIRCULAR
| ORDINAL_ERROR_COMMAND
| ORDINAL_ERROR_DEP
| ORDINAL_ERROR_GLOB.

Inductive ordinal_status_t :=
| ORDINAL_STATUS_PENDING
| ORDINAL_STATUS_BUILDING
| ORDINAL_STATUS_UP_TO_DATE
| ORDINAL_STATUS_REBUILT
| ORDINAL_STATUS_FAILED
| ORDINAL_STATUS_SKIPPED.

Definition is_ok (e : ordinal_error_t) : bool :=
  match e with ORDINAL_OK => true | _ => false end.
Definition is_rebuilt (s : ordinal_status_t) : bool :=
  match s with ORDINAL_STATUS_REBUILT => true | _ => false end.

Record OrdinalConfig := mkConfig {
  jobs : Z;
  verbose : bool;
  dry_run : bool;
  keep_going : bool;
  silent : bool;
  force : bool;
  debug : bool;
  directory : option string
}.

Definition ORDINAL_CONFIG_DEFAULT : OrdinalConfig :=
  mkConfig 1 false false false false false false None.

Record OrdinalResult := mkResult {
  targets_total : Z;
  targets_rebuilt : Z;
  targets_up_to_date : Z;
  targets_failed : Z;
  targets_skipped : Z;
  success : bool
}.

Record OrdinalTargetInternal := mkTarget {
  name : string;
  section : string;
  deps : list string;
  resolved_deps : list string;
  command : option string;
  resolved_command : option string;
  target_file : option string;
  status : ordinal_status_t;
  is_phony : bool;
  visited : bool;
  in_stack : bool
}.

Record Ordinal := mkOrdinal {
  ini : Ini.ZoryaIni;
  config : OrdinalConfig;
  targets : list OrdinalTargetInternal;
  target_map : Dagger.DaggerTable Z;      (* name -> index + 1 *)
  strings : Tablet.Tablet;
  sec_project : option Arena.ptr;
  sec_env : option Arena.ptr;
  default_target : option string;
  project_name : option string;
  project_version : option string;
  ordinal_dir : option string;
  cwd : option string;
  var_platform : option string;
  var_arch : option string;
  var_nproc : Z;
  progress_registered : bool;
  result : OrdinalResult;
  error_msg : string
}.

Definition target_count (o : Ordinal) : Z := Z.of_nat (List.length (targets o)).

Definition set_targets (o : Ordinal) (ts : list OrdinalTargetInternal) : Ordinal :=
  mkOrdinal (ini o) (config o) ts (target_map o) (strings o) (sec_project o)
            (sec_env o) (default_target o) (project_name o) (project_version o)
            (ordinal_dir o) (cwd o) (var_platform o) (var_arch o) (var_nproc o)
            (progress_registered o) (result o) (error_msg o).
Definition set_result (o : Ordinal) (r : OrdinalResult) : Ordinal :=
  mkOrdinal (ini o) (config o) (targets o) (target_map o) (strings o)
            (sec_project o) (sec_env o) (default_target o) (project_name o)
            (project_version o) (ordinal_dir o) (cwd o) (var_platform o)
            (var_arch o) (var_nproc o) (progress_registered o) r (error_msg o).
(** [snprintf(ord->error_msg, sizeof(ord->error_msg), ...)]. *)
Definition set_error_msg (o : Ordinal) (m : string) : Ordinal :=
  mkOrdinal (ini o) (config o) (targets o) (target_map o) (strings o)
            (sec_project o) (sec_env o) (default_target o) (project_name o)
            (project_version o) (ordinal_dir o) (cwd o) (var_platform o)
            (var_arch o) (var_nproc o) (progress_registered o) (result o)
            (take 1023 m).
Definition set_config (o : Ordinal) (c : OrdinalConfig) : Ordinal :=
  mkOrdinal (ini o) c (targets o) (target_map o) (strings o)
            (sec_project o) (sec_env o) (default_target o) (project_name o)
            (project_version o) (ordinal_dir o) (cwd o) (var_platform o)
            (var_arch o) (var_nproc o) (progress_registered o) (result o)
            (error_msg o).

Definition dummy_target : OrdinalTargetInternal :=
  mkTarget EmptyString EmptyString [] [] None None None ORDINAL_STATUS_PENDING
           false false false.

Definition target_at (o : Ordinal) (i : Z) : OrdinalTargetInternal :=
  nth (Z.to_nat i) (targets o) dummy_target.
Definition put_target (o : Ordinal) (i : Z) (t : OrdinalTargetInternal) : Ordinal :=
  set_targets o (list_set (targets o) (Z.to_nat i) t).

Definition with_status (t : OrdinalTargetInternal) (s : ordinal_status_t)
    (vis stk : bool) : OrdinalTargetInternal :=
  mkTarget (name t) (section t) (deps t) (resolved_deps t) (command t)
           (resolved_command t) (target_file t) s (is_phony t) vis stk.

(** [void *idx = NULL; dagger_get(ord->target_map, name, strlen, &idx)]:
    the stored [index + 1], [None] when [idx] stays NULL. *)
Definition lookup_target (o : Ordinal) (n : string) : option Z :=
  match Dagger.g_value (Dagger.dagger_get (target_map o) (Some n) (u32 (zlen n))) with
  | Some v => if v =? 0 then None else Some v
  | None => None
  end.

Definition ordinal_configure (o : Ordinal) (c : option OrdinalConfig) : Ordinal :=
  let o := match c with Some c => set_config o c | None => o end in
  if jobs (config o) <=? 0 then
    set_config o (mkConfig (var_nproc o) (verbose (config o)) (dry_run (config o))
                    (keep_going (config o)) (silent (config o)) (force (config o))
                    (debug (config o)) (directory (config o)))
  else o.

(** The [REPLACE_VAR] macro: every occurrence of [pat], left to right. *)
Fixpoint replace_all (pat value s : string) (skip : nat) : string :=
  match s with
  | EmptyString => EmptyString
  | String c s' =>
      match skip with
      | S k => replace_all pat value s' k
      | O =>
          if starts_with pat s then
            value +++ replace_all pat value s' (String.length pat - 1)
          else String c (replace_all pat value s' O)
      end
  end.

Definition REPLACE_VAR (pat : string) (value : option string) (s : string) : string :=
  match value with
  | Some v => replace_all pat v s O
  | None => s
  end.

Definition resolve_runtime_vars (o : Ordinal) (str : option string)
    (target : option OrdinalTargetInternal) : option string :=
  match str with
  | None => None
  | Some str =>
      if negb (strchr "$" str) then Some str
      else
        let r := str in
        let r :=
          match target with
          | None => r
          | Some t =>
              let target_val :=
                match target_file t with Some f => f | None => name t end in
              let r := REPLACE_VAR "${_target}" (Some target_val) r in
              match resolved_deps t with
              | [] => r
              | d0 :: _ =>
                  let r := REPLACE_VAR "${_first_dep}" (Some d0) r in
                  REPLACE_VAR "${_all_deps}"
                    (Some (String.concat " " (resolved_deps t))) r
              end
          end in
        let r := REPLACE_VAR "${_platform}" (var_platform o) r in
        let r := REPLACE_VAR "${_arch}" (var_arch o) r in
        let r := REPLACE_VAR "${_nproc}" (Some (itoa (var_nproc o))) r in
        let r := REPLACE_VAR "${_cwd}"
                   (Some (match cwd o with Some c => c | None => "." end)) r in
        let r := REPLACE_VAR "${_ordinal_dir}"
                   (Some (match ordinal_dir o with Some d => d | None => "." end)) r in
        Some r
  end.

(** What [glob(pattern, GLOB_NOSORT | GLOB_NOCHECK, ...)] reports. *)
Inductive glob_result :=
| GlobOk (paths : list string)
| GlobNoMatch
| GlobAbort.

Definition expand_glob_with (g : glob_result) (pattern : string) : string :=
  match g with
  | GlobAbort => pattern
  | GlobNoMatch => EmptyString
  | GlobOk [] => EmptyString
  | GlobOk paths => String.concat " " paths
  end.

(** Splitting the expansion at spaces. *)
Fixpoint split_spaces (s : string) (cur : string) : list string :=
  let emit (rest : list string) :=
    if is_empty cur then rest else cur :: rest in
  match s with
  | EmptyString => emit []
  | String c s' =>
      if Ascii.eqb c " " then emit (split_spaces s' EmptyString)
      else split_spaces s' (cur +++ String c EmptyString)
  end.

Section World.
Variable World : Type.
(** [stat(path, &st)]: [st.st_mtime] when it succeeds. *)
Variable stat_mtime : World -> string -> option Z.
Variable glob : World -> string -> glob_result.
(** [system(command)]: the status it returns and the world it leaves. *)
Variable system : World -> string -> Z * World.
Variable chdir : World -> string -> option World.
Variable getcwd : World -> option string.

Definition get_mtime (w : World) (path : string) : Z :=
  match stat_mtime w path with
  | Some t => t
  | None => 0
  end.

Definition expand_glob (w : World) (pattern : string) : string :=
  expand_glob_with (glob w pattern) pattern.

(** The loop of [resolve_target_deps] over the raw dependencies. *)
Fixpoint resolve_deps_loop (w : World) (o : Ordinal) (t : OrdinalTargetInternal)
    (raw : list string) (resolved : list string) : list string :=
  match raw with
  | [] => resolved
  | d :: rest =>
      if Nat.leb ORD_MAX_DEPS (List.length resolved) then resolved
      else
        match resolve_runtime_vars o (Some d) (Some t) with
        | None => resolve_deps_loop w o t rest resolved
        | Some dep =>
            if strchr "*" dep || strchr "?" dep then
              let found := split_spaces (expand_glob w dep) EmptyString in
              resolve_deps_loop w o t rest
                (firstn ORD_MAX_DEPS (resolved ++ found))
            else resolve_deps_loop w o t rest (resolved ++ [dep])
        end
  end.

Definition with_resolved_deps (t : OrdinalTargetInternal) (ds : list string)
  : OrdinalTargetInternal :=
  mkTarget (name t) (section t) (deps t) ds (command t) (resolved_command t)
           (target_file t) (status t) (is_phony t) (visited t) (in_stack t).

Definition resolve_target_deps (w : World) (o : Ordinal) (t : OrdinalTargetInternal)
  : OrdinalTargetInternal :=
  match deps t with
  | [] => t
  | _ =>
      let t0 := with_resolved_deps t [] in
      with_resolved_deps t (resolve_deps_loop w o t0 (deps t) [])
  end.

Definition resolve_command (o : Ordinal) (t : OrdinalTargetInternal)
  : OrdinalTargetInternal :=
  match command t with
  | None => t
  | Some _ =>
      let tf :=
        match target_file t with
        | Some f => resolve_runtime_vars o (Some f) (Some t)
        | None => None
        end in
      let t := mkTarget (name t) (section t) (deps t) (resolved_deps t)
                 (command t) (resolved_command t) tf (status t) (is_phony t)
                 (visited t) (in_stack t) in
      mkTarget (name t) (section t) (deps t) (resolved_deps t) (command t)
               (resolve_runtime_vars o (command t) (Some t)) (target_file t)
               (status t) (is_phony t) (visited t) (in_stack t)
  end.

(** The dependency loop of [needs_rebuild]. *)
Fixpoint newer_dep (w : World) (o : Ordinal) (target_mtime : Z)
    (ds : list string) : bool :=
  match ds with
  | [] => false
  | dep :: rest =>
      match lookup_target o dep with
      | Some idx =>
          let target_idx := u64 (idx - 1) in
          if (target_idx <? target_count o)
             && is_rebuilt (status (target_at o target_idx))
          then true
          else newer_dep w o target_mtime rest
      | None =>
          if target_mtime <? get_mtime w dep then true
          else newer_dep w o target_mtime rest
      end
  end.

Definition needs_rebuild (w : World) (o : Ordinal) (t : OrdinalTargetInternal)
  : bool :=
  if force (config o) then true
  else if is_phony t then true
  else match target_file t with
       | None => true
       | Some f =>
           let target_mtime := get_mtime w f in
           if target_mtime =? 0 then true
           else newer_dep w o target_mtime (resolved_deps t)
       end.

(** ** Building *)

(** A call of the progress callback. *)
Definition progress_event : Type := string * ordinal_status_t * option string.

Record RunState := mkRun {
  world : World;
  ord : Ordinal;
  executed : list string;           (* commands given to [system], in order *)
  progress : list progress_event
}.

Definition with_ord (st : RunState) (o : Ordinal) : RunState :=
  mkRun (world st) o (executed st) (progress st).

Definition notify (st : RunState) (n : string) (s : ordinal_status_t)
    (msg : option string) : RunState :=
  if progress_registered (ord st) then
    mkRun (world st) (ord st) (executed st) (progress st ++ [(n, s, msg)])
  else st.

(** [WEXITSTATUS(ret)]. *)
Definition WEXITSTATUS (ret : Z) : Z := Z.land (Z.shiftr ret 8) 255.

(** [execute_command] on target [idx]. *)
Definition execute_command (st : RunState) (idx : Z)
  : ordinal_error_t * RunState :=
  let t := target_at (ord st) idx in
  match resolved_command t with
  | None => (ORDINAL_OK, st)
  | Some EmptyString => (ORDINAL_OK, st)
  | Some cmd =>
      if dry_run (config (ord st)) then
        (ORDINAL_OK,
         with_ord st (put_target (ord st) idx
                        (with_status t ORDINAL_STATUS_SKIPPED (visited t) (in_stack t))))
      else
        let '(ret, w) := system (world st) cmd in
        let st := mkRun w (ord st) (executed st ++ [cmd]) (progress st) in
        if negb (ret =? 0) then
          let o := set_error_msg (ord st)
                     ("Command failed with exit code " +++ itoa (WEXITSTATUS ret)
                      +++ ": " +++ cmd) in
          (ORDINAL_ERROR_COMMAND,
           with_ord st (put_target o idx
                          (with_status t ORDINAL_STATUS_FAILED (visited t) (in_stack t))))
        else
          (ORDINAL_OK,
           with_ord st (put_target (ord st) idx
                          (with_status t ORDINAL_STATUS_REBUILT (visited t) (in_stack t))))
  end.

Definition bump_result (r : OrdinalResult) (total rebuilt utd failed skipped : Z)
  : OrdinalResult :=
  mkResult (u64 (targets_total r + total)) (u64 (targets_rebuilt r + rebuilt))
           (u64 (targets_up_to_date r + utd)) (u64 (targets_failed r + failed))
           (u64 (targets_skipped r + skipped)) (success r).

(** [build_target(ord, name, depth)]; [budget] is
    [ORD_MAX_RECURSION + 1 - depth], so [budget = 0] is the
    [depth > ORD_MAX_RECURSION] exit. *)
Fixpoint build_target (budget : nat) (st : RunState) (n : string)
  : ordinal_error_t * RunState :=
  match budget with
  | O =>
      (ORDINAL_ERROR_CIRCULAR,
       with_ord st (set_error_msg (ord st)
                      "Maximum recursion depth exceeded (circular dependency?)"))
  | S budget' =>
      match lookup_target (ord st) n with
      | None => (ORDINAL_OK, st)
      | Some idx_ptr =>
          let target_idx := u64 (idx_ptr - 1) in
          if target_count (ord st) <=? target_idx then (ORDINAL_ERROR_NO_TARGET, st)
          else
            let target := target_at (ord st) target_idx in
            if in_stack target then
              (ORDINAL_ERROR_CIRCULAR,
               with_ord st (set_error_msg (ord st)
                              ("Circular dependency detected: " +++ n)))
            else if visited target then (ORDINAL_OK, st)
            else
              let target := with_status target (status target) (visited target) true in
              let st := with_ord st (put_target (ord st) target_idx target) in
              let st := notify st n ORDINAL_STATUS_PENDING None in
              let target := resolve_target_deps (world st) (ord st) target in
              let st := with_ord st (put_target (ord st) target_idx target) in
              (* build dependencies first *)
              let fix build_deps (ds : list string) (st : RunState)
                : option ordinal_error_t * RunState :=
                match ds with
                | [] => (None, st)
                | dep :: rest =>
                    match lookup_target (ord st) dep with
                    | Some _ =>
                        let '(err, st) := build_target budget' st dep in
                        if negb (is_ok err) && negb (keep_going (config (ord st)))
                        then (Some err, st)
                        else build_deps rest st
                    | None => build_deps rest st
                    end
                end in
              match build_deps (resolved_deps target) st with
              | (Some err, st) =>
                  let t := target_at (ord st) target_idx in
                  (err,
                   with_ord st (put_target (ord st) target_idx
                                  (with_status t ORDINAL_STATUS_FAILED (visited t) false)))
              | (None, st) =>
                  let t := resolve_command (ord st) (target_at (ord st) target_idx) in
                  let st := with_ord st (put_target (ord st) target_idx t) in
                  if negb (needs_rebuild (world st) (ord st) t) then
                    let o := put_target (ord st) target_idx
                               (with_status t ORDINAL_STATUS_UP_TO_DATE true false) in
                    let o := set_result o (bump_result (result o) 0 0 1 0 0) in
                    (ORDINAL_OK,
                     notify (with_ord st o) n ORDINAL_STATUS_UP_TO_DATE
                            (Some "up to date"))
                  else
                    let st := notify st n ORDINAL_STATUS_BUILDING None in
                    let '(err, st) := execute_command st target_idx in
                    let t := target_at (ord st) target_idx in
                    let o := put_target (ord st) target_idx
                               (with_status t (status t) true false) in
                    let o := set_result o (bump_result (result o) 1 0 0 0 0) in
                    let st := with_ord st o in
                    if negb (is_ok err) then
                      let o := set_result o (bump_result (result o) 0 0 0 1 0) in
                      (err, notify (with_ord st o) n ORDINAL_STATUS_FAILED
                                   (Some (error_msg o)))
                    else
                      let o :=
                        match status t with
                        | ORDINAL_STATUS_REBUILT =>
                            set_result o (bump_result (result o) 0 1 0 0 0)
                        | ORDINAL_STATUS_SKIPPED =>
                            set_result o (bump_result (result o) 0 0 0 0 1)
                        | _ => o
                        end in
                      (ORDINAL_OK, notify (with_ord st o) n (status t) None)
              end
      end
  end.

Definition reset_target (t : OrdinalTargetInternal) : OrdinalTargetInternal :=
  with_status t ORDINAL_STATUS_PENDING false false.

(** [ordinal_run(ord, target)]. *)
Definition ordinal_run (st : RunState) (target : option string)
  : ordinal_error_t * RunState :=
  let o := ord st in
  let target_name :=
    match target with
    | Some t => Some t
    | None =>
        match default_target o with
        | Some d => Some d
        | None =>
            match targets o with
            | t0 :: _ => Some (name t0)
            | [] => None
            end
        end
    end in
  match target_name with
  | None =>
      (ORDINAL_ERROR_NO_TARGET,
       with_ord st (set_error_msg o "No target specified and no default target"))
  | Some target_name =>
      match lookup_target o target_name with
      | None =>
          (ORDINAL_ERROR_NO_TARGET,
           with_ord st (set_error_msg o ("Target not found: " +++ target_name)))
      | Some _ =>
          let o := set_result o (mkResult 0 0 0 0 0 false) in
          let o := set_targets o (map reset_target (targets o)) in
          let st := with_ord st o in
          let enter :=
            match directory (config o) with
            | None => Some (None, st)
            | Some dir =>
                let old_cwd := getcwd (world st) in
                match chdir (world st) dir with
                | None => None
                | Some w => Some (old_cwd, mkRun w (ord st) (executed st) (progress st))
                end
            end in
          match enter with
          | None =>
              (ORDINAL_ERROR_IO,
               with_ord st (set_error_msg o
                              ("Failed to change to directory: " +++
                               match directory (config o) with
                               | Some d => d
                               | None => EmptyString
                               end)))
          | Some (old_cwd, st) =>
              let '(err, st) :=
                build_target (Z.to_nat (ORD_MAX_RECURSION + 1)) st target_name in
              let st :=
                match old_cwd with
                | Some d =>
                    match chdir (world st) d with
                    | Some w => mkRun w (ord st) (executed st) (progress st)
                    | None => st
                    end
                | None => st
                end in
              let r := result (ord st) in
              (err,
               with_ord st
                 (set_result (ord st)
                    (mkResult (targets_total r) (targets_rebuilt r)
                       (targets_up_to_date r) (targets_failed r)
                       (targets_skipped r) (is_ok err))))
          end
      end
  end.

End World.

(** ** Loading and target discovery *)

(** [snprintf(key, sizeof(key), "%s.<suffix>", section)] into [char key[256]]. *)
Definition section_key (sec suffix : string) : string :=
  take 255 (sec +++ "." +++ suffix).

Definition add_target (o : Ordinal) (n sec : string) : option Ordinal :=
  let tf := Ini.zorya_ini_get (ini o) (Some (section_key sec "target")) in
  let cmd := Ini.zorya_ini_get (ini o) (Some (section_key sec "command")) in
  let dkey := section_key sec "deps" in
  let ds :=
    match Ini.zorya_ini_get_array (ini o) (Some dkey) with
    | Some (d :: rest) => d :: rest
    | _ =>
        match Ini.zorya_ini_get (ini o) (Some dkey) with
        | Some EmptyString => []
        | Some single => [single]
        | None => []
        end
    end in
  let t := mkTarget n sec ds [] cmd None tf ORDINAL_STATUS_PENDING
             (match tf with None => true | Some _ => false end) false false in
  let index := target_count o in
  ' (_, m) <- Dagger.dagger_set (target_map o) (Some n) (u32 (zlen n))
                (Some (u64 (index + 1))) true ;;
  let dflt :=
    match default_target o with
    | Some d => Some d
    | None =>
        if String.eqb n "build" || starts_with "build" sec then Some n else None
    end in
  Some (mkOrdinal (ini o) (config o) (targets o ++ [t]) m (strings o)
          (sec_project o) (sec_env o) dflt (project_name o) (project_version o)
          (ordinal_dir o) (cwd o) (var_platform o) (var_arch o) (var_nproc o)
          (progress_registered o) (result o) (error_msg o)).

Definition ptr_opt_eqb (a b : option Arena.ptr) : bool :=
  match a, b with
  | Some p, Some q => Arena.ptr_eqb p q
  | None, None => true
  | _, _ => false
  end.

Definition set_strings (o : Ordinal) (T : Tablet.Tablet) : Ordinal :=
  mkOrdinal (ini o) (config o) (targets o) (target_map o) T (sec_project o)
            (sec_env o) (default_target o) (project_name o) (project_version o)
            (ordinal_dir o) (cwd o) (var_platform o) (var_arch o) (var_nproc o)
            (progress_registered o) (result o) (error_msg o).

Fixpoint discover_loop (o : Ordinal) (secs : list string) : option Ordinal :=
  match secs with
  | [] => Some o
  | sec :: rest =>
      ' (sec_weave, T) <- Tablet.tablet_intern (strings o) (Some sec) true ;;
      let o := set_strings o T in
      if ptr_opt_eqb sec_weave (sec_project o) || ptr_opt_eqb sec_weave (sec_env o)
         || starts_with "project." sec || starts_with "env." sec
      then discover_loop o rest
      else
        let n :=
          match strchr_at ":" sec with
          | Some i => drop (S i) sec
          | None => sec
          end in
        ' o <- add_target o n sec ;;
        discover_loop o rest
  end.

Definition discover_targets (o : Ordinal) : option Ordinal :=
  ' o <- discover_loop o (Ini.zorya_ini_sections (ini o)) ;;
  match default_target o, targets o with
  | None, t0 :: _ =>
      Some (mkOrdinal (ini o) (config o) (targets o) (target_map o) (strings o)
              (sec_project o) (sec_env o) (Some (name t0)) (project_name o)
              (project_version o) (ordinal_dir o) (cwd o) (var_platform o)
              (var_arch o) (var_nproc o) (progress_registered o) (result o)
              (error_msg o))
  | _, _ => Some o
  end.

(** [ordinal_new]; the platform, architecture and processor count are
    what [ordinal_detect_*] report on the host, [host_cwd] what [getcwd]
    returns. *)
Definition ordinal_new (platform arch : string) (nproc : Z)
    (host_cwd : option string) : option Ordinal :=
  ' i <- Ini.zorya_ini_new true ;;
  ' T <- Tablet.tablet_create true ;;
  ' (_, T) <- Tablet.tablet_intern T (Some "build") true ;;
  ' (_, T) <- Tablet.tablet_intern T (Some "clean") true ;;
  ' (_, T) <- Tablet.tablet_intern T (Some "test") true ;;
  ' (_, T) <- Tablet.tablet_intern T (Some "install") true ;;
  ' (sp, T) <- Tablet.tablet_intern T (Some "project") true ;;
  ' (se, T) <- Tablet.tablet_intern T (Some "env") true ;;
  Some (mkOrdinal i ORDINAL_CONFIG_DEFAULT [] (Dagger.dagger_create 64 None) T
          sp se None None None None host_cwd (Some platform) (Some arch) nproc
          false (mkResult 0 0 0 0 0 false) EmptyString).

Definition ordinal_load_buffer (getenv : string -> option string)
    (read_file : string -> option string) (o : Ordinal) (data : option string)
    (len : Z) : option (ordinal_error_t * Ordinal) :=
  match data with
  | None => Some (ORDINAL_ERROR_NULLPTR, o)
  | Some data =>
      let with_ini (o : Ordinal) (i : Ini.ZoryaIni) dir pn pv :=
        mkOrdinal i (config o) (targets o) (target_map o) (strings o)
          (sec_project o) (sec_env o) (default_target o) pn pv dir (cwd o)
          (var_platform o) (var_arch o) (var_nproc o) (progress_registered o)
          (result o) (error_msg o) in
      ' (err, i) <- Ini.parse_buffer getenv read_file 17 (ini o) data len ;;
      match err with
      | Ini.ZORYA_INI_OK =>
          let o := with_ini o i (Some ".")
                     (Ini.zorya_ini_get i (Some "project.name"))
                     (Ini.zorya_ini_get i (Some "project.version")) in
          ' o <- discover_targets o ;;
          Some (ORDINAL_OK, o)
      | _ =>
          Some (ORDINAL_ERROR_SYNTAX,
                set_error_msg (with_ini o i (Some ".") (project_name o)
                                 (project_version o))
                  ("Failed to parse Ordinal: " +++ Ini.zorya_ini_strerror err))
      end
  end.

End Ordinal.

(* ================================================================== *)
(** * Reference behaviour and concrete inputs *)
(* ================================================================== *)

(** ** DAGGER against a finite map *)

Module DaggerRef.
Import Dagger.

Inductive dagger_op :=
| OpSet (k : string) (v : Z) (replace : bool)
| OpRemove (k : string).

(** The finite map a sequence of operations denotes: a successful
    [dagger_set] binds the key, a successful [dagger_remove] unbinds it,
    an unsuccessful call changes nothing. *)
Definition ref_map : Type := list (string * Z).

Fixpoint ref_get (m : ref_map) (k : string) : option Z :=
  match m with
  | [] => None
  | (k', v) :: rest => if String.eqb k' k then Some v else ref_get rest k
  end.

Definition ref_set (m : ref_map) (k : string) (v : Z) : ref_map := (k, v) :: m.

Definition ref_remove (m : ref_map) (k : string) : ref_map :=
  filter (fun kv => negb (String.eqb (fst kv) k)) m.

Fixpoint run_ops (T : DaggerTable Z) (m : ref_map) (ops : list dagger_op)
  : option (DaggerTable Z * ref_map) :=
  match ops with
  | [] => Some (T, m)
  | OpSet k v r :: rest =>
      ' (res, T') <- dagger_set_str T (Some k) (Some v) r ;;
      run_ops T' (if result_eqb res DAGGER_OK then ref_set m k v else m) rest
  | OpRemove k :: rest =>
      ' (res, T') <- dagger_remove_str T (Some k) ;;
      run_ops T' (if result_eqb res DAGGER_OK then ref_remove m k else m) rest
  end.

(** What [dagger_get] has to answer for [k] after the operations. *)
Definition expected (m : ref_map) (k : string) : dagger_result_t * option Z :=
  match ref_get m k with
  | Some v => (DAGGER_OK, Some v)
  | None => (DAGGER_NOT_FOUND, None)
  end.

Definition answered (T : DaggerTable Z) (k : string) : dagger_result_t * option Z :=
  let g := dagger_get_str T (Some k) in (g_result g, g_value g).

(** Seventeen keys whose primary hash selects slot 0 of a 32-slot table. *)
Definition crowd : list string :=
  ["k43"; "k53"; "k66"; "k150"; "k151"; "k162"; "k221"; "k222"; "k301";
   "k321"; "k367"; "k375"; "k411"; "k455"; "k482"; "k487"; "k541"].

Definition set_all (ks : list string) : list dagger_op :=
  map (fun k => OpSet k 1 true) ks.

(** [k586] also selects slot 0 and is placed by the cuckoo phase; [k0]
    selects slot 10 and displaces it again. *)
Definition lost_key_ops : list dagger_op :=
  set_all crowd ++ [OpSet "k586" 100 true; OpSet "k0" 200 true].

(** [k74] selects slot 1 and ends the run of occupied slots at 17;
    [k1274] is absent, selects slot 0 and alternate slot 1. *)
Definition long_probe_ops : list dagger_op :=
  set_all crowd ++ [OpSet "k74" 50 true].

End DaggerRef.

(** ** Tablet interning sequences *)

Module TabletRef.
Import Tablet.

(** Interns the strings in order and returns the pointers obtained. *)
Fixpoint intern_all (T : Tablet) (ss : list string)
  : option (list (option Arena.ptr) * Tablet) :=
  match ss with
  | [] => Some ([], T)
  | s :: rest =>
      ' (p, T) <- tablet_intern T (Some s) true ;;
      ' (ps, T) <- intern_all T rest ;;
      Some (p :: ps, T)
  end.

Definition intern_script : list string :=
  DaggerRef.crowd ++ ["k586"; "k0"; "k586"].

End TabletRef.

(** ** A build file with a dependency cycle, and a quiet world *)

Module OrdinalRef.
Import Ordinal.

Definition nl : string := String CStr.LF EmptyString.

Definition cycle_file : string :=
  String.concat nl
    ["[A]"; "deps = B"; "command = echo a"; "";
     "[B]"; "deps = A"; "command = echo b"; ""].

(** The cycle of [cycle_file], with a third target that [A] depends on
    before it depends on [B]. *)
Definition cycle_leaf_file : string :=
  String.concat nl
    ["[A]"; "deps = C | B"; "command = echo a"; "";
     "[B]"; "deps = A"; "command = echo b"; "";
     "[C]"; "command = echo c"; ""].

(** Twenty targets.  In the 64-slot target map the names of the first
    seventeen select slot 0; [opt1166] selects slot 0 too and is placed
    by the cuckoo phase at slot 17; [opt19] selects slot 16.  [opt1166]
    and [A] depend on each other. *)
Definition lost_target_file : string :=
  String.concat nl
    ["[opt187]"; "[opt219]"; "[opt299]"; "[opt321]"; "[opt337]"; "[opt341]";
     "[opt359]"; "[opt364]"; "[opt492]"; "[opt532]"; "[opt573]"; "[opt619]";
     "[opt674]"; "[opt714]"; "[opt747]"; "[opt814]"; "[opt834]";
     "[opt1166]"; "deps = A"; "command = echo x";
     "[opt19]";
     "[A]"; "deps = opt1166"; "command = echo a"; ""].

Definition object_file : string :=
  String.concat nl ["[obj]"; "target = out.o"; "command = cc -c in.c"; ""].

Definition no_env (_ : string) : option string := None.
Definition no_file (_ : string) : option string := None.

Definition load (text : string) : option Ordinal :=
  ' o <- ordinal_new "linux" "x86_64" 4 (Some "/") ;;
  ' (err, o) <- ordinal_load_buffer no_env no_file o (Some text) (zlen text) ;;
  if is_ok err then Some o else None.

(** A world in which every command succeeds and changes nothing, no
    path matches a glob, and the only file is [out.o] with the
    modification time given. *)
Definition quiet_stat (out_mtime : option Z) (_ : unit) (path : string) : option Z :=
  if String.eqb path "out.o" then out_mtime else None.
Definition quiet_glob (_ : unit) (_ : string) : glob_result := GlobNoMatch.
Definition quiet_system (_ : unit) (_ : string) : Z * unit := (0, tt).
Definition quiet_chdir (_ : unit) (_ : string) : option unit := Some tt.
Definition quiet_getcwd (_ : unit) : option string := Some "/".

Definition run_quiet (o : Ordinal) (target : string)
  : ordinal_error_t * RunState unit :=
  ordinal_run unit (quiet_stat None) quiet_glob quiet_system quiet_chdir
    quiet_getcwd (mkRun unit tt o [] []) (Some target).

Definition with_keep_going (o : Ordinal) (kg : bool) : Ordinal :=
  ordinal_configure o (Some (mkConfig 1 false false kg false false false None)).

(** The target record and the run state with which [build_target] starts
    on the dependencies of target [i]: marked as on the stack, announced,
    dependencies resolved. *)
Definition entered {World : Type} (glob : World -> string -> glob_result)
    (st : RunState World) (n : string) (i : Z)
  : OrdinalTargetInternal * RunState World :=
  let target := target_at (ord World st) i in
  let target := with_status target (status target) (visited target) true in
  let st := with_ord World st (put_target (ord World st) i target) in
  let st := notify World st n ORDINAL_STATUS_PENDING None in
  let target := resolve_target_deps World glob (world World st) (ord World st) target in
  (target, with_ord World st (put_target (ord World st) i target)).

(** The state in which a target is left when one of its dependencies
    failed. *)
Definition failed_at {World : Type} (st : RunState World) (i : Z) : RunState World :=
  let t := target_at (ord World st) i in
  with_ord World st
    (put_target (ord World st) i
       (with_status t ORDINAL_STATUS_FAILED (visited t) false)).

(** [ordinal_run] can enter the configured directory, if there is one. *)
Definition can_enter {World : Type} (chdir : World -> string -> option World)
    (st : RunState World) : bool :=
  match directory (config (ord World st)) with
  | None => true
  | Some dir =>
      match chdir (world World st) dir with Some _ => true | None => false end
  end.

(** What no step of [build_target] other than [execute_command] changes:
    the commands executed so far, the target map, the configuration and
    the number of targets. *)
Definition same_frame {World : Type} (st st' : RunState World) : Prop :=
  executed World st' = executed World st /\
  target_map (ord World st') = target_map (ord World st) /\
  config (ord World st') = config (ord World st) /\
  target_count (ord World st') = target_count (ord World st).

End OrdinalRef.

(** ** The order of lookups the specification gives for a reference *)

Module IniRef.
Import CStr Ini.

(** The full keys tried for [${var}] inside section [cur], in order, each
    with the section in which a value found under it is resolved further. *)
Definition lookup_order (cur var : string) : list (string * string) :=
  [ (make_full_key (Some cur) var, cur);
    (var, cur);
    ("default." +++ var, "default");
    ("project." +++ var, "project");
    ("env." +++ var, "env") ].

(** The value the configuration holds under the full key [k]: that of
    the slot of the entries table which stores this key, whichever slot
    it is.  A key exists when there is one. *)
Definition stored_value (ini : ZoryaIni) (k : string) : option string :=
  match find (fun e => Dagger.occupied e && String.eqb (Dagger.key e) k)
             (Dagger.entries (entries ini)) with
  | Some e => option_map (entry_value ini) (Dagger.value e)
  | None => None
  end.

(** The value stored under the first key of the list that exists. *)
Fixpoint first_existing (ini : ZoryaIni) (cands : list (string * string))
  : option (string * string) :=
  match cands with
  | [] => None
  | (k, sec) :: rest =>
      match stored_value ini k with
      | Some v => Some (v, sec)
      | None => first_existing ini rest
      end
  end.

(** The value under the first key of the list that [zorya_ini_get]
    finds. *)
Fixpoint first_found (ini : ZoryaIni) (cands : list (string * string))
  : option (string * string) :=
  match cands with
  | [] => None
  | (k, sec) :: rest =>
      match zorya_ini_get ini (Some k) with
      | Some v => Some (v, sec)
      | None => first_found ini rest
      end
  end.

(** A reference name without default, [env:] prefix, [@] prefix or
    leading underscore. *)
Definition plain_name (var : string) : Prop :=
  var <> EmptyString /\ strstr ":-" var = None /\
  starts_with "env:" var = false /\ starts_with "@" var = false /\
  starts_with "_" var = false.

(** What the reference stands for: the first existing value, itself
    resolved one level deeper. *)
Definition resolve_reference (getenv : string -> option string)
    (ini : ZoryaIni) (cur var : string) (depth : Z) : option string :=
  match first_existing ini (lookup_order cur var) with
  | Some (v, sec) => resolve_string_at getenv ini (Some v) sec (depth + 1)
  | None => None
  end.

(** The same with the first value [zorya_ini_get] finds. *)
Definition found_reference (getenv : string -> option string)
    (ini : ZoryaIni) (cur var : string) (depth : Z) : option string :=
  match first_found ini (lookup_order cur var) with
  | Some (v, sec) => resolve_string_at getenv ini (Some v) sec (depth + 1)
  | None => None
  end.




(** Loading a text with no environment and no file system. *)
Definition nl : string := String LF EmptyString.
Definition no_env (_ : string) : option string := None.
Definition no_file (_ : string) : option string := None.

Definition load_text (text : string) : option (zorya_ini_error_t * ZoryaIni) :=
  match zorya_ini_load_buffer no_env no_file (zorya_ini_new true) (Some text)
          (zlen text) with
  | Some (err, Some ini) => Some (err, ini)
  | _ => None
  end.


(** Nineteen top-level keys, then [opt1166] again in [default] and a
    reference to it in [paths].  In the 64-slot entries table the first
    seventeen keys select slot 0; [opt1166] selects slot 0 too and is
    placed by the cuckoo phase at slot 17; [opt19] selects slot 16. *)
Definition lost_key_file : string :=
  String.concat nl
    ["opt187 = 1"; "opt219 = 1"; "opt299 = 1"; "opt321 = 1"; "opt337 = 1";
     "opt341 = 1"; "opt359 = 1"; "opt364 = 1"; "opt492 = 1"; "opt532 = 1";
     "opt573 = 1"; "opt619 = 1"; "opt674 = 1"; "opt714 = 1"; "opt747 = 1";
     "opt814 = 1"; "opt834 = 1";
     "opt1166 = top"; "opt19 = 1"; "";
     "[default]"; "opt1166 = fallback"; "";
     "[paths]"; "base = ${opt1166}"; ""].

End IniRef.

(** ** Staleness as the specification words it, and as the code decides it *)

Module RebuildRef.
Import CStr Ordinal.

Section Rules.
Variable World : Type.
Variable stat_mtime : World -> string -> option Z.

(** [dep] is the name of a target of the build file. *)
Definition declared (o : Ordinal) (dep : string) (i : Z) : Prop :=
  0 <= i < target_count o /\ name (target_at o i) = dep.

(** The rule of the specification: existence of the output is the
    existence of the file, a dependency is a target when the build file
    declares it, and only an existing dependency file has a modification
    time to compare. *)
Definition stated_rebuild (w : World) (o : Ordinal) (t : OrdinalTargetInternal)
  : Prop :=
  force (config o) = true \/
  is_phony t = true \/
  (exists f, target_file t = Some f /\ stat_mtime w f = None) \/
  (exists dep i, In dep (resolved_deps t) /\ declared o dep i /\
     status (target_at o i) = ORDINAL_STATUS_REBUILT) \/
  (exists dep f m mo, In dep (resolved_deps t) /\
     (forall i, ~ declared o dep i) /\
     target_file t = Some f /\ stat_mtime w dep = Some m /\
     stat_mtime w f = Some mo /\ mo < m).

(** The target map finds [dep], and the target it names was rebuilt in
    this run. *)
Definition dep_rebuilt (o : Ordinal) (dep : string) : Prop :=
  exists idx, lookup_target o dep = Some idx /\
    u64 (idx - 1) < target_count o /\
    status (target_at o (u64 (idx - 1))) = ORDINAL_STATUS_REBUILT.

(** What the code tests: a modification time of 0 stands for a missing
    file, for the output and for the dependencies alike, and a
    dependency is taken for a target when the target map finds its
    name. *)
Definition decided_rebuild (w : World) (o : Ordinal) (t : OrdinalTargetInternal)
  : Prop :=
  force (config o) = true \/
  is_phony t = true \/
  target_file t = None \/
  (exists f, target_file t = Some f /\ get_mtime World stat_mtime w f = 0) \/
  (exists dep, In dep (resolved_deps t) /\ dep_rebuilt o dep) \/
  (exists dep f, In dep (resolved_deps t) /\ lookup_target o dep = None /\
     target_file t = Some f /\
     get_mtime World stat_mtime w f < get_mtime World stat_mtime w dep).

End Rules.

(** The target map resolves the name [n] to the target at index [i]
    (it stores [i + 1] under [n] and the lookup finds it). *)
Definition resolves_to (o : Ordinal) (n : string) (i : Z) : Prop :=
  lookup_target o n = Some (i + 1) /\ 0 <= i < target_count o /\
  i + 1 < 2 ^ 64.

(** The target at index [i] depends on [dep] alone, by a name that
    needs neither variable nor glob expansion. *)
Definition only_dep (o : Ordinal) (i : Z) (dep : string) : Prop :=
  deps (target_at o i) = [dep] /\
  strchr "$" dep = false /\ strchr "*" dep = false /\ strchr "?" dep = false.

(** Both together: the target named [n] is found and depends on [dep]
    alone. *)
Definition depends_only_on (o : Ordinal) (i : Z) (n dep : string) : Prop :=
  lookup_target o n = Some (i + 1) /\ 0 <= i < target_count o /\
  i + 1 < 2 ^ 64 /\
  deps (target_at o i) = [dep] /\
  strchr "$" dep = false /\ strchr "*" dep = false /\ strchr "?" dep = false.

End RebuildRef.

(** ** Arena and Weave side conditions *)

Module ArenaRef.
Import Arena.

(** The active chunk is the last of the chain, as [arena_create],
    [arena_alloc] and [arena_reset] leave it. *)
Definition current_is_last (a : Arena) : Prop :=
  S (current a) = List.length (chunks a).

(** What holds of the arena [a] inside a temporary scope opened on [a0]:
    the chunks before the captured one are those of [a0], and the
    captured chunk differs from that of [a0] in [used] only. *)
Definition scope_inv (a0 a : Arena) : Prop :=
  current_is_last a /\ (current a0 <= current a)%nat /\
  firstn (current a0) (chunks a) = firstn (current a0) (chunks a0) /\
  exists u, nth (current a0) (chunks a) empty_chunk
            = with_used (nth (current a0) (chunks a0) empty_chunk) u.

End ArenaRef.

Module WeaveRef.
Import Weave.

(** A mutator fails or does nothing: it returns NULL or the Weave as it
    was. *)
Definition untouched (w : Weave) (r : outcome) : Prop :=
  r = Ret None \/ r = Ret (Some w).

(** The flags the code gives a Weave.  [flags] is written in three
    places only: [weave_new_len] and [weave_with_cap] store
    [WEAVE_FLAG_NONE], [tablet_intern_len] stores
    [WEAVE_FLAG_INTERNED | WEAVE_FLAG_READONLY]; [struct Weave] is
    opaque to callers. *)
Definition library_flags (w : Weave) : Prop :=
  flags w = WEAVE_FLAG_NONE \/
  flags w = Z.lor WEAVE_FLAG_INTERNED WEAVE_FLAG_READONLY.

(** The Weave [tablet_intern] makes of three bytes. *)
Definition interned_abc : Weave :=
  mkWeave 3 3 (Z.lor WEAVE_FLAG_INTERNED WEAVE_FLAG_READONLY) "abc".

End WeaveRef.

(* ================================================================== *)
(** * Further code of the same files *)
(* ================================================================== *)

(** The functions below belong to the source files modelled above; they
    are embedded in the same way and the definitions above are reused. *)

(** ** NXH: integer hashing, src/native/include/nxh.h *)

Module NXHMore.
Import NXH.

Definition nxh_int64 (value : Z) : Z :=
  nxh_avalanche (u64 (value * NXH_PRIME_NEXUS + NXH_PRIME_VOID)).

(** [value] is a [uint32_t], widened before the multiplication. *)
Definition nxh_int32 (value : Z) : Z :=
  nxh_avalanche (u64 (value * NXH_PRIME_NEXUS + NXH_PRIME_ECHO)).

(** The offsets [p], [p + 1], ... of [n] consecutive bytes. *)
Fixpoint range (p : Z) (n : nat) : list Z :=
  match n with
  | O => []
  | S n' => p :: range (p + 1) n'
  end.

End NXHMore.

(** ** DAGGER: table shape *)

Module DaggerInv.
Import Dagger.

(** The shape [dagger_create] and [dagger_resize] give a table: a power
    of two slots, the mask one less. *)
Definition table_ok {V : Type} (T : DaggerTable V) : Prop :=
  exists k, 0 <= k /\ capacity T = 2 ^ k /\ mask T = 2 ^ k - 1 /\
            List.length (entries T) = Z.to_nat (2 ^ k).

(** The first slot probed for a key. *)
Definition home {V : Type} (T : DaggerTable V) (k : string) (klen : Z) : Z :=
  dagger_slot T (hash1 T k klen).

(** No resize is due before the next insertion. *)
Definition below_load {V : Type} (T : DaggerTable V) : Prop :=
  count T < u64 (capacity T * DAGGER_LOAD_FACTOR_PERCENT) / 100.

(** Some bit of [x] among the [w] bits from [i] up is set. *)
Definition any_bit (x i w : Z) : Prop :=
  exists j, i <= j < i + w /\ Z.testbit x j = true.

(** A 32-slot table holding the one binding a -> 7. *)
Definition one_key : DaggerTable Z :=
  match dagger_set (dagger_create 32 None) (Some "a") 1 (Some 7) false with
  | Some (_, T) => T
  | None => dagger_create 32 None
  end.

End DaggerInv.

(** ** Arena: allocation regions *)

Module ArenaInv.
Import Arena.

(** The shape [arena_create] and [arena_alloc] keep: [current] is a chunk
    of the chain, its fill level is within its capacity, and the sizes are
    far from the 64-bit limit. *)
Definition arena_ok (a : Arena) : Prop :=
  (current a < List.length (chunks a))%nat /\
  0 <= used (current_chunk a) <= capacity (current_chunk a) /\
  capacity (current_chunk a) < 2 ^ 63 /\
  0 <= chunk_size a < 2 ^ 63 /\
  used (current_chunk a) mod 8 = 0.

(** The [size] bytes at [p] lie in the filled part of a chunk of the chain
    up to [current]. *)
Definition live (a : Arena) (p : ptr) (size : Z) : Prop :=
  (fst p <= current a)%nat /\
  0 <= snd p /\
  snd p + size <= used (nth (fst p) (chunks a) empty_chunk).

(** Two regions overlap when they share a byte of the same chunk. *)
Definition overlap (p : ptr) (s : Z) (q : ptr) (t : Z) : Prop :=
  fst p = fst q /\ snd p < snd q + t /\ snd q < snd p + s.

(** A run of [arena_alloc] calls, the sizes and the allocator's answers
    given; the arena after the last one. *)
Fixpoint alloc_all (a : Arena) (reqs : list (Z * bool)) : Arena :=
  match reqs with
  | [] => a
  | (size, ok) :: rest => alloc_all (snd (arena_alloc a size ok)) rest
  end.

(** A 64-byte arena as [arena_create (64, ...)] returns it. *)
Definition small_arena : Arena := mkArena [mkChunk 64 0 0] 0 64 8 0 64 0 1 0.

Definition with_peak (a : Arena) (p : Z) : Arena :=
  mkArena (chunks a) (current a) (chunk_size a) (alignment a)
          (total_allocated a) (total_capacity a) p (chunk_count a)
          (alloc_count a).

End ArenaInv.

(** ** WEAVE: searching, slicing and trimming, src/native/weave/weave.c *)

Module WeaveOps.
Import Weave.

(** The representation invariant of a [Weave]: [data[]] holds [len]
    bytes and they fit the capacity. *)
Definition weave_ok (w : Weave) : Prop :=
  zlen (data w) = len w /\ len w <= cap w.

(** [w->data + start]. *)
Definition data_from (w : Weave) (start : Z) : string :=
  CStr.drop (Z.to_nat start) (data w).

Definition weave_starts_with (w : option Weave) (pre : option string) : bool :=
  match w, pre with
  | Some w, Some p =>
      let prefix_len := strlen p in
      if len w <? prefix_len then false
      else Dagger.memcmp_eq (data w) p prefix_len
  | _, _ => false
  end.

Definition weave_ends_with (w : option Weave) (suffix : option string) : bool :=
  match w, suffix with
  | Some w, Some s =>
      let suffix_len := strlen s in
      if len w <? suffix_len then false
      else Dagger.memcmp_eq (data_from w (len w - suffix_len)) s suffix_len
  | _, _ => false
  end.

(** [data[i]]; the terminating NUL at [len]. *)
Definition byte_at (d : string) (i : Z) : ascii :=
  if i <? 0 then NUL
  else match String.get (Z.to_nat i) d with
       | Some c => c
       | None => NUL
       end.

Definition weave_substr (w : option Weave) (start n : Z) (malloc_ok : bool)
  : option Weave :=
  match w with
  | None => weave_new (Some "") malloc_ok
  | Some w =>
      if len w <=? start then weave_new (Some "") malloc_ok
      else
        let avail := len w - start in
        let n := if avail <? n then avail else n in
        weave_new_len (Some (data_from w start)) n malloc_ok
  end.

(** [end_] is the [int64_t] argument, [start] a [size_t]. *)
Definition weave_slice (w : option Weave) (start end_ : Z) (malloc_ok : bool)
  : option Weave :=
  match w with
  | None => weave_new (Some "") malloc_ok
  | Some w =>
      let actual_end :=
        if end_ <? 0 then len w
        else if len w <? end_ then len w else end_ in
      if actual_end <=? start then weave_new (Some "") malloc_ok
      else weave_new_len (Some (data_from w start)) (actual_end - start) malloc_ok
  end.

(** The [for] loop of [weave_reverse], [k] iterations left at index [i]:
    the bytes it stores at [i], [i+1], ... *)
Fixpoint reverse_loop (d : string) (n i : Z) (k : nat) : string :=
  match k with
  | O => ""
  | S k' => String (byte_at d (n - 1 - i)) (reverse_loop d n (i + 1) k')
  end.

Definition weave_reverse (w : option Weave) (malloc_ok : bool) : option Weave :=
  match w with
  | None => weave_new (Some "") malloc_ok
  | Some w =>
      match weave_with_cap (len w) malloc_ok with
      | None => None
      | Some r =>
          Some (with_content r (len w)
                  (reverse_loop (data w) (len w) 0 (Z.to_nat (len w))))
      end
  end.

Definition WHITESPACE : string :=
  String " " (String CStr.TAB (String CStr.LF (String CStr.CR
    (String CStr.FF (String CStr.VT ""))))).

Fixpoint char_in_set (c : ascii) (set : string) : bool :=
  match set with
  | EmptyString => false
  | String d set' =>
      if Ascii.eqb d NUL then false
      else if Ascii.eqb d c then true
      else char_in_set c set'
  end.

(** [while (start < w->len && char_in_set(w->data[start], chars)) start++]. *)
Fixpoint trim_start (d chars : string) (n start : Z) (fuel : nat) : Z :=
  match fuel with
  | O => start
  | S f =>
      if (start <? n) && char_in_set (byte_at d start) chars
      then trim_start d chars n (start + 1) f
      else start
  end.

(** [while (end > start && char_in_set(w->data[end - 1], chars)) end--]. *)
Fixpoint trim_end (d chars : string) (start e : Z) (fuel : nat) : Z :=
  match fuel with
  | O => e
  | S f =>
      if (start <? e) && char_in_set (byte_at d (e - 1)) chars
      then trim_end d chars start (e - 1) f
      else e
  end.

Definition weave_trim_chars (w : option Weave) (chars : option string)
    (malloc_ok : bool) : option Weave :=
  match w with
  | None => weave_new (Some "") malloc_ok
  | Some w =>
      let chars := match chars with None => WHITESPACE | Some c => c end in
      let fuel := S (Z.to_nat (len w)) in
      let start := trim_start (data w) chars (len w) 0 fuel in
      let e := trim_end (data w) chars start (len w) fuel in
      weave_new_len (Some (data_from w start)) (e - start) malloc_ok
  end.

Definition weave_trim (w : option Weave) (malloc_ok : bool) : option Weave :=
  weave_trim_chars w (Some WHITESPACE) malloc_ok.

(** A mutable Weave holding two bytes. *)
Definition short_weave : Weave := mkWeave 2 32 WEAVE_FLAG_NONE "ab".

End WeaveOps.

(** ** Cord: deferred concatenation, src/native/weave/weave.c *)

Module Cord.
Import Weave.

Definition CORD_INITIAL_CHUNKS : Z := 8.

Record CordChunk := mkCordChunk {
  cdata : string;
  clen : Z;
  owned : bool
}.

(** [sizeof(CordChunk)]: a pointer, a [size_t] and a [bool], padded
    to 8. *)
Definition SIZEOF_CORDCHUNK : Z := 24.

(** [chunks] holds the [chunk_count] elements of the array written so
    far.  The array is allocated, by [cord_with_cap] and again by
    [cord_ensure_cap], with [chunk_cap * sizeof(CordChunk)] bytes, a
    product that wraps around at 2^64. *)
Record Cord := mkCord {
  total_len : Z;
  chunk_count : Z;
  chunk_cap : Z;
  chunks : list CordChunk
}.

(** The number of elements the block allocated for [chunk_cap] chunks
    has room for. *)
Definition array_slots (chunk_cap : Z) : Z :=
  u64 (chunk_cap * SIZEOF_CORDCHUNK) / SIZEOF_CORDCHUNK.

(** What a call leaves behind: whether the pointer returned is [c]
    rather than NULL, with the Cord object as it is afterwards; or a store
    past the end of the [chunks] array. *)
Inductive cord_outcome :=
| CordRet (ok : bool) (c : Cord)
| CordOverrun.

(** [cord_with_cap]: [malloc_ok] tells whether both [malloc] calls
    return a block; the array gets [array_slots chunk_cap] elements. *)
Definition cord_with_cap (chunk_cap : Z) (malloc_ok : bool) : option Cord :=
  if malloc_ok then Some (mkCord 0 0 chunk_cap []) else None.

Definition cord_new (malloc_ok : bool) : option Cord :=
  cord_with_cap CORD_INITIAL_CHUNKS malloc_ok.

(** [cord_ensure_cap]: whether the pointer returned is [c] rather than
    NULL, and the Cord afterwards; the array reallocated for [new_cap]
    chunks has [array_slots new_cap] elements. *)
Definition cord_ensure_cap (c : Cord) (realloc_ok : bool) : bool * Cord :=
  if chunk_count c <? chunk_cap c then (true, c)
  else
    let new_cap := u64 (chunk_cap c * 3) / 2 in
    if realloc_ok
    then (true, mkCord (total_len c) (chunk_count c) new_cap (chunks c))
    else (false, c).

Definition cord_append_len (c : Cord) (s : option string) (n : Z)
    (realloc_ok malloc_ok : bool) : cord_outcome :=
  match s with
  | None => CordRet true c
  | Some s =>
      if n =? 0 then CordRet true c
      else
        match cord_ensure_cap c realloc_ok with
        | (false, c) => CordRet false c
        | (true, c) =>
            if malloc_ok then
              if chunk_count c <? array_slots (chunk_cap c) then
                CordRet true
                  (mkCord (u64 (total_len c + n)) (u64 (chunk_count c + 1))
                          (chunk_cap c)
                          (chunks c ++ [mkCordChunk (take_bytes s n) n true]))
              else CordOverrun
            else CordRet false c
        end
  end.

Definition cord_append (c : Cord) (s : option string)
    (realloc_ok malloc_ok : bool) : cord_outcome :=
  match s with
  | None => CordRet true c
  | Some str => cord_append_len c (Some str) (strlen str) realloc_ok malloc_ok
  end.

Definition cord_len (c : option Cord) : Z :=
  match c with Some c => total_len c | None => 0 end.

(** The copy loop of [cord_to_weave]: [None] when a [memcpy] would run
    past the [cap + 1] bytes of [result->data]. *)
Fixpoint to_weave_loop (chs : list CordChunk) (r : Weave) : option Weave :=
  match chs with
  | [] => Some r
  | ch :: rest =>
      if len r + clen ch <=? cap r + 1 then
        to_weave_loop rest
          (with_content r (u64 (len r + clen ch))
             (data r +++ take_bytes (cdata ch) (clen ch)))
      else None
  end.

(** [cord_to_weave]: the outer [None] is a store outside the result
    buffer, the inner one a NULL result. *)
Definition cord_to_weave (c : option Cord) (malloc_ok : bool)
  : option (option Weave) :=
  match c with
  | None => Some (weave_new (Some "") malloc_ok)
  | Some c =>
      match weave_with_cap (total_len c) malloc_ok with
      | None => Some None
      | Some r =>
          match to_weave_loop (chunks c) r with
          | None => None
          | Some r => if len r <=? cap r then Some (Some r) else None
          end
      end
  end.

(** The copy loop of [cord_to_buf]; [limit] is [buflen - 1] as a
    [size_t]. *)
Fixpoint to_buf_loop (chs : list CordChunk) (limit written : Z) (out : string)
  : Z * string :=
  match chs with
  | [] => (written, out)
  | ch :: rest =>
      if written <? limit then
        let to_copy :=
          if limit <? u64 (written + clen ch) then u64 (limit - written)
          else clen ch in
        to_buf_loop rest limit (u64 (written + to_copy))
                    (out +++ take_bytes (cdata ch) to_copy)
      else (written, out)
  end.

(** [cord_to_buf] on a Cord and a buffer of [buflen] bytes, both not
    NULL: the count returned and the bytes stored before the NUL; [None]
    when the NUL is stored outside the buffer. *)
Definition cord_to_buf (c : Cord) (buflen : Z) : option (Z * string) :=
  let '(written, out) := to_buf_loop (chunks c) (u64 (buflen - 1)) 0 "" in
  if written <? buflen then Some (written, out) else None.

End Cord.

Module CordRef.
Import Weave Cord.

(** [cord_append] of each string in turn, every allocation succeeding;
    [None] when a call stores past the [chunks] array. *)
Fixpoint cord_append_all (c : Cord) (ss : list string) : option Cord :=
  match ss with
  | [] => Some c
  | s :: rest =>
      match cord_append c (Some s) true true with
      | CordRet _ c' => cord_append_all c' rest
      | CordOverrun => None
      end
  end.

(** The strings one after the other. *)
Definition flat (ss : list string) : string :=
  fold_right String.append "" ss.

(** The bytes the chunks of a Cord stand for. *)
Definition content (chs : list CordChunk) : string :=
  fold_right (fun ch acc => take_bytes (cdata ch) (clen ch) +++ acc) "" chs.

Definition chunk_ok (ch : CordChunk) : Prop := 0 <= clen ch <= zlen (cdata ch).

Definition cord_ok (c : Cord) : Prop :=
  chunk_count c = Z.of_nat (List.length (chunks c)) /\
  chunk_count c <= chunk_cap c /\
  total_len c = zlen (content (chunks c)) /\
  Forall chunk_ok (chunks c).

End CordRef.

(** ** ZORYA-INI and ORDINAL: predicates and inputs *)

Module IniRefMore.
Import CStr Ini.

(** An array item as [parse_array] stores it: not empty, free of the
    separator, with no blank at either end. *)
Definition clean_item (item : string) : Prop :=
  item <> "" /\ strchr "|" item = false /\
  skip_ws item = item /\ trim_trailing_blank item = item.

(** The first byte, if any, is not a blank. *)
Definition starts_clean (s : string) : Prop :=
  match s with
  | EmptyString => True
  | String c _ => is_blank c = false
  end.

End IniRefMore.

Module OrdinalRefMore.
Import Ordinal.

Definition with_dry_run (o : Ordinal) : Ordinal :=
  ordinal_configure o (Some (mkConfig 1 false true false false false false None)).

(** A path the space-separated list of [expand_glob] can carry. *)
Definition plain_path (p : string) : Prop := p <> "" /\ CStr.strchr " " p = false.

(** A directory in which every pattern matches [a.c] and [b.c]. *)
Definition two_files_glob (_ : unit) (_ : string) : glob_result :=
  GlobOk ["a.c"; "b.c"].

(** Nothing was executed between the two states, the world is the same
    and so is the configuration. *)
Definition quiet_step {World : Type} (st st' : RunState World) : Prop :=
  executed World st' = executed World st /\
  world World st' = world World st /\
  config (ord World st') = config (ord World st).

Definition glob_target : OrdinalTargetInternal :=
  mkTarget "lib" "lib" ["*.c"] [] None None None ORDINAL_STATUS_PENDING
           true false false.

End OrdinalRefMore.

(* ================================================================== *)
(** * Properties *)
(* ================================================================== *)

(** ** Lists updated by index *)

Lemma list_set_length {A : Type} (l : list A) n x :
  List.length (list_set l n x) = List.length l.
Proof. revert n; induction l as [|h t IH]; intros [|n]; simpl; auto. Qed.

Lemma nth_list_set_eq {A : Type} (l : list A) n x d :
  (n < List.length l)%nat -> nth n (list_set l n x) d = x.
Proof.
  revert n; induction l as [|h t IH]; intros [|n] H; simpl in *; try lia; auto.
  apply IH; lia.
Qed.

Lemma nth_list_set_ne {A : Type} (l : list A) n m x d :
  n <> m -> nth m (list_set l n x) d = nth m l d.
Proof.
  revert n m; induction l as [|h t IH]; intros [|n] [|m] H; simpl; auto.
  contradiction.
Qed.

Lemma firstn_list_set {A : Type} (l : list A) n m x :
  (n <= m)%nat -> firstn n (list_set l m x) = firstn n l.
Proof.
  revert n m; induction l as [|h t IH]; intros [|n] [|m] H; simpl; auto; try lia.
  f_equal. apply IH. lia.
Qed.

Lemma firstn_succ_nth {A : Type} (l : list A) n d :
  (n < List.length l)%nat -> firstn (S n) l = firstn n l ++ [nth n l d].
Proof.
  revert n; induction l as [|h t IH]; intros [|n] H; simpl in *; try lia; auto.
  f_equal. apply IH. lia.
Qed.

Lemma list_set_last {A : Type} (l : list A) x y :
  list_set (l ++ [x]) (List.length l) y = l ++ [y].
Proof. induction l as [|h t IH]; simpl; auto. f_equal. exact IH. Qed.

Lemma list_set_last_at {A : Type} (l : list A) x y n :
  List.length l = n -> list_set (l ++ [x]) n y = l ++ [y].
Proof. intros <-. apply list_set_last. Qed.

(** ** NXH: a NULL buffer *)

Module NXHProofs.
Import NXH.

(** C10: for every length [len > 0] and every seed, [nxh64] and
    [nxh64_alt] on a NULL data pointer dereference nothing and return
    [nxh_avalanche (seed xor NXH_PRIME_NEXUS)] and
    [nxh_avalanche_alt (seed xor NXH_PRIME_ALT_1)]; but before the guard
    is reached each has added [len] to the null pointer, a sum that ISO C
    leaves undefined: the call is not a well-defined case. *)
Theorem nxh64_null_adds_to_null (len seed : Z) :
  0 < len ->
  nxh64_run None len seed
    = Run (nxh_avalanche (Z.lxor seed NXH_PRIME_NEXUS)) [] [len] /\
  nxh64_alt_run None len seed
    = Run (nxh_avalanche_alt (Z.lxor seed NXH_PRIME_ALT_1)) [] [len] /\
  ~ sums_defined (nxh64_run None len seed) /\
  ~ sums_defined (nxh64_alt_run None len seed).
Proof.
  intros Hlen. unfold nxh64_run, nxh64_alt_run.
  assert (H : (len =? 0) = false) by (apply Z.eqb_neq; lia).
  rewrite H. cbn [negb].
  split; [reflexivity|]. split; [reflexivity|].
  split; intros D; specialize (D len (or_introl eq_refl)); lia.
Qed.

Lemma nxh64_null_adds_to_null_witness :
  nxh64_run None 5 7
    = Run (nxh_avalanche (Z.lxor 7 NXH_PRIME_NEXUS)) [] [5] /\
  nxh64_alt_run None 5 7
    = Run (nxh_avalanche_alt (Z.lxor 7 NXH_PRIME_ALT_1)) [] [5] /\
  ~ sums_defined (nxh64_run None 5 7) /\
  ~ sums_defined (nxh64_alt_run None 5 7).
Proof. apply (nxh64_null_adds_to_null 5 7). lia. Defined.

(** The digest the model computes for a five-byte input and seed 0. *)
Example nxh64_hello : nxh64_bytes "hello" 0 = 0x26c7827d889f6da3.
Proof. vm_compute. reflexivity. Qed.

End NXHProofs.

(** ** DAGGER: probe counts and a lost key *)

Module DaggerProofs.
Import Dagger DaggerRef.

Section Bound.
Context {V : Type}.

Lemma get_rh_probes (fuel : nat) (T : DaggerTable V) h1 k klen idx probes :
  match get_rh fuel T h1 k klen idx probes with
  | RhFound _ p | RhAbsent p | RhBreak p =>
      probes < p <= probes + Z.of_nat fuel + 1
  end.
Proof.
  revert idx probes; induction fuel as [|fuel IH]; intros idx probes; cbn [get_rh].
  - repeat match goal with |- context [if ?c then _ else _] => destruct c end; lia.
  - repeat match goal with |- context [if ?c then _ else _] => destruct c end; try lia.
    specialize (IH (next_idx T idx) (probes + 1)).
    destruct (get_rh fuel T h1 k klen (next_idx T idx) (probes + 1)); lia.
Qed.

Lemma get_cuckoo_probes (n : nat) (T : DaggerTable V) h2 k klen idx probes :
  probes <= snd (get_cuckoo n T h2 k klen idx probes) <= probes + Z.of_nat n.
Proof.
  revert idx probes; induction n as [|n IH]; intros idx probes; cbn [get_cuckoo].
  - simpl. lia.
  - repeat match goal with |- context [if ?c then _ else _] => destruct c end;
      cbn [snd]; try lia.
    specialize (IH (next_idx T idx) (probes + 1)). lia.
Qed.

(** One unfolding of the Robin Hood phase of [dagger_get]. *)
Lemma get_rh_unfold (fuel : nat) (T : DaggerTable V) h1 k klen idx probes :
  get_rh fuel T h1 k klen idx probes =
  let slot := slot_at T idx in
  let probes := probes + 1 in
  if negb (occupied slot) then RhAbsent probes
  else if slot_matches T slot h1 k klen then RhFound (value slot) probes
  else if psl slot <? probes - 1 then RhBreak probes
  else if DAGGER_PSL_THRESHOLD + 1 <? probes then RhBreak probes
  else match fuel with
       | O => RhBreak probes
       | S fuel' => get_rh fuel' T h1 k klen (next_idx T idx) probes
       end.
Proof. destruct fuel; reflexivity. Qed.

(** The loop leaves by its own guard: more fuel than the seventeen
    iterations [dagger_get] is given changes nothing. *)
Lemma get_rh_fuel (fuel : nat) (T : DaggerTable V) h1 k klen idx probes :
  17 <= probes + Z.of_nat fuel ->
  get_rh fuel T h1 k klen idx probes = get_rh (S fuel) T h1 k klen idx probes.
Proof.
  revert idx probes; induction fuel as [|fuel IH]; intros idx probes Hf;
    rewrite (get_rh_unfold (S _)); rewrite get_rh_unfold; cbv zeta;
    destruct (negb (occupied (slot_at T idx))); try reflexivity;
    destruct (slot_matches T (slot_at T idx) h1 k klen); try reflexivity;
    destruct (psl (slot_at T idx) <? probes + 1 - 1); try reflexivity;
    destruct (DAGGER_PSL_THRESHOLD + 1 <? probes + 1) eqn:Hg; try reflexivity.
  - apply Z.ltb_ge in Hg. unfold DAGGER_PSL_THRESHOLD in Hg. lia.
  - apply IH. lia.
Qed.

(** On every table and for every key, one [dagger_get] examines at most
    35 slots: up to 18 in the Robin Hood phase and up to 17 in the
    cuckoo phase. *)
Theorem dagger_get_probes_le_35 (T : DaggerTable V) k klen :
  0 <= g_probes (dagger_get T k klen) <= 35.
Proof.
  unfold dagger_get. destruct k as [k|]; [|simpl; lia].
  destruct (klen =? 0); [simpl; lia|].
  pose proof (get_rh_probes 17 T (hash1 T k klen) k klen
                (dagger_slot T (hash1 T k klen)) 0) as H.
  destruct (get_rh 17 T (hash1 T k klen) k klen (dagger_slot T (hash1 T k klen)) 0)
    as [v p|p|p]; cbn [g_probes]; try lia.
  pose proof (get_cuckoo_probes 17 T (hash2 T k klen) k klen
                (dagger_slot T (hash2 T k klen)) p) as H2.
  destruct (get_cuckoo 17 T (hash2 T k klen) k klen (dagger_slot T (hash2 T k klen)) p)
    as [[r v] q].
  cbn [g_probes snd] in *. lia.
Qed.

End Bound.

(** C1: on a 32-slot table, after setting the seventeen keys of [crowd],
    then [k586] to 100 and [k0] to 200 (every call succeeds, no key is
    removed), the finite map the operations denote binds [k586] to 100,
    but [dagger_get] answers [DAGGER_NOT_FOUND] for [k586]. *)
Theorem dagger_get_loses_key :
  match run_ops (dagger_create 32 None) [] lost_key_ops with
  | Some (T, m) =>
      expected m "k586" = (DAGGER_OK, Some 100) /\
      answered T "k586" = (DAGGER_NOT_FOUND, None)
  | None => False
  end.
Proof. vm_compute. split; reflexivity. Qed.

(** C2: on a 32-slot table holding the seventeen keys of [crowd] and
    [k74], the lookup of the absent key [k1274] examines 35 slots, one
    more than the 34 of the bound. *)
Theorem dagger_get_probes_35 :
  match run_ops (dagger_create 32 None) [] long_probe_ops with
  | Some (T, _) => g_probes (dagger_get_str T (Some "k1274")) = 35
  | None => False
  end.
Proof. vm_compute. reflexivity. Qed.

End DaggerProofs.

(** ** Tablet: interning the same bytes twice *)

Module TabletProofs.
Import Tablet TabletRef.

(** C3: in a Tablet of 32 buckets, after interning the keys of [crowd],
    the first [tablet_intern] of [k586] returns the pointer to offset 544
    of the first arena chunk, and, [k0] having been interned in between,
    the second [tablet_intern] of the same bytes returns NULL: the two
    results for equal contents differ. *)
Theorem tablet_intern_twice_differs :
  match tablet_create_sized 32 true with
  | Some T =>
      match intern_all T intern_script with
      | Some (ps, _) =>
          nth 17 ps None = Some (0%nat, 544) /\ nth 19 ps (Some (0%nat, 0)) = None
      | None => False
      end
  | None => False
  end.
Proof. vm_compute. split; reflexivity. Qed.

End TabletProofs.

(** ** Arena: temporary scopes of the JavaScript binding *)

Module ArenaProofs.
Import Arena ArenaNapi ArenaRef.

Lemma scope_inv_init (a0 : Arena) : current_is_last a0 -> scope_inv a0 a0.
Proof.
  intros H. repeat split; auto.
  exists (used (nth (current a0) (chunks a0) empty_chunk)).
  destruct (nth (current a0) (chunks a0) empty_chunk); reflexivity.
Qed.

Lemma scope_inv_alloc (a0 a : Arena) size ok :
  scope_inv a0 a -> scope_inv a0 (snd (arena_alloc a size ok)).
Proof.
  intros (Hl & Hle & Hf & u & Hn). unfold arena_alloc, current_is_last in *.
  destruct (size =? 0); [repeat split; eauto|].
  destruct (u64 (used (current_chunk a) + arena_align size) <=? capacity (current_chunk a)).
  - cbn [snd chunks current]. unfold scope_inv, current_is_last. cbn [chunks current].
    rewrite list_set_length. repeat split; auto.
    + rewrite firstn_list_set by lia. exact Hf.
    + destruct (Nat.eq_dec (current a0) (current a)) as [E|E].
      * rewrite E. rewrite nth_list_set_eq by lia.
        unfold current_chunk. rewrite <- E, Hn. eexists. reflexivity.
      * rewrite nth_list_set_ne by lia. eauto.
  - unfold arena_chunk_create. destruct ok; [|repeat split; eauto].
    cbn [snd]. unfold scope_inv, current_is_last. cbn [chunks current].
    rewrite Hl, firstn_all. rewrite length_app. cbn [List.length].
    repeat split; try lia.
    + rewrite firstn_app. replace (current a0 - List.length (chunks a))%nat with O by lia.
      rewrite firstn_O, app_nil_r. exact Hf.
    + rewrite app_nth1 by lia. eauto.
Qed.

Lemma scope_inv_allocs (a0 : Arena) (aw : ArenaWrapper) reqs :
  scope_inv a0 (arena aw) ->
  scope_inv a0 (arena (allocs aw reqs)) /\
  temp_chunk (allocs aw reqs) = temp_chunk aw /\
  temp_used (allocs aw reqs) = temp_used aw.
Proof.
  revert aw; induction reqs as [|[size ok] rest IH]; intros aw H; [simpl; auto|].
  cbn [allocs].
  assert (E : scope_inv a0 (arena (snd (arena_js_alloc aw size ok))) /\
              temp_chunk (snd (arena_js_alloc aw size ok)) = temp_chunk aw /\
              temp_used (snd (arena_js_alloc aw size ok)) = temp_used aw).
  { unfold arena_js_alloc.
    pose proof (scope_inv_alloc a0 (arena aw) (u32 size) ok H) as Ha.
    destruct (arena_alloc (arena aw) (u32 size) ok) as [[p|] a]; cbn [snd] in *; auto. }
  destruct E as (E1 & E2 & E3).
  destruct (IH _ E1) as (I1 & I2 & I3). split; [exact I1 | split; congruence].
Qed.
(** A temporary scope leaves the chunk list, with the [used] offset of
    every chunk, and the active chunk as they were at [tempBegin]. *)
Theorem temp_scope_restores_chunks (aw : ArenaWrapper) (reqs : list (Z * bool)) :
  current_is_last (arena aw) ->
  chunks (arena (temp_scope aw reqs)) = chunks (arena aw) /\
  current (arena (temp_scope aw reqs)) = current (arena aw).
Proof.
  intros Hl. unfold temp_scope.
  remember (snd (arena_js_temp_begin aw)) as aw1 eqn:E1.
  assert (Ha : arena aw1 = arena aw) by (subst; reflexivity).
  assert (Hc : temp_chunk aw1 = Some (current (arena aw))) by (subst; reflexivity).
  assert (Hv : temp_used aw1 = used (current_chunk (arena aw))) by (subst; reflexivity).
  clear E1.
  pose proof (scope_inv_allocs (arena aw) aw1 reqs) as H.
  rewrite Ha in H. specialize (H (scope_inv_init _ Hl)).
  destruct H as ((Il & Ile & If & u & In) & Ht & Hu).
  unfold arena_js_temp_end. rewrite Ht, Hc, Hu, Hv.
  cbn [snd arena chunks current]. split; [|reflexivity].
  unfold current_is_last in *.
  set (n := current (arena aw)) in *.
  rewrite (firstn_succ_nth _ n empty_chunk) by lia.
  rewrite If, In.
  assert (Hn : List.length (firstn n (chunks (arena aw))) = n)
    by (rewrite length_firstn; lia).
  rewrite app_nth2 by lia. rewrite Hn, Nat.sub_diag. cbn [nth].
  rewrite (list_set_last_at _ _ _ n Hn).
  assert (Hcs : chunks (arena aw)
                = firstn n (chunks (arena aw)) ++ [nth n (chunks (arena aw)) empty_chunk]).
  { rewrite <- firstn_succ_nth by lia. rewrite Hl, firstn_all. reflexivity. }
  etransitivity; [|symmetry; exact Hcs].
  f_equal. f_equal. unfold current_chunk. fold n.
  destruct (nth n (chunks (arena aw)) empty_chunk); reflexivity.
Qed.

Lemma temp_scope_restores_chunks_witness :
  match arena_js_create 0 true with
  | JsOk aw =>
      chunks (arena (temp_scope aw [(8, true); (70000, true); (16, false)]))
      = chunks (arena aw)
  | JsThrow _ => False
  end.
Proof.
  simpl arena_js_create. cbv iota.
  apply (temp_scope_restores_chunks _ [(8, true); (70000, true); (16, false)]).
  reflexivity.
Defined.

(** C7: on a fresh default arena, the scope [tempBegin; alloc 8; tempEnd]
    leaves [total_allocated] at 8 and [alloc_count] at 1 where they were
    0 at [tempBegin]; the scope [tempBegin; alloc 70000; tempEnd] gives
    back the chunk list of [tempBegin] but leaves [chunk_count] at 2,
    [total_capacity] at 135536 and [total_allocated] at 70000. *)
Theorem temp_scope_keeps_counters :
  match arena_js_create 0 true with
  | JsOk aw =>
      let small := arena (temp_scope aw [(8, true)]) in
      let large := arena (temp_scope aw [(70000, true)]) in
      (total_allocated (arena aw), alloc_count (arena aw)) = (0, 0) /\
      (total_allocated small, alloc_count small) = (8, 1) /\
      chunks large = chunks (arena aw) /\
      (chunk_count (arena aw), total_capacity (arena aw)) = (1, 65536) /\
      (chunk_count large, total_capacity large, total_allocated large)
        = (2, 135536, 70000)
  | JsThrow _ => False
  end.
Proof. vm_compute. repeat split. Qed.

End ArenaProofs.

(** ** Weave: immutable strings *)

Module WeaveProofs.
Import Weave WeaveRef.

Lemma ensure_cap_immutable (w : Weave) (additional : Z) (ok : bool) :
  immutable w = true -> weave_ensure_cap (Some w) additional ok = None.
Proof. intros H. unfold weave_ensure_cap. rewrite H. reflexivity. Qed.

Lemma append_len_immutable (w : Weave) s n ok :
  immutable w = true -> untouched w (weave_append_len (Some w) s n ok).
Proof.
  intros H. unfold weave_append_len, untouched.
  destruct s as [s|]; [|now right].
  destruct (n =? 0); [now right|].
  rewrite ensure_cap_immutable by exact H. now left.
Qed.

Lemma prepend_len_immutable (w : Weave) s n ok :
  immutable w = true -> untouched w (weave_prepend_len (Some w) s n ok).
Proof.
  intros H. unfold weave_prepend_len, untouched.
  destruct s as [s|]; [|now right].
  destruct (n =? 0); [now right|].
  rewrite ensure_cap_immutable by exact H. now left.
Qed.

(** Among the flags the code stores, the immutable ones carry INTERNED. *)
Lemma immutable_is_interned (w : Weave) :
  library_flags w -> immutable w = true ->
  (Z.land (flags w) WEAVE_FLAG_INTERNED =? 0) = false.
Proof.
  unfold library_flags, immutable. intros [F|F] H; rewrite F in *.
  - discriminate H.
  - reflexivity.
Qed.

(** The constructors store one of the two flag values and no mutator
    changes the flags. *)
Lemma library_flags_kept (w : Weave) (s : option string) (o : option origin)
    (n : Z) (ok : bool) :
  (forall r, weave_new_len s n ok = Some r -> library_flags r) /\
  (forall r, weave_with_cap n ok = Some r -> library_flags r) /\
  (library_flags w ->
   (forall r, weave_append_len (Some w) o n ok = Ret (Some r) -> library_flags r) /\
   (forall r, weave_prepend_len (Some w) o n ok = Ret (Some r) -> library_flags r) /\
   (forall r, weave_reserve (Some w) n ok = Some r -> library_flags r) /\
   (forall r, weave_shrink (Some w) ok = Some r -> library_flags r) /\
   library_flags (weave_clear w) /\ library_flags (weave_truncate w n)).
Proof.
  assert (E : forall a r, library_flags w ->
            weave_ensure_cap (Some w) a ok = Some r -> library_flags r).
  { intros a r F. unfold weave_ensure_cap.
    destruct (immutable w); [discriminate|]. cbv zeta.
    destruct (u64 (len w + a) <=? cap w); [intros [= <-]; exact F|].
    destruct ok; [intros [= <-]; exact F|discriminate]. }
  split; [|split].
  - intros r. unfold weave_new_len. destruct ok; [|discriminate].
    intros [= <-]. now left.
  - intros r. unfold weave_with_cap. destruct ok; [|discriminate].
    intros [= <-]. now left.
  - intros F. repeat split.
    + intros r. unfold weave_append_len.
      destruct o as [src|]; [|intros [= <-]; exact F].
      destruct (n =? 0); [intros [= <-]; exact F|].
      destruct (weave_ensure_cap (Some w) n ok) as [w1|] eqn:C; [|discriminate].
      pose proof (E _ _ F C) as F1.
      destruct src as [b|off].
      * intros [= <-]. exact F1.
      * destruct (must_grow w n || negb ((0 <=? off) && (off + n <=? len w)));
          [discriminate|]. intros [= <-]. exact F1.
    + intros r. unfold weave_prepend_len.
      destruct o as [src|]; [|intros [= <-]; exact F].
      destruct (n =? 0); [intros [= <-]; exact F|].
      destruct (weave_ensure_cap (Some w) n ok) as [w1|] eqn:C; [|discriminate].
      pose proof (E _ _ F C) as F1.
      destruct src as [b|off].
      * intros [= <-]. exact F1.
      * destruct (must_grow w n || negb ((n <=? off) && (off <=? len w + 1)));
          [discriminate|]. intros [= <-]. exact F1.
    + intros r. unfold weave_reserve.
      destruct (n <=? cap w); [intros [= <-]; exact F|]. apply E. exact F.
    + intros r. unfold weave_shrink.
      destruct (negb (Z.land (flags w) WEAVE_FLAG_INTERNED =? 0));
        [intros [= <-]; exact F|].
      destruct (len w =? cap w); [intros [= <-]; exact F|].
      destruct ok; intros [= <-]; exact F.
    + unfold weave_clear. destruct (immutable w); exact F.
    + unfold weave_truncate. destruct (immutable w); [exact F|].
      destruct (len w <=? n); exact F.
Qed.

(** C8: on a Weave whose flags include INTERNED or READONLY, every
    operation that appends, prepends, reserves room or formats into the
    buffer returns NULL or returns the Weave as it was, and [weave_clear]
    and [weave_truncate] do nothing: length, capacity, flags and bytes
    are unchanged, wherever the bytes to append or prepend lie, inside
    the Weave included ([weave_append] and [weave_prepend] measure their
    argument first, which has to be a C string).  So does [weave_shrink]
    on every Weave that carries flags the code stores ([library_flags]),
    the immutable ones among which are interned. *)
Theorem immutable_weave_untouched (w : Weave) (s : option origin) (n : Z)
    (c : ascii) (other : option weave_ref) (fmt formatted : option string)
    (ok : bool) :
  immutable w = true ->
  untouched w (weave_append_len (Some w) s n ok) /\
  (readable (Some w) s = true -> untouched w (weave_append (Some w) s ok)) /\
  untouched w (weave_append_char (Some w) c ok) /\
  untouched w (weave_append_weave (Some w) other ok) /\
  untouched w (weave_prepend_len (Some w) s n ok) /\
  (readable (Some w) s = true -> untouched w (weave_prepend (Some w) s ok)) /\
  untouched w (Ret (weave_reserve (Some w) n ok)) /\
  untouched w (Ret (weave_append_fmt (Some w) fmt formatted ok)) /\
  weave_clear w = w /\
  weave_truncate w n = w /\
  (library_flags w -> untouched w (Ret (weave_shrink (Some w) ok))).
Proof.
  intros H.
  repeat match goal with |- _ /\ _ => split end.
  - now apply append_len_immutable.
  - intros R. unfold weave_append. rewrite R. now apply append_len_immutable.
  - now apply append_len_immutable.
  - unfold weave_append_weave.
    destruct other as [[o|]|]; [now apply append_len_immutable
                               |now apply append_len_immutable|now right].
  - now apply prepend_len_immutable.
  - intros R. unfold weave_prepend. rewrite R. now apply prepend_len_immutable.
  - unfold weave_reserve. destruct (n <=? cap w); [now right|].
    rewrite ensure_cap_immutable by exact H. now left.
  - unfold weave_append_fmt. destruct fmt; [|now right].
    destruct formatted; [|now right].
    rewrite ensure_cap_immutable by exact H. now left.
  - unfold weave_clear. now rewrite H.
  - unfold weave_truncate. now rewrite H.
  - intros F. unfold weave_shrink. rewrite (immutable_is_interned w F H).
    now right.
Qed.

Lemma immutable_weave_untouched_witness :
  untouched interned_abc
    (weave_append_len (Some interned_abc) (Some (Apart "x")) 1 true) /\
  (readable (Some interned_abc) (Some (Apart "x")) = true ->
   untouched interned_abc (weave_append (Some interned_abc) (Some (Apart "x")) true)) /\
  untouched interned_abc (weave_append_char (Some interned_abc) "x" true) /\
  untouched interned_abc (weave_append_weave (Some interned_abc) (Some Itself) true) /\
  untouched interned_abc
    (weave_prepend_len (Some interned_abc) (Some (Apart "x")) 1 true) /\
  (readable (Some interned_abc) (Some (Apart "x")) = true ->
   untouched interned_abc (weave_prepend (Some interned_abc) (Some (Apart "x")) true)) /\
  untouched interned_abc (Ret (weave_reserve (Some interned_abc) 1 true)) /\
  untouched interned_abc
    (Ret (weave_append_fmt (Some interned_abc) (Some "%d") (Some "7") true)) /\
  weave_clear interned_abc = interned_abc /\
  weave_truncate interned_abc 1 = interned_abc /\
  (library_flags interned_abc ->
   untouched interned_abc (Ret (weave_shrink (Some interned_abc) true))).
Proof.
  apply (immutable_weave_untouched interned_abc (Some (Apart "x")) 1 "x"%char
           (Some Itself) (Some "%d") (Some "7") true).
  reflexivity.
Defined.

End WeaveProofs.


(** ** ORDINAL: staleness *)

Module RebuildProofs.
Import CStr Ordinal RebuildRef.

Section Rules.
Variable World : Type.
Variable stat_mtime : World -> string -> option Z.

Lemma is_rebuilt_true s : is_rebuilt s = true <-> s = ORDINAL_STATUS_REBUILT.
Proof. destruct s; simpl; split; intros H; try discriminate; reflexivity. Qed.

Lemma newer_dep_true (w : World) (o : Ordinal) (tm : Z) (ds : list string) :
  newer_dep World stat_mtime w o tm ds = true <->
  (exists dep, In dep ds /\ dep_rebuilt o dep) \/
  (exists dep, In dep ds /\ lookup_target o dep = None /\
               tm < get_mtime World stat_mtime w dep).
Proof.
  induction ds as [|d rest IH]; cbn [newer_dep].
  - split; [discriminate|]. intros [(x & [] & _)|(x & [] & _)].
  - destruct (lookup_target o d) as [idx|] eqn:L.
    + destruct ((u64 (idx - 1) <? target_count o)
                && is_rebuilt (status (target_at o (u64 (idx - 1))))) eqn:C.
      * split; [intros _|reflexivity]. left. exists d. split; [now left|].
        apply andb_true_iff in C. destruct C as [C1 C2].
        exists idx. split; [exact L|]. split; [now apply Z.ltb_lt|].
        now apply is_rebuilt_true.
      * rewrite IH. split.
        -- intros [(x & Hx & R)|(x & Hx & R)]; [left|right]; exists x; (split; [now right|exact R]).
        -- intros [(x & [->|Hx] & R)|(x & [->|Hx] & R)].
           ++ destruct R as (i & Li & Lt & St). rewrite L in Li. inversion Li; subst i.
              apply Z.ltb_lt in Lt. apply is_rebuilt_true in St.
              rewrite Lt, St in C. discriminate.
           ++ left. now exists x.
           ++ destruct R as [R _]. rewrite L in R. discriminate.
           ++ right. now exists x.
    + destruct (tm <? get_mtime World stat_mtime w d) eqn:C.
      * split; [intros _|reflexivity]. right. exists d. split; [now left|].
        split; [exact L|now apply Z.ltb_lt].
      * rewrite IH. split.
        -- intros [(x & Hx & R)|(x & Hx & R)]; [left|right]; exists x; (split; [now right|exact R]).
        -- intros [(x & [->|Hx] & R)|(x & [->|Hx] & R)].
           ++ destruct R as (i & Li & _). rewrite L in Li. discriminate.
           ++ left. now exists x.
           ++ destruct R as [_ R]. apply Z.ltb_ge in C. lia.
           ++ right. now exists x.
Qed.

End Rules.

(** The tests of [needs_rebuild], one by one: it returns true exactly
    when one of the conditions of [decided_rebuild] holds. *)
Lemma needs_rebuild_iff (World : Type) (stat_mtime : World -> string -> option Z)
    (w : World) (o : Ordinal) (t : OrdinalTargetInternal) :
  needs_rebuild World stat_mtime w o t = true <->
  decided_rebuild World stat_mtime w o t.
Proof.
  unfold needs_rebuild, decided_rebuild.
  destruct (force (config o)); [split; auto|].
  destruct (is_phony t); [split; auto|].
  destruct (target_file t) as [f|]; [|split; auto].
  destruct (get_mtime World stat_mtime w f =? 0) eqn:E.
  - apply Z.eqb_eq in E. split; [intros _|reflexivity].
    right. right. right. left. now exists f.
  - apply Z.eqb_neq in E. rewrite newer_dep_true. split.
    + intros [H|(dep & Hd & L & Lt)].
      * do 4 right. now left.
      * do 5 right. exists dep, f. auto.
    + intros [H|[H|[H|[(f' & Hf & H0)|[H|(dep & f' & Hd & L & Hf & Lt)]]]]];
        try discriminate.
      * inversion Hf; subst. contradiction.
      * now left.
      * inversion Hf; subst. right. now exists dep.
Qed.


Lemma stated_rebuild_needs_cause (World : Type)
    (stat_mtime : World -> string -> option Z) (w : World) (o : Ordinal)
    (t : OrdinalTargetInternal) (f : string) (m : Z) :
  force (config o) = false -> is_phony t = false ->
  target_file t = Some f -> stat_mtime w f = Some m ->
  resolved_deps t = [] ->
  ~ stated_rebuild World stat_mtime w o t.
Proof.
  intros Hf Hp Ht Hs Hd
    [H|[H|[(f' & Hf' & Hs')|[(dep & i & Hi & _)|(dep & f' & m' & mo & Hi & _)]]]].
  - congruence.
  - congruence.
  - congruence.
  - rewrite Hd in Hi. exact Hi.
  - rewrite Hd in Hi. exact Hi.
Qed.

(** C5: on an output file that exists with modification time 0 (the
    epoch), for a target with an output path, without dependencies and
    with [force] off, [needs_rebuild] returns true although none of the
    stated causes holds.  [get_mtime] returns 0 for a file that cannot
    be examined, and the test [target_mtime == 0] takes a real time of 0
    for that. *)
Lemma needs_rebuild_epoch_output :
  match OrdinalRef.load OrdinalRef.object_file with
  | Some o =>
      let t := resolve_command o
                 (resolve_target_deps unit OrdinalRef.quiet_glob tt o (target_at o 0)) in
      needs_rebuild unit (OrdinalRef.quiet_stat (Some 0)) tt o t = true /\
      ~ stated_rebuild unit (OrdinalRef.quiet_stat (Some 0)) tt o t
  | None => False
  end.
Proof.
  assert (F : match OrdinalRef.load OrdinalRef.object_file with
              | Some o =>
                  let t := resolve_command o
                             (resolve_target_deps unit OrdinalRef.quiet_glob tt o (target_at o 0)) in
                  needs_rebuild unit (OrdinalRef.quiet_stat (Some 0)) tt o t = true /\
                  force (config o) = false /\ is_phony t = false /\
                  target_file t = Some "out.o" /\ resolved_deps t = []
              | None => False
              end) by (vm_compute; repeat split).
  destruct (OrdinalRef.load OrdinalRef.object_file) as [o|]; [|exact F].
  destruct F as (F1 & F2 & F3 & F4 & F5). split; [exact F1|].
  now apply (stated_rebuild_needs_cause _ _ _ _ _ "out.o" 0).
Qed.

End RebuildProofs.

(** ** ORDINAL: dependency cycles *)

Module CycleProofs.
Import CStr Ordinal OrdinalRef RebuildRef.

(** C6, as stated, fails: with [keep_going] set, running [A] of the
    two-target cycle returns [ORDINAL_OK] and executes both commands. *)
Lemma cycle_keep_going_runs :
  match load cycle_file with
  | Some o =>
      let r := run_quiet (with_keep_going o true) "A" in
      fst r = ORDINAL_OK /\ executed unit (snd r) = ["echo b"; "echo a"]
  | None => False
  end.
Proof. vm_compute. split; reflexivity. Qed.

(** A dependency listed before the cycle is built, and its command
    executed, before the cycle is met. *)
Lemma cycle_after_leaf_runs_leaf :
  match load cycle_leaf_file with
  | Some o =>
      let r := run_quiet (with_keep_going o false) "A" in
      fst r = ORDINAL_ERROR_CIRCULAR /\ executed unit (snd r) = ["echo c"]
  | None => False
  end.
Proof. vm_compute. split; reflexivity. Qed.

(** When the target map has lost the name of a target, a cycle through
    it goes unnoticed: [opt1166] and [A] of [lost_target_file] depend on
    each other, the lookup of [opt1166] fails, and running [A] with
    [keep_going] off returns [ORDINAL_OK] after executing the command of
    [A]. *)
Lemma cycle_lost_target_runs :
  match load lost_target_file with
  | Some o =>
      let r := run_quiet (with_keep_going o false) "A" in
      target_count o = 20 /\
      name (target_at o 17) = "opt1166" /\ deps (target_at o 17) = ["A"] /\
      name (target_at o 19) = "A" /\ deps (target_at o 19) = ["opt1166"] /\
      lookup_target o "A" = Some 20 /\ lookup_target o "opt1166" = None /\
      fst r = ORDINAL_OK /\ executed unit (snd r) = ["echo a"]
  | None => False
  end.
Proof. vm_compute. repeat split. Qed.

Section Run.
Variable World : Type.
Variable stat_mtime : World -> string -> option Z.
Variable glob : World -> string -> glob_result.
Variable system : World -> string -> Z * World.
Variable chdir : World -> string -> option World.
Variable getcwd : World -> option string.


Lemma target_at_put_eq (o : Ordinal) (i : Z) (t : OrdinalTargetInternal) :
  0 <= i < target_count o -> target_at (put_target o i t) i = t.
Proof.
  intros H. unfold target_at, put_target, target_count in *. cbn [targets set_targets].
  apply nth_list_set_eq. lia.
Qed.

Lemma target_at_put_ne (o : Ordinal) (i j : Z) (t : OrdinalTargetInternal) :
  0 <= i -> 0 <= j -> i <> j -> target_at (put_target o i t) j = target_at o j.
Proof.
  intros Hi Hj H. unfold target_at, put_target. cbn [targets set_targets].
  apply nth_list_set_ne. lia.
Qed.

Lemma target_count_put (o : Ordinal) (i : Z) (t : OrdinalTargetInternal) :
  target_count (put_target o i t) = target_count o.
Proof.
  unfold target_count, put_target. cbn [targets set_targets].
  now rewrite list_set_length.
Qed.

Lemma ord_notify (st : RunState World) n s m : ord World (notify World st n s m) = ord World st.
Proof. unfold notify. destruct (progress_registered _); reflexivity. Qed.
Lemma world_notify (st : RunState World) n s m : world World (notify World st n s m) = world World st.
Proof. unfold notify. destruct (progress_registered _); reflexivity. Qed.
Lemma executed_notify (st : RunState World) n s m :
  executed World (notify World st n s m) = executed World st.
Proof. unfold notify. destruct (progress_registered _); reflexivity. Qed.

Lemma resolve_one_dep (w : World) (o : Ordinal) (t : OrdinalTargetInternal) (d : string) :
  deps t = [d] -> strchr "$" d = false -> strchr "*" d = false ->
  strchr "?" d = false ->
  resolve_target_deps World glob w o t = with_resolved_deps t [d].
Proof.
  intros Hd H1 H2 H3. unfold resolve_target_deps. rewrite Hd.
  cbn [resolve_deps_loop]. unfold resolve_runtime_vars. rewrite H1. cbn [negb].
  rewrite H2, H3. reflexivity.
Qed.

(** Facts about [entered]. *)
Lemma entered_frame (st : RunState World) (n : string) (i : Z) :
  let st1 := snd (entered glob st n i) in
  executed World st1 = executed World st /\
  world World st1 = world World st /\
  target_map (ord World st1) = target_map (ord World st) /\
  config (ord World st1) = config (ord World st) /\
  target_count (ord World st1) = target_count (ord World st).
Proof.
  unfold entered. cbv zeta. cbn [snd]. unfold with_ord.
  cbn [executed world ord].
  rewrite !executed_notify, !world_notify, !ord_notify. cbn [executed world ord].
  rewrite !target_count_put. repeat split.
Qed.

Lemma entered_target (st : RunState World) (n : string) (i : Z) :
  0 <= i < target_count (ord World st) ->
  target_at (ord World (snd (entered glob st n i))) i = fst (entered glob st n i).
Proof.
  intros H. unfold entered. cbv zeta. cbn [snd fst]. unfold with_ord at 1. cbn [ord].
  apply target_at_put_eq. rewrite ord_notify. cbn [ord with_ord].
  now rewrite target_count_put.
Qed.

Lemma entered_other (st : RunState World) (n : string) (i j : Z) :
  0 <= i -> 0 <= j -> i <> j ->
  target_at (ord World (snd (entered glob st n i))) j = target_at (ord World st) j.
Proof.
  intros Hi Hj H. unfold entered. cbv zeta. cbn [snd]. unfold with_ord at 1. cbn [ord].
  rewrite target_at_put_ne by assumption. rewrite ord_notify. cbn [ord with_ord].
  now apply target_at_put_ne.
Qed.

Lemma entered_fst (st : RunState World) (n d : string) (i : Z) :
  deps (target_at (ord World st) i) = [d] -> strchr "$" d = false ->
  strchr "*" d = false -> strchr "?" d = false ->
  fst (entered glob st n i)
  = with_resolved_deps
      (with_status (target_at (ord World st) i) (status (target_at (ord World st) i))
         (visited (target_at (ord World st) i)) true) [d].
Proof.
  intros Hd H1 H2 H3. unfold entered. cbv zeta. cbn [fst].
  apply resolve_one_dep; auto.
Qed.

Lemma lookup_target_map (o o' : Ordinal) (n : string) :
  target_map o' = target_map o -> lookup_target o' n = lookup_target o n.
Proof. intros H. unfold lookup_target. now rewrite H. Qed.

(** A target that is on the stack is a cycle. *)
Lemma build_on_stack (b : nat) (st : RunState World) (n : string) (i : Z) :
  lookup_target (ord World st) n = Some (i + 1) ->
  0 <= i < target_count (ord World st) -> i + 1 < 2 ^ 64 ->
  in_stack (target_at (ord World st) i) = true ->
  build_target World stat_mtime glob system (S b) st n
  = (ORDINAL_ERROR_CIRCULAR,
     with_ord World st (set_error_msg (ord World st)
                          ("Circular dependency detected: " +++ n))).
Proof.
  intros L R B Hs. cbn [build_target]. rewrite L.
  replace (u64 (i + 1 - 1)) with i
    by (unfold u64; rewrite Z.mod_small; lia).
  destruct (Z.leb_spec (target_count (ord World st)) i); [lia|].
  rewrite Hs. reflexivity.
Qed.

(** A target whose only dependency fails, when failures stop the run. *)
Lemma build_dep_fails (b : nat) (st st2 : RunState World) (n d : string) (i x : Z)
    (err : ordinal_error_t) :
  lookup_target (ord World st) n = Some (i + 1) ->
  0 <= i < target_count (ord World st) -> i + 1 < 2 ^ 64 ->
  in_stack (target_at (ord World st) i) = false ->
  visited (target_at (ord World st) i) = false ->
  deps (target_at (ord World st) i) = [d] -> strchr "$" d = false ->
  strchr "*" d = false -> strchr "?" d = false ->
  lookup_target (ord World st) d = Some x ->
  build_target World stat_mtime glob system b (snd (entered glob st n i)) d = (err, st2) ->
  is_ok err = false ->
  keep_going (config (ord World st2)) = false ->
  build_target World stat_mtime glob system (S b) st n = (err, failed_at st2 i).
Proof.
  intros L R B Hs V Hd H1 H2 H3 Ld Hb He Hk.
  pose proof (entered_fst st n d i Hd H1 H2 H3) as Ef.
  assert (Ld' : lookup_target (ord World (snd (entered glob st n i))) d = Some x).
  { rewrite <- Ld. apply lookup_target_map. apply (entered_frame st n i). }
  cbn [build_target]. rewrite L.
  replace (u64 (i + 1 - 1)) with i
    by (unfold u64; rewrite Z.mod_small; lia).
  destruct (Z.leb_spec (target_count (ord World st)) i); [lia|].
  rewrite Hs, V.
  unfold entered in Hb, Ef, Ld'. cbv zeta in Hb, Ef, Ld'. cbn [snd fst] in Hb, Ef, Ld'.
  rewrite V in Hb, Ef, Ld'.
  rewrite Ef. cbn [resolved_deps with_resolved_deps].
  rewrite Ef in Hb, Ld'. rewrite Ld'. rewrite Hb. rewrite He, Hk. cbn [negb andb].
  reflexivity.
Qed.

Lemma same_frame_refl (st : RunState World) : same_frame st st.
Proof. repeat split. Qed.

Lemma same_frame_trans (a b c : RunState World) :
  same_frame a b -> same_frame b c -> same_frame a c.
Proof.
  intros (A1 & A2 & A3 & A4) (B1 & B2 & B3 & B4).
  repeat split; congruence.
Qed.

Lemma same_frame_entered (st : RunState World) n i :
  same_frame st (snd (entered glob st n i)).
Proof.
  destruct (entered_frame st n i) as (E1 & E2 & E3 & E4 & E5).
  repeat split; assumption.
Qed.

Lemma same_frame_failed_at (st : RunState World) i : same_frame st (failed_at st i).
Proof.
  unfold failed_at, same_frame, with_ord. cbn [executed ord].
  rewrite target_count_put. repeat split.
Qed.

Lemma same_frame_error_msg (st : RunState World) m :
  same_frame st (with_ord World st (set_error_msg (ord World st) m)).
Proof. repeat split. Qed.

Lemma keep_going_stopped (st st' : RunState World) (m : string) :
  same_frame st st' ->
  keep_going (config (ord World st)) = false ->
  keep_going
    (config (ord World (with_ord World st' (set_error_msg (ord World st') m))))
  = false.
Proof. intros (_ & _ & F & _) H. cbn [ord with_ord]. cbn. now rewrite F. Qed.

Lemma keep_going_failed (st st' : RunState World) (i : Z) :
  same_frame st st' ->
  keep_going (config (ord World st)) = false ->
  keep_going (config (ord World (failed_at st' i))) = false.
Proof.
  intros F H. destruct (same_frame_trans _ _ _ F (same_frame_failed_at st' i))
    as (_ & _ & F' & _). now rewrite F'.
Qed.

Lemma build_cycle (b : nat) (st : RunState World) (A B : string) (ia ib : Z) :
  keep_going (config (ord World st)) = false ->
  depends_only_on (ord World st) ia A B ->
  depends_only_on (ord World st) ib B A ->
  in_stack (target_at (ord World st) ia) = false ->
  visited (target_at (ord World st) ia) = false ->
  in_stack (target_at (ord World st) ib) = false ->
  visited (target_at (ord World st) ib) = false ->
  exists st',
    build_target World stat_mtime glob system (S (S (S b))) st A
    = (ORDINAL_ERROR_CIRCULAR, st') /\ same_frame st st'.
Proof.
  intros Hk (La & Ra & Ba & Da & A1 & A2 & A3) (Lb & Rb & Bb & Db & B1 & B2 & B3)
         Sa Va Sb Vb.
  pose proof (same_frame_entered st A ia) as Fa.
  pose proof (entered_target st A ia Ra) as Ta.
  pose proof (entered_fst st A B ia Da A1 A2 A3) as Ea.
  assert (Oa0 : forall j, 0 <= j -> ia <> j ->
            target_at (ord World (snd (entered glob st A ia))) j
            = target_at (ord World st) j)
    by (intros j Hj Hn; apply entered_other; lia).
  pose proof (build_dep_fails (S (S b)) st) as StepA.
  specialize (fun st2 x => StepA st2 A B ia x ORDINAL_ERROR_CIRCULAR
                             La Ra Ba Sa Va Da A1 A2 A3).
  remember (snd (entered glob st A ia)) as sA eqn:EsA.
  rewrite Ea in Ta. clear Ea EsA.
  assert (Sa' : in_stack (target_at (ord World sA) ia) = true)
    by (rewrite Ta; reflexivity).
  assert (La' : lookup_target (ord World sA) A = Some (ia + 1))
    by (rewrite <- La; apply lookup_target_map; apply Fa).
  assert (Ra' : 0 <= ia < target_count (ord World sA))
    by (destruct Fa as (_ & _ & _ & ->); exact Ra).
  destruct (Z.eq_dec ia ib) as [E|N].
  - subst ib. assert (B = A) by congruence. subst B.
    eexists. split.
    + eapply (StepA _ (ia + 1) La).
      * apply (build_on_stack _ _ _ ia); assumption.
      * reflexivity.
      * apply (keep_going_stopped st); [exact Fa | exact Hk].
    + eapply same_frame_trans; [|apply same_frame_failed_at].
      eapply same_frame_trans; [exact Fa|].
      apply same_frame_error_msg.
  - assert (Lb' : lookup_target (ord World sA) B = Some (ib + 1))
      by (rewrite <- Lb; apply lookup_target_map; apply Fa).
    assert (Rb' : 0 <= ib < target_count (ord World sA))
      by (destruct Fa as (_ & _ & _ & ->); exact Rb).
    rewrite <- (Oa0 ib) in Sb, Vb, Db by lia.
    pose proof (same_frame_entered sA B ib) as Fb.
    assert (Oa : target_at (ord World (snd (entered glob sA B ib))) ia
                 = target_at (ord World sA) ia)
      by (apply entered_other; lia).
    pose proof (build_dep_fails (S b) sA) as StepB.
    specialize (fun st2 => StepB st2 B A ib (ia + 1) ORDINAL_ERROR_CIRCULAR
                             Lb' Rb' Bb Sb Vb Db B1 B2 B3 La').
    remember (snd (entered glob sA B ib)) as sB eqn:EsB. clear EsB.
    assert (Fab : same_frame st sB) by (eapply same_frame_trans; eassumption).
    eexists. split.
    + eapply (StepA _ (ib + 1) Lb).
      * eapply StepB.
        -- apply (build_on_stack _ _ _ ia).
           ++ rewrite <- La'. apply lookup_target_map. apply Fb.
           ++ destruct Fb as (_ & _ & _ & ->). exact Ra'.
           ++ exact Ba.
           ++ rewrite Oa. exact Sa'.
        -- reflexivity.
        -- apply (keep_going_stopped st); [exact Fab | exact Hk].
      * reflexivity.
      * apply (keep_going_failed st); [|exact Hk].
        eapply same_frame_trans; [exact Fab|]. apply same_frame_error_msg.
    + eapply same_frame_trans; [|apply same_frame_failed_at].
      eapply same_frame_trans; [|apply same_frame_failed_at].
      eapply same_frame_trans; [exact Fab|].
      apply same_frame_error_msg.
Qed.

Lemma target_at_reset (o : Ordinal) (r : OrdinalResult) (i : Z) :
  target_at (set_targets (set_result o r) (map reset_target (targets o))) i
  = reset_target (target_at o i).
Proof.
  unfold target_at. cbn [targets set_targets set_result].
  change dummy_target with (reset_target dummy_target) at 1.
  apply map_nth.
Qed.

End Run.

(** C6: if target [A] depends on [B] alone and [B] on [A] alone, by names
    that need neither variable nor glob expansion, and the target map
    resolves both names to these targets, then with [keep_going] off and
    the configured directory, if any, accessible, [ordinal_run] on [A]
    returns [ORDINAL_ERROR_CIRCULAR] and gives no command to [system]:
    the list of executed commands is the one it started with. *)
Theorem cycle_is_reported (World : Type)
    (stat_mtime : World -> string -> option Z)
    (glob : World -> string -> glob_result)
    (system : World -> string -> Z * World)
    (chdir : World -> string -> option World)
    (getcwd : World -> option string)
    (st : RunState World) (A B : string) (ia ib : Z) :
  keep_going (config (ord World st)) = false ->
  can_enter chdir st = true ->
  resolves_to (ord World st) A ia -> only_dep (ord World st) ia B ->
  resolves_to (ord World st) B ib -> only_dep (ord World st) ib A ->
  fst (ordinal_run World stat_mtime glob system chdir getcwd st (Some A))
    = ORDINAL_ERROR_CIRCULAR /\
  executed World
    (snd (ordinal_run World stat_mtime glob system chdir getcwd st (Some A)))
    = executed World st.
Proof.
  intros Hk Hc Ra Da Rb Db.
  assert (Ha : depends_only_on (ord World st) ia A B).
  { destruct Ra as (R1 & R2 & R3), Da as (D1 & D2 & D3 & D4).
    unfold depends_only_on. auto 10. }
  assert (Hb : depends_only_on (ord World st) ib B A).
  { destruct Rb as (R1 & R2 & R3), Db as (D1 & D2 & D3 & D4).
    unfold depends_only_on. auto 10. }
  clear Ra Da Rb Db.
  assert (La := proj1 Ha).
  unfold ordinal_run. cbv zeta. rewrite La.
  change (targets (set_result (ord World st) (mkResult 0 0 0 0 0 false)))
    with (targets (ord World st)).
  set (o := set_targets (set_result (ord World st) (mkResult 0 0 0 0 0 false))
              (map reset_target (targets (ord World st)))).
  assert (Cnt : target_count o = target_count (ord World st)).
  { unfold o, target_count. cbn [targets set_targets set_result].
    now rewrite length_map. }
  assert (Step : forall w : World,
            exists st',
              build_target World stat_mtime glob system
                (Z.to_nat (ORD_MAX_RECURSION + 1))
                (mkRun World w o (executed World st) (progress World st)) A
              = (ORDINAL_ERROR_CIRCULAR, st') /\
              executed World st' = executed World st).
  { intros w.
    destruct Ha as (La' & Ra & Ba & Da & A1 & A2 & A3).
    destruct Hb as (Lb & Rb & Bb & Db & B1 & B2 & B3).
    change (Z.to_nat (ORD_MAX_RECURSION + 1)) with (S (S (S 30))).
    destruct (build_cycle World stat_mtime glob system 30
                (mkRun World w o (executed World st) (progress World st))
                A B ia ib) as (st' & E & F1 & _); cbn [ord];
      try (unfold o; rewrite target_at_reset; reflexivity).
    - exact Hk.
    - unfold depends_only_on. cbn [ord].
      repeat split; try assumption; try lia; try (rewrite Cnt; lia).
      unfold o. rewrite target_at_reset. exact Da.
    - unfold depends_only_on. cbn [ord].
      repeat split; try assumption; try lia; try (rewrite Cnt; lia).
      unfold o. rewrite target_at_reset. exact Db.
    - exists st'. split; [exact E | exact F1]. }
  unfold can_enter in Hc. unfold with_ord. cbn [ord world executed progress].
  change (config o) with (config (ord World st)).
  destruct (directory (config (ord World st))) as [dir|].
  - destruct (chdir (world World st) dir) as [w|]; [|discriminate Hc].
    destruct (Step w) as (st' & E & Ex). rewrite E.
    destruct (getcwd (world World st)) as [d|]; [|split; [reflexivity|exact Ex]].
    destruct (chdir (world World st') d); split; try reflexivity; exact Ex.
  - destruct (Step (world World st)) as (st' & E & Ex).
    replace st with (mkRun World (world World st) (ord World st)
                       (executed World st) (progress World st)) at 3 6
      by (destruct st; reflexivity).
    cbn [ord world executed progress].
    fold o. rewrite E. split; [reflexivity|exact Ex].
Qed.

Lemma cycle_is_reported_witness :
  match load cycle_file with
  | Some o =>
      fst (run_quiet o "A") = ORDINAL_ERROR_CIRCULAR /\
      executed unit (snd (run_quiet o "A")) = []
  | None => False
  end.
Proof.
  assert (F : match load cycle_file with
              | Some o =>
                  keep_going (config o) = false /\
                  can_enter quiet_chdir (mkRun unit tt o [] []) = true /\
                  resolves_to o "A" 0 /\ only_dep o 0 "B" /\
                  resolves_to o "B" 1 /\ only_dep o 1 "A"
              | None => False
              end)
    by (vm_compute; repeat split; try reflexivity; discriminate).
  destruct (load cycle_file) as [o|]; [|exact F].
  destruct F as (F1 & F2 & F3 & F4 & F5 & F6).
  exact (cycle_is_reported unit (quiet_stat None) quiet_glob quiet_system
           quiet_chdir quiet_getcwd (mkRun unit tt o [] []) "A" "B" 0 1
           F1 F2 F3 F4 F5 F6).
Defined.

End CycleProofs.

(** ** INI: the lookup order of interpolation *)

Module InterpProofs.
Import CStr Ini IniRef.

Lemma option_match_same {A : Type} (x : option A) :
  match x with Some _ => x | None => x end = x.
Proof. destruct x; reflexivity. Qed.

Lemma starts_with_nil (s : string) : starts_with "" s = true.
Proof. destruct s; reflexivity. Qed.

Section Order.
Variable getenv : string -> option string.

(** The standard lookup of [find_variable], for a name that is neither
    an environment nor a cross-section reference. *)
Lemma standard_lookup (ini : ZoryaIni) (cur var : string)
    (next : option string -> string -> option string) :
  match
    (if negb (is_empty cur)
     then zorya_ini_get ini (Some (make_full_key (Some cur) var))
     else None)
  with
  | Some val => next (Some val) cur
  | None =>
      match zorya_ini_get ini (Some var) with
      | Some val => next (Some val) cur
      | None =>
          match zorya_ini_get ini (Some (make_full_key (Some "default") var)) with
          | Some val => next (Some val) "default"
          | None =>
              match zorya_ini_get ini (Some (make_full_key (Some "project") var)) with
              | Some val => next (Some val) "project"
              | None =>
                  match zorya_ini_get ini (Some (make_full_key (Some "env") var)) with
                  | Some val => next (Some val) "env"
                  | None => None
                  end
              end
          end
      end
  end
  = match first_found ini (lookup_order cur var) with
    | Some (v, sec) => next (Some v) sec
    | None => None
    end.
Proof.
  unfold lookup_order. cbn [first_found].
  change (make_full_key (Some "default") var) with ("default." +++ var).
  change (make_full_key (Some "project") var) with ("project." +++ var).
  change (make_full_key (Some "env") var) with ("env." +++ var).
  destruct cur as [|c s].
  - cbn [is_empty negb make_full_key].
    repeat match goal with
           | |- context [zorya_ini_get ?i ?k] => destruct (zorya_ini_get i k)
           end; reflexivity.
  - cbn [is_empty negb].
    repeat match goal with
           | |- context [zorya_ini_get ?i ?k] => destruct (zorya_ini_get i k)
           end; reflexivity.
Qed.

Lemma find_variable_plain (ini : ZoryaIni) (cur var : string) (depth : Z) :
  plain_name var ->
  find_variable_at getenv ini (Some var) cur depth
  = found_reference getenv ini cur var depth.
Proof.
  intros (Hne & Hs & He & Ha & Hu).
  unfold find_variable_at, find_variable, found_reference.
  destruct var as [|c v]; [contradiction|].
  rewrite Hs. cbv beta iota zeta. rewrite He, Ha.
  rewrite option_match_same. apply standard_lookup.
Qed.

Lemma strstr_default (var d : string) :
  strstr ":-" var = None ->
  strstr ":-" (var +++ (":-" +++ d)) = Some (String.length var).
Proof.
  induction var as [|c v IH]; intros H.
  - destruct d; reflexivity.
  - cbn [strstr] in H. cbn [String.append String.length].
    destruct (starts_with ":-" (String c v)) eqn:P; [discriminate H|].
    destruct (strstr ":-" v) eqn:Q; [discriminate H|].
    specialize (IH eq_refl). cbn [String.append] in IH.
    cbn [strstr]. rewrite IH. cbn [option_map].
    replace (starts_with ":-" (String c (v +++ String ":" (String "-" d))))
      with false; [reflexivity|].
    unfold starts_with in *. cbn [String.prefix] in *.
    destruct (ascii_dec ":" c) as [e|n]; [|reflexivity].
    destruct v as [|c' v']; cbn [String.append String.prefix] in *.
    + reflexivity.
    + destruct (ascii_dec "-" c'); [|reflexivity].
      change (starts_with "" v' = false) in P. rewrite starts_with_nil in P.
      discriminate P.
Qed.

Lemma take_append (a b : string) : take (String.length a) (a +++ b) = a.
Proof.
  unfold take. induction a as [|c a IH]; cbn [String.length String.append].
  - destruct b; reflexivity.
  - cbn [String.substring]. now rewrite IH.
Qed.

Lemma drop_append (a b : string) : drop (String.length a) (a +++ b) = b.
Proof. induction a as [|c a IH]; [reflexivity|exact IH]. Qed.

Lemma drop_default (var d : string) :
  drop (String.length var + 2) (var +++ (":-" +++ d)) = d.
Proof.
  replace (String.length var + 2)%nat with (String.length (var +++ ":-")).
  - replace (var +++ (":-" +++ d)) with ((var +++ ":-") +++ d).
    + apply drop_append.
    + induction var as [|c v IH]; [reflexivity|]. cbn [String.append]. now rewrite IH.
  - induction var as [|c v IH]; [reflexivity|]. cbn [String.append String.length].
    now rewrite IH.
Qed.

Lemma find_variable_default (ini : ZoryaIni) (cur var dflt : string) (depth : Z) :
  plain_name var ->
  find_variable_at getenv ini (Some (var +++ (":-" +++ dflt))) cur depth
  = match found_reference getenv ini cur var depth with
    | Some r => Some r
    | None => resolve_string_at getenv ini (Some dflt) cur (depth + 1)
    end.
Proof.
  intros (Hne & Hs & He & Ha & Hu).
  unfold find_variable_at, find_variable, found_reference.
  destruct var as [|c v]; [contradiction|].
  rewrite (strstr_default _ dflt Hs), take_append, drop_default.
  cbn [String.append]. cbv beta iota zeta. rewrite He, Ha.
  pose proof (standard_lookup ini cur (String c v)
                (fun s sec => resolve_string_at getenv ini s sec (depth + 1))) as L.
  cbv beta in L. rewrite L. clear L.
  destruct (first_found ini (lookup_order cur (String c v))) as [[val sec]|];
    [|reflexivity].
  destruct (resolve_string_at getenv ini (Some val) sec (depth + 1)); reflexivity.
Qed.

Lemma find_close_var (var rest : string) :
  strchr "{" var = false -> strchr "}" var = false ->
  find_close (var +++ String "}" rest) 1 = Some var.
Proof.
  induction var as [|c v IH]; intros H1 H2; [reflexivity|].
  cbn [strchr] in H1, H2.
  apply orb_false_iff in H1. apply orb_false_iff in H2.
  destruct H1 as [C1 H1], H2 as [C2 H2].
  cbn [String.append find_close].
  rewrite Ascii.eqb_sym, C1, Ascii.eqb_sym, C2.
  now rewrite (IH H1 H2).
Qed.

Lemma resolve_scan_skip (fv : string -> option string) (a rest out : string)
    (cap : Z) :
  resolve_scan fv (a +++ rest) (String.length a) out cap
  = resolve_scan fv rest O out cap.
Proof.
  induction a as [|c a IH]; [reflexivity|].
  cbn [String.append String.length resolve_scan]. exact IH.
Qed.

Lemma append_length (a b : string) :
  String.length (a +++ b) = (String.length a + String.length b)%nat.
Proof. induction a as [|c a IH]; [reflexivity|]. cbn. now rewrite IH. Qed.

Lemma append_assoc (a b c : string) : (a +++ b) +++ c = a +++ (b +++ c).
Proof. induction a as [|x a IH]; [reflexivity|]. cbn. now rewrite IH. Qed.

(** The scanner hands the name between the braces to the lookup and
    puts the answer in place of the reference. *)
Lemma reference_replaced (fv : string -> option string) (var rest out : string)
    (cap : Z) :
  starts_with "_" var = false ->
  strchr "{" var = false -> strchr "}" var = false ->
  resolve_scan fv ("${" +++ (var +++ String "}" rest)) O out cap
  = match fv var with
    | Some resolved =>
        match grow_out 17 (zlen out + zlen resolved + 1) cap with
        | None => None
        | Some cap' => resolve_scan fv rest O (out +++ resolved) cap'
        end
    | None => resolve_scan fv rest O out cap
    end.
Proof.
  intros Hu H1 H2.
  assert (Sk : forall o c,
            resolve_scan fv (String "{" (var +++ String "}" rest))
              (String.length var + 2) o c
            = resolve_scan fv rest O o c).
  { intros o c.
    replace (String "{" (var +++ String "}" rest))
      with (("{" +++ var +++ "}") +++ rest)
      by (cbn [String.append]; now rewrite append_assoc).
    replace (String.length var + 2)%nat with (String.length ("{" +++ var +++ "}"))
      by (cbn [String.append String.length]; rewrite append_length; cbn; lia).
    apply resolve_scan_skip. }
  cbn [String.append]. cbn [resolve_scan]. cbn [Ascii.eqb Bool.eqb].
  rewrite (find_close_var var rest H1 H2). rewrite Hu.
  destruct (fv var) as [r|]; [|apply Sk].
  destruct (grow_out 17 (zlen out + zlen r + 1) cap); [apply Sk|reflexivity].
Qed.

(** A value that is one reference is replaced by what the lookup gives. *)
Lemma lone_reference (ini : ZoryaIni) (cur var : string) (depth : Z) :
  0 <= depth <= INTERP_MAX_DEPTH ->
  starts_with "_" var = false ->
  strchr "{" var = false -> strchr "}" var = false ->
  resolve_string_at getenv ini (Some ("${" +++ (var +++ "}"))) cur depth
  = match find_variable_at getenv ini (Some var) cur depth with
    | Some r =>
        option_map (fun _ => r)
          (grow_out 17 (zlen r + 1)
             (let c := zlen ("${" +++ (var +++ "}")) * 2 + 64 in
              if INTERP_MAX_OUTPUT <? c then INTERP_MAX_OUTPUT else c))
    | None => Some EmptyString
    end.
Proof.
  intros Hd Hu H1 H2.
  unfold resolve_string_at, find_variable_at, resolve_string_at, depth_budget.
  replace (INTERP_MAX_DEPTH + 1 - (depth + 1)) with (INTERP_MAX_DEPTH - depth) by lia.
  replace (Z.to_nat (INTERP_MAX_DEPTH + 1 - depth))
    with (S (Z.to_nat (INTERP_MAX_DEPTH - depth))) by lia.
  set (b := Z.to_nat (INTERP_MAX_DEPTH - depth)).
  cbn [resolve_string].
  change (strchr "$" ("${" +++ (var +++ "}"))) with true. cbn [negb].
  cbv zeta.
  rewrite (reference_replaced _ var EmptyString EmptyString _ Hu H1 H2).
  destruct (find_variable getenv (resolve_string getenv b ini) ini (Some var) cur) as [r|];
    [|reflexivity].
  change (zlen "" + zlen r + 1) with (0 + zlen r + 1). rewrite Z.add_0_l.
  destruct (grow_out 17 (zlen r + 1) _); reflexivity.
Qed.

(** The order of the lookups: for a reference name [var] without
    default, [env:] or [@] prefix, leading underscore or brace,
    [find_variable] answers with the value under the first key that
    [zorya_ini_get] finds among [<current>.var], [var], [default.var],
    [project.var], [env.var], in this order, itself resolved one level
    deeper; for [var:-default] it answers the same when that lookup
    gives a value and the resolved default text otherwise; and a stored
    value that is the reference [${var}] resolves to that answer (to the
    empty string when there is none). *)
Lemma lookup_order_of_get (ini : ZoryaIni) (cur var dflt : string)
    (depth : Z) :
  plain_name var ->
  0 <= depth <= INTERP_MAX_DEPTH ->
  strchr "{" var = false -> strchr "}" var = false ->
  find_variable_at getenv ini (Some var) cur depth
    = found_reference getenv ini cur var depth /\
  find_variable_at getenv ini (Some (var +++ (":-" +++ dflt))) cur depth
    = match found_reference getenv ini cur var depth with
      | Some r => Some r
      | None => resolve_string_at getenv ini (Some dflt) cur (depth + 1)
      end /\
  resolve_string_at getenv ini (Some ("${" +++ (var +++ "}"))) cur depth
    = match found_reference getenv ini cur var depth with
      | Some r =>
          option_map (fun _ => r)
            (grow_out 17 (zlen r + 1)
               (let c := zlen ("${" +++ (var +++ "}")) * 2 + 64 in
                if INTERP_MAX_OUTPUT <? c then INTERP_MAX_OUTPUT else c))
      | None => Some EmptyString
      end.
Proof.
  intros H Hd H1 H2. split; [now apply find_variable_plain|].
  split; [now apply find_variable_default|].
  rewrite <- (find_variable_plain ini cur var depth H).
  apply lone_reference; try assumption. apply H.
Qed.

End Order.

(** C4: on the loaded [lost_key_file] every line is stored (21 keys, no
    error), [opt1166] exists at top level with the value [top], and it
    is the first existing key of the order for a reference in [paths];
    yet [zorya_ini_get] does not find it, the reference is answered from
    [default.opt1166], and [paths.base] resolves to [fallback]. *)
Lemma reference_misses_stored_key :
  match load_text lost_key_file with
  | Some (err, ini) =>
      err = ZORYA_INI_OK /\ key_count ini = 21 /\
      stored_value ini "opt1166" = Some "top" /\
      first_existing ini (lookup_order "paths" "opt1166") = Some ("top", "paths") /\
      resolve_reference no_env ini "paths" "opt1166" 0 = Some "top" /\
      zorya_ini_get ini (Some "opt1166") = None /\
      find_variable_at no_env ini (Some "opt1166") "paths" 0 = Some "fallback" /\
      zorya_ini_get ini (Some "paths.base") = Some "fallback"
  | None => False
  end.
Proof. vm_compute. repeat split. Qed.

End InterpProofs.

(** ** INI: malformed lines *)

Module ParserProofs.
Import CStr Ini IniRef.






Section Skip.
Variable read_file : string -> option string.


End Skip.



End ParserProofs.

(* ================================================================== *)
(** * Properties of the further code *)
(* ================================================================== *)

(** ** Byte strings *)

Module StrFacts.
Import Weave.

Lemma substring_all (s : string) : String.substring 0 (String.length s) s = s.
Proof. induction s as [|c s IH]; cbn; [reflexivity|now rewrite IH]. Qed.

Lemma substring_app (a b : string) :
  String.substring 0 (String.length a) (a +++ b) = a.
Proof. induction a as [|c a IH]; cbn; [destruct b; reflexivity|now rewrite IH]. Qed.

Lemma substring_length (s : string) (n : nat) :
  String.length (String.substring 0 n s) = Nat.min n (String.length s).
Proof.
  revert n; induction s as [|c s IH]; intros [|n]; cbn; try reflexivity.
  now rewrite IH.
Qed.

Lemma str_length_app (a b : string) :
  String.length (a +++ b) = (String.length a + String.length b)%nat.
Proof. induction a as [|c a IH]; cbn; [reflexivity|now rewrite IH]. Qed.

Lemma length_snoc (c : ascii) (cur : string) :
  String.length (cur +++ String c "") = S (String.length cur).
Proof. rewrite str_length_app. cbn. lia. Qed.

Lemma str_app_length (a b : string) : zlen (a +++ b) = zlen a + zlen b.
Proof. unfold zlen. rewrite str_length_app. lia. Qed.

Lemma str_app_assoc (a b c : string) : (a +++ b) +++ c = a +++ b +++ c.
Proof. induction a as [|x a IH]; cbn; [reflexivity|now rewrite IH]. Qed.

Lemma str_app_nil_r (a : string) : a +++ "" = a.
Proof. induction a as [|x a IH]; cbn; [reflexivity|now rewrite IH]. Qed.

Lemma zlen_nonneg (s : string) : 0 <= zlen s.
Proof. unfold zlen. lia. Qed.

Lemma drop_app (a b : string) : CStr.drop (String.length a) (a +++ b) = b.
Proof. induction a as [|c a IH]; cbn; [reflexivity|exact IH]. Qed.

Lemma take_all (s : string) : take_bytes s (zlen s) = s.
Proof. unfold take_bytes, zlen. rewrite Nat2Z.id. apply substring_all. Qed.

Lemma take_len (s : string) (n : Z) :
  0 <= n <= zlen s -> zlen (take_bytes s n) = n.
Proof.
  unfold take_bytes, zlen. intros H. rewrite substring_length. lia.
Qed.

Lemma take_c_str (s : string) : take_bytes s (strlen s) = c_str s.
Proof.
  unfold take_bytes, strlen, zlen. rewrite Nat2Z.id.
  induction s as [|c s IH]; cbn; [reflexivity|].
  destruct (Ascii.eqb c NUL); cbn; [reflexivity|now rewrite IH].
Qed.

Lemma c_str_length (s : string) :
  (String.length (c_str s) <= String.length s)%nat.
Proof.
  induction s as [|c s IH]; cbn; [lia|].
  destruct (Ascii.eqb c NUL); cbn; lia.
Qed.

Lemma strlen_bounds (s : string) : 0 <= strlen s <= zlen s.
Proof. unfold strlen, zlen. pose proof (c_str_length s). lia. Qed.

Lemma strlen_plain (s : string) : c_str s = s -> strlen s = zlen s.
Proof. unfold strlen. now intros ->. Qed.

Lemma take_zero (s : string) : take_bytes s 0 = "".
Proof. unfold take_bytes. cbn. destruct s; reflexivity. Qed.

Lemma sub_app_long (a b : string) (k : nat) :
  String.substring 0 (String.length a + k) (a +++ b) = a +++ String.substring 0 k b.
Proof. induction a as [|c a IH]; cbn; [reflexivity|now rewrite IH]. Qed.

Lemma sub_app_short (a b : string) (k : nat) :
  (k <= String.length a)%nat ->
  String.substring 0 k (a +++ b) = String.substring 0 k a.
Proof.
  revert k; induction a as [|c a IH]; intros k Hk.
  - cbn in Hk. assert (k = 0%nat) as -> by lia. destruct b; reflexivity.
  - destruct k as [|k]; [reflexivity|]. cbn. rewrite IH by (cbn in Hk; lia).
    reflexivity.
Qed.

Lemma sub_sub (a : string) (k m : nat) :
  (k <= m)%nat ->
  String.substring 0 k (String.substring 0 m a) = String.substring 0 k a.
Proof.
  revert k m; induction a as [|c a IH]; intros k m H.
  - destruct k, m; reflexivity.
  - destruct k as [|k]; [destruct m; reflexivity|].
    destruct m as [|m]; [lia|]. cbn. rewrite IH by lia. reflexivity.
Qed.

End StrFacts.

(** ** NXH *)
Module NXHMoreProofs.
Import NXH NXHMore.

Lemma range_app (p : Z) (a b : nat) :
  range p a ++ range (p + Z.of_nat a) b = range p (a + b).
Proof.
  revert p; induction a as [|a IH]; intros p.
  - simpl. now rewrite Z.add_0_r.
  - cbn [range Nat.add app]. f_equal.
    rewrite <- IH. f_equal. f_equal. lia.
Qed.

Lemma read64_reads (src : source) (p : Z) : snd (nxh_read64 src p) = range p 8.
Proof.
  unfold nxh_read64. cbn [snd range].
  repeat (f_equal; try lia).
Qed.

Lemma read32_reads (src : source) (p : Z) : snd (nxh_read32 src p) = range p 4.
Proof.
  unfold nxh_read32. cbn [snd range].
  repeat (f_equal; try lia).
Qed.

Lemma blocks_reads (mix : Z -> Z -> Z) (src : source) (n : nat) (s : lanes) :
  lp (nxh_blocks mix src n s) = lp s + 32 * Z.of_nat n /\
  lreads (nxh_blocks mix src n s) = lreads s ++ range (lp s) (32 * n).
Proof.
  revert s; induction n as [|n IH]; intros s.
  - cbn [nxh_blocks]. rewrite Nat.mul_0_r. cbn [range]. rewrite app_nil_r. split; [lia|reflexivity].
  - cbn [nxh_blocks].
    pose proof (read64_reads src (lp s)) as R1.
    pose proof (read64_reads src (lp s + 8)) as R2.
    pose proof (read64_reads src (lp s + 16)) as R3.
    pose proof (read64_reads src (lp s + 24)) as R4.
    destruct (nxh_read64 src (lp s)) as [w1 r1].
    destruct (nxh_read64 src (lp s + 8)) as [w2 r2].
    destruct (nxh_read64 src (lp s + 16)) as [w3 r3].
    destruct (nxh_read64 src (lp s + 24)) as [w4 r4].
    cbn [snd] in *. subst.
    destruct (IH (Lanes (lp s + 32) (mix (v1 s) w1) (mix (v2 s) w2) (mix (v3 s) w3)
                    (mix (v4 s) w4)
                    (lreads s ++ range (lp s) 8 ++ range (lp s + 8) 8 ++
                     range (lp s + 16) 8 ++ range (lp s + 24) 8))) as [E1 E2].
    cbn [lp lreads] in E1, E2. rewrite E1, E2. split; [lia|].
    rewrite <- !app_assoc. f_equal.
    change (lp s + 8) with (lp s + Z.of_nat 8).
    rewrite (app_assoc (range (lp s) 8)), range_app.
    change (lp s + 16) with (lp s + Z.of_nat (8 + 8)).
    rewrite (app_assoc (range (lp s) (8 + 8))), range_app.
    change (lp s + 24) with (lp s + Z.of_nat (8 + 8 + 8)).
    rewrite (app_assoc (range (lp s) (8 + 8 + 8))), range_app.
    change (lp s + 32) with (lp s + Z.of_nat (8 + 8 + 8 + 8)).
    rewrite range_app. f_equal. lia.
Qed.

Lemma words_reads (step : Z -> Z -> Z) (src : source) (n : nat) (p h : Z) (rs : list Z) :
  fst (fst (nxh_words step src n p h rs)) = p + 8 * Z.of_nat n /\
  snd (nxh_words step src n p h rs) = rs ++ range p (8 * n).
Proof.
  revert p h rs; induction n as [|n IH]; intros p h rs.
  - cbn [nxh_words fst snd]. rewrite Nat.mul_0_r. cbn [range]. rewrite app_nil_r.
    split; [lia|reflexivity].
  - cbn [nxh_words].
    pose proof (read64_reads src p) as R.
    destruct (nxh_read64 src p) as [w r]. cbn [snd] in R. subst r.
    destruct (IH (p + 8) (step h w) (rs ++ range p 8)) as [E1 E2].
    rewrite E1, E2. split; [lia|].
    rewrite <- app_assoc. f_equal.
    change (p + 8) with (p + Z.of_nat 8). rewrite range_app. f_equal. lia.
Qed.

Lemma tail_reads (step : Z -> Z -> Z) (src : source) (n : nat) (p h : Z) (rs : list Z) :
  snd (nxh_tail step src n p h rs) = rs ++ range p n.
Proof.
  revert p h rs; induction n as [|n IH]; intros p h rs.
  - cbn [nxh_tail snd range]. now rewrite app_nil_r.
  - cbn [nxh_tail]. rewrite IH. rewrite <- app_assoc. reflexivity.
Qed.


Lemma range_from_zero (a : nat) (p : Z) (b : nat) :
  p = Z.of_nat a -> range 0 a ++ range p b = range 0 (a + b).
Proof. intros ->. rewrite <- range_app. reflexivity. Qed.

Ltac trace_reads len :=
  match goal with
  | |- context [nxh_words ?st ?src ?n ?p ?h ?rs] =>
      let E1 := fresh "E" in let E2 := fresh "E" in
      destruct (words_reads st src n p h rs) as [E1 E2];
      destruct (nxh_words st src n p h rs) as [[p2 h2] rs2];
      cbn [fst snd] in E1, E2; subst p2 rs2
  end;
  match goal with
  | |- context [if ?c then _ else _] =>
      let C := fresh "C" in
      destruct c eqn:C;
      [ apply Z.leb_le in C;
        match goal with
        | |- context [nxh_read32 ?src ?p] =>
            let R := fresh "R" in
            pose proof (read32_reads src p) as R;
            destruct (nxh_read32 src p) as [w r]; cbn [snd] in R; subst r
        end
      | apply Z.leb_gt in C ]
  end;
  match goal with
  | |- context [nxh_tail ?st ?src ?n ?p ?h ?rs] =>
      let E := fresh "E" in
      pose proof (tail_reads st src n p h rs) as E;
      destruct (nxh_tail st src n p h rs) as [[p3 h3] rs3];
      cbn [snd] in E |- *; subst rs3
  end.

(** The reads of the two hash functions. *)
Lemma nxh64_reads (src : source) (len seed : Z) :
  snd (nxh64_steps src len seed) = range 0 (Z.to_nat len) /\
  snd (nxh64_alt_steps src len seed) = range 0 (Z.to_nat len).
Proof.
  assert (Hd : 0 <= len -> 0 <= len / 32 /\ 32 * (len / 32) <= len).
  { intros H. split; [apply Z.div_pos; lia|apply Z.mul_div_le; lia]. }
  assert (Hw : forall p, 0 <= p <= len ->
              0 <= (len - p) / 8 /\ p + 8 * ((len - p) / 8) <= len).
  { intros p H. split; [apply Z.div_pos; lia|].
    pose proof (Z.mul_div_le (len - p) 8). lia. }
  split.
  - unfold nxh64_steps.
    destruct (32 <=? len) eqn:B.
    + apply Z.leb_le in B. destruct (Hd ltac:(lia)) as [D1 D2].
      destruct (blocks_reads nxh_mix src (Z.to_nat (len / 32))
                  (Lanes 0 (u64 (seed + NXH_PRIME_NEXUS + NXH_PRIME_VOID))
                     (u64 (seed + NXH_PRIME_VOID)) seed
                     (u64 (seed - NXH_PRIME_NEXUS)) [])) as [L1 L2].
      cbn [lp lreads app] in L1, L2. rewrite L1, L2.
      rewrite Z2Nat.id in * by lia. rewrite Z.add_0_l in *.
      destruct (Hw (32 * (len / 32)) ltac:(lia)) as [W1 W2].
      trace_reads len.
      * rewrite Z2Nat.id in * by lia.
        rewrite (range_from_zero _ (32 * (len / 32))) by lia.
        rewrite (range_from_zero _ (32 * (len / 32) + 8 * ((len - 32 * (len / 32)) / 8))) by lia.
        rewrite (range_from_zero _ _) by lia. f_equal. lia.
      * rewrite Z2Nat.id in * by lia.
        rewrite (range_from_zero _ (32 * (len / 32))) by lia.
        rewrite (range_from_zero _ _) by lia. f_equal. lia.
    + apply Z.leb_gt in B.
      destruct (Z_le_gt_dec 0 len) as [P|N].
      * destruct (Hw 0 ltac:(lia)) as [W1 W2]. rewrite Z.sub_0_r in *.
        trace_reads len.
        -- cbn [app]. rewrite Z2Nat.id in * by lia. rewrite Z.add_0_l in *.
           change (range 0 (8 * Z.to_nat (len / 8)))
             with (range 0 (8 * Z.to_nat (len / 8))).
           rewrite (range_from_zero _ (8 * (len / 8))) by lia.
           rewrite (range_from_zero _ _) by lia. f_equal. lia.
        -- cbn [app]. rewrite Z2Nat.id in * by lia. rewrite Z.add_0_l in *.
           rewrite (range_from_zero _ _) by lia. f_equal. lia.
      * assert (Z.to_nat len = O) as -> by lia.
        assert (Z.to_nat ((len - 0) / 8) = O) as ->.
        { assert ((len - 0) / 8 < 0) by (apply Z.div_lt_upper_bound; lia). lia. }
        cbn [nxh_words].
        destruct (0 + 4 <=? len) eqn:C; [apply Z.leb_le in C; lia|].
        assert (Z.to_nat (len - 0) = O) as -> by lia. reflexivity.
  - unfold nxh64_alt_steps.
    destruct (32 <=? len) eqn:B.
    + apply Z.leb_le in B. destruct (Hd ltac:(lia)) as [D1 D2].
      destruct (blocks_reads nxh_mix_alt src (Z.to_nat (len / 32))
                  (Lanes 0 (u64 (seed + NXH_PRIME_ALT_1 + NXH_PRIME_ALT_2))
                     (u64 (seed + NXH_PRIME_ALT_2)) seed
                     (u64 (seed - NXH_PRIME_ALT_1)) [])) as [L1 L2].
      cbn [lp lreads app] in L1, L2. rewrite L1, L2.
      rewrite Z2Nat.id in * by lia. rewrite Z.add_0_l in *.
      destruct (Hw (32 * (len / 32)) ltac:(lia)) as [W1 W2].
      trace_reads len.
      * rewrite Z2Nat.id in * by lia.
        rewrite (range_from_zero _ (32 * (len / 32))) by lia.
        rewrite (range_from_zero _ (32 * (len / 32) + 8 * ((len - 32 * (len / 32)) / 8))) by lia.
        rewrite (range_from_zero _ _) by lia. f_equal. lia.
      * rewrite Z2Nat.id in * by lia.
        rewrite (range_from_zero _ (32 * (len / 32))) by lia.
        rewrite (range_from_zero _ _) by lia. f_equal. lia.
    + apply Z.leb_gt in B.
      destruct (Z_le_gt_dec 0 len) as [P|N].
      * destruct (Hw 0 ltac:(lia)) as [W1 W2]. rewrite Z.sub_0_r in *.
        trace_reads len.
        -- cbn [app]. rewrite Z2Nat.id in * by lia. rewrite Z.add_0_l in *.
           rewrite (range_from_zero _ (8 * (len / 8))) by lia.
           rewrite (range_from_zero _ _) by lia. f_equal. lia.
        -- cbn [app]. rewrite Z2Nat.id in * by lia. rewrite Z.add_0_l in *.
           rewrite (range_from_zero _ _) by lia. f_equal. lia.
      * assert (Z.to_nat len = O) as -> by lia.
        assert (Z.to_nat ((len - 0) / 8) = O) as ->.
        { assert ((len - 0) / 8 < 0) by (apply Z.div_lt_upper_bound; lia). lia. }
        cbn [nxh_words].
        destruct (0 + 4 <=? len) eqn:C; [apply Z.leb_le in C; lia|].
        assert (Z.to_nat (len - 0) = O) as -> by lia. reflexivity.
Qed.


Section Agree.
Variables src1 src2 : source.

Lemma read64_agree (p : Z) :
  (forall i, p <= i < p + 8 -> src1 i = src2 i) ->
  nxh_read64 src1 p = nxh_read64 src2 p.
Proof.
  intros H. unfold nxh_read64.
  rewrite (H p), (H (p + 1)), (H (p + 2)), (H (p + 3)), (H (p + 4)),
    (H (p + 5)), (H (p + 6)), (H (p + 7)) by lia.
  reflexivity.
Qed.

Lemma read32_agree (p : Z) :
  (forall i, p <= i < p + 4 -> src1 i = src2 i) ->
  nxh_read32 src1 p = nxh_read32 src2 p.
Proof.
  intros H. unfold nxh_read32.
  rewrite (H p), (H (p + 1)), (H (p + 2)), (H (p + 3)) by lia.
  reflexivity.
Qed.

Lemma blocks_agree (mix : Z -> Z -> Z) (n : nat) (s : lanes) :
  (forall i, lp s <= i < lp s + 32 * Z.of_nat n -> src1 i = src2 i) ->
  nxh_blocks mix src1 n s = nxh_blocks mix src2 n s.
Proof.
  revert s; induction n as [|n IH]; intros s H; [reflexivity|].
  cbn [nxh_blocks].
  rewrite (read64_agree (lp s)), (read64_agree (lp s + 8)),
    (read64_agree (lp s + 16)), (read64_agree (lp s + 24))
    by (intros i Hi; apply H; lia).
  destruct (nxh_read64 src2 (lp s)) as [w1 r1].
  destruct (nxh_read64 src2 (lp s + 8)) as [w2 r2].
  destruct (nxh_read64 src2 (lp s + 16)) as [w3 r3].
  destruct (nxh_read64 src2 (lp s + 24)) as [w4 r4].
  apply IH. cbn [lp]. intros i Hi. apply H. lia.
Qed.

Lemma words_agree (step : Z -> Z -> Z) (n : nat) (p h : Z) (rs : list Z) :
  (forall i, p <= i < p + 8 * Z.of_nat n -> src1 i = src2 i) ->
  nxh_words step src1 n p h rs = nxh_words step src2 n p h rs.
Proof.
  revert p h rs; induction n as [|n IH]; intros p h rs H; [reflexivity|].
  cbn [nxh_words]. rewrite (read64_agree p) by (intros i Hi; apply H; lia).
  destruct (nxh_read64 src2 p) as [w r]. apply IH. intros i Hi. apply H. lia.
Qed.

Lemma tail_agree (step : Z -> Z -> Z) (n : nat) (p h : Z) (rs : list Z) :
  (forall i, p <= i < p + Z.of_nat n -> src1 i = src2 i) ->
  nxh_tail step src1 n p h rs = nxh_tail step src2 n p h rs.
Proof.
  revert p h rs; induction n as [|n IH]; intros p h rs H; [reflexivity|].
  cbn [nxh_tail]. rewrite (H p) by lia. apply IH. intros i Hi. apply H. lia.
Qed.

Ltac same_rest len H :=
  match goal with
  | |- context [nxh_words ?st src1 ?n ?p ?h ?rs] =>
      rewrite (words_agree st n p h rs);
      [ let E1 := fresh "E" in let E2 := fresh "E" in
        destruct (words_reads st src2 n p h rs) as [E1 E2];
        destruct (nxh_words st src2 n p h rs) as [[p2 h2] rs2];
        cbn [fst snd] in E1, E2; subst p2
      | intros i Hi; apply H; lia ]
  end;
  match goal with
  | |- context [if ?c then _ else _] =>
      let C := fresh "C" in
      destruct c eqn:C;
      [ apply Z.leb_le in C;
        match goal with
        | |- context [nxh_read32 src1 ?p] =>
            rewrite (read32_agree p) by (intros i Hi; apply H; lia);
            destruct (nxh_read32 src2 p) as [w r]
        end
      | apply Z.leb_gt in C ]
  end;
  match goal with
  | |- context [nxh_tail ?st src1 ?n ?p ?h ?rs] =>
      rewrite (tail_agree st n p h rs) by (intros i Hi; apply H; lia);
      reflexivity
  end.

Lemma nxh64_agree (len seed : Z) :
  (forall i, 0 <= i < len -> src1 i = src2 i) ->
  nxh64_steps src1 len seed = nxh64_steps src2 len seed /\
  nxh64_alt_steps src1 len seed = nxh64_alt_steps src2 len seed.
Proof.
  intros H.
  assert (Hd : 0 <= len -> 0 <= len / 32 /\ 32 * (len / 32) <= len).
  { intros P. split; [apply Z.div_pos; lia|apply Z.mul_div_le; lia]. }
  assert (Hw : forall p, 0 <= p <= len ->
              0 <= (len - p) / 8 /\ p + 8 * ((len - p) / 8) <= len).
  { intros p P. split; [apply Z.div_pos; lia|].
    pose proof (Z.mul_div_le (len - p) 8). lia. }
  assert (Hneg : len < 0 -> Z.to_nat ((len - 0) / 8) = O /\ Z.to_nat (len - 0) = O).
  { intros N. split; [|lia].
    assert ((len - 0) / 8 < 0) by (apply Z.div_lt_upper_bound; lia). lia. }
  split.
  - unfold nxh64_steps.
    destruct (32 <=? len) eqn:B.
    + apply Z.leb_le in B. destruct (Hd ltac:(lia)) as [D1 D2].
      rewrite (blocks_agree nxh_mix)
        by (cbn [lp]; intros i Hi; apply H; rewrite Z2Nat.id in Hi; lia).
      match goal with
      | |- context [nxh_blocks ?m src2 ?n ?s] =>
          destruct (blocks_reads m src2 n s) as [L1 _];
          destruct (nxh_blocks m src2 n s) as [p1 a b c d rs1]
      end.
      cbn [lp v1 v2 v3 v4 lreads] in *. rewrite Z2Nat.id in L1 by lia. subst p1.
      destruct (Hw (0 + 32 * (len / 32)) ltac:(lia)) as [W1 W2].
      same_rest len H.
    + apply Z.leb_gt in B.
      destruct (Z_le_gt_dec 0 len) as [P|N].
      * destruct (Hw 0 ltac:(lia)) as [W1 W2]. same_rest len H.
      * destruct (Hneg ltac:(lia)) as [N1 N2]. rewrite N1. cbn [nxh_words].
        destruct (0 + 4 <=? len) eqn:C; [apply Z.leb_le in C; lia|].
        rewrite N2. reflexivity.
  - unfold nxh64_alt_steps.
    destruct (32 <=? len) eqn:B.
    + apply Z.leb_le in B. destruct (Hd ltac:(lia)) as [D1 D2].
      rewrite (blocks_agree nxh_mix_alt)
        by (cbn [lp]; intros i Hi; apply H; rewrite Z2Nat.id in Hi; lia).
      match goal with
      | |- context [nxh_blocks ?m src2 ?n ?s] =>
          destruct (blocks_reads m src2 n s) as [L1 _];
          destruct (nxh_blocks m src2 n s) as [p1 a b c d rs1]
      end.
      cbn [lp v1 v2 v3 v4 lreads] in *. rewrite Z2Nat.id in L1 by lia. subst p1.
      destruct (Hw (0 + 32 * (len / 32)) ltac:(lia)) as [W1 W2].
      same_rest len H.
    + apply Z.leb_gt in B.
      destruct (Z_le_gt_dec 0 len) as [P|N].
      * destruct (Hw 0 ltac:(lia)) as [W1 W2]. same_rest len H.
      * destruct (Hneg ltac:(lia)) as [N1 N2]. rewrite N1. cbn [nxh_words].
        destruct (0 + 4 <=? len) eqn:C; [apply Z.leb_le in C; lia|].
        rewrite N2. reflexivity.
Qed.

End Agree.

(** [nxh64] and [nxh64_alt] read the bytes at offsets 0 .. len-1 of the
    buffer, each once and in order, and nothing else; so the digests
    depend on the buffer only through these bytes. *)
Theorem nxh64_reads_only_buffer (src : source) (len seed : Z) :
  run_reads (nxh64_run (Some src) len seed) = range 0 (Z.to_nat len) /\
  run_reads (nxh64_alt_run (Some src) len seed) = range 0 (Z.to_nat len) /\
  forall src' : source,
    (forall i, 0 <= i < len -> src i = src' i) ->
    nxh64 (Some src) len seed = nxh64 (Some src') len seed /\
    nxh64_alt (Some src) len seed = nxh64_alt (Some src') len seed.
Proof.
  destruct (nxh64_reads src len seed) as (R1 & R2).
  unfold nxh64, nxh64_alt, nxh64_run, nxh64_alt_run.
  split; [destruct (nxh64_steps src len seed); exact R1|].
  split; [destruct (nxh64_alt_steps src len seed); exact R2|].
  intros src' H. destruct (nxh64_agree src src' len seed H) as [A1 A2].
  rewrite A1, A2. split; reflexivity.
Qed.

(** *** Integer hashing *)

Lemma testbit_high (x i : Z) : 0 <= x < 2 ^ 64 -> 64 <= i -> Z.testbit x i = false.
Proof.
  intros Hx Hi. destruct (Z.eq_dec x 0) as [->|N]; [apply Z.bits_0|].
  apply Z.bits_above_log2; [lia|].
  assert (Z.log2 x < 64) by (apply Z.log2_lt_pow2; lia). lia.
Qed.

Lemma xorshift_range (x k : Z) :
  0 <= x < 2 ^ 64 -> 0 <= k -> 0 <= Z.lxor x (Z.shiftr x k) < 2 ^ 64.
Proof.
  intros Hx Hk.
  assert (0 <= Z.shiftr x k) by (apply Z.shiftr_nonneg; lia).
  assert (0 <= Z.lxor x (Z.shiftr x k)) by (apply Z.lxor_nonneg; lia).
  split; [assumption|].
  destruct (Z.eq_dec (Z.lxor x (Z.shiftr x k)) 0) as [->|N]; [lia|].
  apply Z.log2_lt_pow2; [lia|].
  destruct (Z.lt_ge_cases (Z.log2 (Z.lxor x (Z.shiftr x k))) 64) as [L|G]; [exact L|].
  exfalso.
  pose proof (Z.bit_log2 (Z.lxor x (Z.shiftr x k)) ltac:(lia)) as B.
  rewrite Z.lxor_spec, Z.shiftr_spec in B by lia.
  rewrite !testbit_high in B by lia. discriminate B.
Qed.

(** [h ^= h >> k] loses nothing when [2 * k >= 64] ... *)
Lemma xorshift_inj_wide (x y k : Z) :
  0 <= x < 2 ^ 64 -> 0 <= y < 2 ^ 64 -> 32 <= k ->
  Z.lxor x (Z.shiftr x k) = Z.lxor y (Z.shiftr y k) -> x = y.
Proof.
  intros Hx Hy Hk E.
  assert (R : forall z, 0 <= z < 2 ^ 64 ->
            Z.lxor (Z.lxor z (Z.shiftr z k)) (Z.shiftr (Z.lxor z (Z.shiftr z k)) k) = z).
  { intros z Hz. apply Z.bits_inj'. intros i Hi.
    rewrite !Z.lxor_spec, !Z.shiftr_spec, !Z.lxor_spec, !Z.shiftr_spec by lia.
    rewrite (testbit_high z (i + k + k)) by lia.
    destruct (Z.testbit z i), (Z.testbit z (i + k)); reflexivity. }
  rewrite <- (R x Hx), <- (R y Hy), E. reflexivity.
Qed.

(** ... and when [3 * k >= 64]. *)
Lemma xorshift_inj_29 (x y : Z) :
  0 <= x < 2 ^ 64 -> 0 <= y < 2 ^ 64 ->
  Z.lxor x (Z.shiftr x 29) = Z.lxor y (Z.shiftr y 29) -> x = y.
Proof.
  intros Hx Hy E.
  assert (R : forall z, 0 <= z < 2 ^ 64 ->
            Z.lxor (Z.lxor (Z.lxor z (Z.shiftr z 29))
                      (Z.shiftr (Z.lxor z (Z.shiftr z 29)) 29))
                   (Z.shiftr (Z.lxor z (Z.shiftr z 29)) 58) = z).
  { intros z Hz. apply Z.bits_inj'. intros i Hi.
    rewrite !Z.lxor_spec, !Z.shiftr_spec, !Z.lxor_spec, !Z.shiftr_spec by lia.
    replace (i + 29 + 29) with (i + 58) by lia.
    rewrite (testbit_high z (i + 58 + 29)) by lia.
    destruct (Z.testbit z i), (Z.testbit z (i + 29)), (Z.testbit z (i + 58));
      reflexivity. }
  rewrite <- (R x Hx), <- (R y Hy), E. reflexivity.
Qed.

(** Multiplication by an odd constant is invertible modulo [2^64]. *)
Lemma mul_odd_inj (p q x y : Z) :
  u64 (p * q) = 1 -> 0 <= x < 2 ^ 64 -> 0 <= y < 2 ^ 64 ->
  u64 (x * p) = u64 (y * p) -> x = y.
Proof.
  unfold u64. intros Hpq Hx Hy E.
  assert (F : forall z, (z * p mod 2 ^ 64 * q) mod 2 ^ 64 = z mod 2 ^ 64).
  { intros z. rewrite Z.mul_mod_idemp_l by lia.
    rewrite <- Z.mul_assoc, <- Z.mul_mod_idemp_r by lia.
    rewrite Hpq, Z.mul_1_r. reflexivity. }
  pose proof (F x) as Fx. pose proof (F y) as Fy.
  rewrite E in Fx. rewrite Fx in Fy.
  rewrite !Z.mod_small in Fy by lia. exact Fy.
Qed.

Lemma u64_range (x : Z) : 0 <= u64 x < 2 ^ 64.
Proof. unfold u64. apply Z.mod_pos_bound. lia. Qed.

Lemma nxh_avalanche_inj (x y : Z) :
  0 <= x < 2 ^ 64 -> 0 <= y < 2 ^ 64 ->
  nxh_avalanche x = nxh_avalanche y -> x = y.
Proof.
  intros Hx Hy E. unfold nxh_avalanche in E. cbv zeta in E.
  apply xorshift_inj_wide in E; try apply u64_range; [|lia].
  apply (mul_odd_inj _ 0xe9e9f4c41d6df849) in E;
    [| vm_compute; reflexivity | apply xorshift_range; [apply u64_range|lia] ..].
  apply xorshift_inj_29 in E; try apply u64_range.
  apply (mul_odd_inj _ 0xba79078168d4baf) in E;
    [| vm_compute; reflexivity | apply xorshift_range; [assumption|lia] ..].
  apply xorshift_inj_wide in E; try assumption. lia.
Qed.

Lemma add_const_inj (A B c : Z) : u64 (A + c) = u64 (B + c) -> u64 A = u64 B.
Proof.
  unfold u64. intros E.
  replace A with (A + c - c) at 1 by lia. replace B with (B + c - c) at 1 by lia.
  rewrite <- (Zminus_mod_idemp_l (A + c)), <- (Zminus_mod_idemp_l (B + c)).
  now rewrite E.
Qed.

(** [nxh_int64] and [nxh_int32] never map two different values to the
    same digest. *)
Theorem nxh_int_no_collision (a b : Z) :
  a <> b ->
  (0 <= a < 2 ^ 64 -> 0 <= b < 2 ^ 64 -> nxh_int64 a <> nxh_int64 b) /\
  (0 <= a < 2 ^ 32 -> 0 <= b < 2 ^ 32 -> nxh_int32 a <> nxh_int32 b).
Proof.
  intros N.
  assert (P : 0 <= NXH_PRIME_NEXUS) by (unfold NXH_PRIME_NEXUS; lia).
  split; intros Ha Hb E; apply N; unfold nxh_int64, nxh_int32 in E;
    apply nxh_avalanche_inj in E; try apply u64_range;
    apply add_const_inj in E;
    apply (mul_odd_inj _ 0x887493432badb37) in E; try assumption; try lia;
    vm_compute; reflexivity.
Qed.

Lemma nxh_int_no_collision_witness :
  (0 <= 5 < 2 ^ 64 -> 0 <= 6 < 2 ^ 64 -> nxh_int64 5 <> nxh_int64 6) /\
  (0 <= 5 < 2 ^ 32 -> 0 <= 6 < 2 ^ 32 -> nxh_int32 5 <> nxh_int32 6).
Proof. apply (nxh_int_no_collision 5 6); lia. Defined.

End NXHMoreProofs.

(** ** DAGGER *)

Module DaggerMore.
Import Dagger DaggerInv.

(** *** [dagger_next_pow2] *)

Lemma smear_step (x y w : Z) :
  0 < w ->
  (forall i, 0 <= i -> Z.testbit y i = true <-> any_bit x i w) ->
  forall i, 0 <= i ->
    Z.testbit (Z.lor y (Z.shiftr y w)) i = true <-> any_bit x i (2 * w).
Proof.
  intros Hw H i Hi. rewrite Z.lor_spec, Z.shiftr_spec, orb_true_iff by lia.
  rewrite (H i Hi), (H (i + w)) by lia. unfold any_bit. split.
  - intros [(j & Hj & B)|(j & Hj & B)]; exists j; split; auto; lia.
  - intros (j & Hj & B). destruct (Z.lt_ge_cases j (i + w)); [left|right];
      exists j; split; auto; lia.
Qed.

Lemma smear_bits (x : Z) :
  0 < x < 2 ^ 64 ->
  let n := Z.lor x (Z.shiftr x 1) in
  let n := Z.lor n (Z.shiftr n 2) in
  let n := Z.lor n (Z.shiftr n 4) in
  let n := Z.lor n (Z.shiftr n 8) in
  let n := Z.lor n (Z.shiftr n 16) in
  let n := Z.lor n (Z.shiftr n 32) in
  n = Z.ones (Z.log2 x + 1).
Proof.
  intros Hx. cbv zeta.
  assert (H1 : forall i, 0 <= i -> Z.testbit x i = true <-> any_bit x i 1).
  { intros i Hi. unfold any_bit. split.
    - intros B. exists i. split; [lia|exact B].
    - intros (j & Hj & B). replace i with j by lia. exact B. }
  pose proof (smear_step x _ 1 ltac:(lia) H1) as H2.
  pose proof (smear_step x _ 2 ltac:(lia) H2) as H4.
  pose proof (smear_step x _ 4 ltac:(lia) H4) as H8.
  pose proof (smear_step x _ 8 ltac:(lia) H8) as H16.
  pose proof (smear_step x _ 16 ltac:(lia) H16) as H32.
  pose proof (smear_step x _ 32 ltac:(lia) H32) as H64.
  change (2 * 32) with 64 in H64.
  assert (L : 0 <= Z.log2 x < 64).
  { split; [apply Z.log2_nonneg|apply Z.log2_lt_pow2; lia]. }
  apply Z.bits_inj'. intros i Hi.
  apply eq_true_iff_eq. rewrite (H64 i Hi).
  rewrite Z.testbit_ones_nonneg by lia. unfold any_bit. split.
  - intros (j & Hj & B). apply Z.ltb_lt.
    destruct (Z.lt_ge_cases (Z.log2 x) j) as [G|G].
    + rewrite Z.bits_above_log2 in B by lia. discriminate B.
    + lia.
  - intros B. apply Z.ltb_lt in B.
    exists (Z.log2 x). split; [lia|]. apply Z.bit_log2. lia.
Qed.

(** Above 1 the bit smearing of [dagger_next_pow2] computes
    [2 ^ (log2 (n - 1) + 1)]. *)
Lemma next_pow2_log2 (n : Z) :
  2 <= n <= 2 ^ 63 -> dagger_next_pow2 n = 2 ^ (Z.log2 (n - 1) + 1).
Proof.
  intros Hn. unfold dagger_next_pow2.
  destruct (n =? 0) eqn:Z0; [apply Z.eqb_eq in Z0; lia|].
  assert (U : u64 (n - 1) = n - 1) by (unfold u64; apply Z.mod_small; lia).
  rewrite U.
  pose proof (smear_bits (n - 1) ltac:(lia)) as S. cbv zeta in S. rewrite S.
  assert (L : 0 <= Z.log2 (n - 1) < 63).
  { split; [apply Z.log2_nonneg|apply Z.log2_lt_pow2; lia]. }
  rewrite Z.ones_equiv.
  replace (Z.pred (2 ^ (Z.log2 (n - 1) + 1)) + 1) with (2 ^ (Z.log2 (n - 1) + 1)) by lia.
  assert (P : 2 ^ (Z.log2 (n - 1) + 1) <= 2 ^ 63) by (apply Z.pow_le_mono_r; lia).
  pose proof (Z.pow_pos_nonneg 2 (Z.log2 (n - 1) + 1) ltac:(lia) ltac:(lia)).
  unfold u64. apply Z.mod_small. lia.
Qed.

Lemma log2_bounds (n : Z) :
  2 <= n <= 2 ^ 63 ->
  0 <= Z.log2 (n - 1) + 1 <= 63 /\
  n <= 2 ^ (Z.log2 (n - 1) + 1) /\ 2 ^ (Z.log2 (n - 1) + 1) < 2 * n.
Proof.
  intros Hn.
  assert (L : 0 <= Z.log2 (n - 1) < 63).
  { split; [apply Z.log2_nonneg|apply Z.log2_lt_pow2; lia]. }
  pose proof (Z.log2_spec (n - 1) ltac:(lia)) as [Lo Hi].
  replace (Z.succ (Z.log2 (n - 1))) with (Z.log2 (n - 1) + 1) in Hi by lia.
  rewrite Z.pow_add_r in * by lia. change (2 ^ 1) with 2 in *. lia.
Qed.

(** [dagger_next_pow2] gives the least power of two that is not below
    its argument. *)
Theorem dagger_next_pow2_least (n : Z) :
  1 <= n <= 2 ^ 63 ->
  exists k, 0 <= k <= 63 /\ dagger_next_pow2 n = 2 ^ k /\
            n <= 2 ^ k /\ 2 ^ k < 2 * n.
Proof.
  intros Hn. destruct (Z.eq_dec n 1) as [->|N1].
  - exists 0. vm_compute. repeat split; discriminate.
  - exists (Z.log2 (n - 1) + 1).
    destruct (log2_bounds n ltac:(lia)) as (B1 & B2 & B3).
    split; [exact B1|]. split; [apply next_pow2_log2; lia|]. split; assumption.
Qed.

Lemma dagger_next_pow2_least_witness :
  exists k, 0 <= k <= 63 /\ dagger_next_pow2 33 = 2 ^ k /\
            33 <= 2 ^ k /\ 2 ^ k < 2 * 33.
Proof. apply (dagger_next_pow2_least 33). lia. Defined.


(** *** Slots *)

Section Slots.
Context {V : Type}.
Implicit Types T : DaggerTable V.

Lemma slot_in_range T (h : Z) :
  table_ok T -> 0 <= dagger_slot T h < Z.of_nat (List.length (entries T)).
Proof.
  intros (k & Hk & _ & Hm & Hl). unfold dagger_slot. rewrite Hm, Hl.
  replace (2 ^ k - 1) with (Z.ones k) by (rewrite Z.ones_equiv; lia).
  rewrite Z.land_ones by lia.
  rewrite Z2Nat.id by (apply Z.pow_nonneg; lia).
  apply Z.mod_pos_bound. apply Z.pow_pos_nonneg; lia.
Qed.

Lemma slot_at_put_eq T (i : Z) (e : DaggerEntry V) :
  0 <= i < Z.of_nat (List.length (entries T)) -> slot_at (slot_put T i e) i = e.
Proof.
  intros H. unfold slot_at, slot_put. cbn [entries set_entries].
  apply nth_list_set_eq. lia.
Qed.

Lemma slot_at_put_ne T (i j : Z) (e : DaggerEntry V) :
  0 <= i -> 0 <= j -> i <> j -> slot_at (slot_put T i e) j = slot_at T j.
Proof.
  intros Hi Hj N. unfold slot_at, slot_put. cbn [entries set_entries].
  apply nth_list_set_ne. lia.
Qed.

Lemma slot_at_empty (n : nat) (i : Z) T :
  entries T = repeat empty_entry n -> slot_at T i = empty_entry.
Proof.
  intros E. unfold slot_at. rewrite E.
  destruct (Nat.lt_ge_cases (Z.to_nat i) n) as [L|G].
  - apply nth_repeat_lt. exact L.
  - apply nth_overflow. rewrite repeat_length. exact G.
Qed.

Lemma default_key_eq_refl (k : string) (klen : Z) :
  dagger_key_eq_default k klen k klen = true.
Proof.
  unfold dagger_key_eq_default, memcmp_eq. rewrite Z.eqb_refl. cbn [negb].
  apply String.eqb_refl.
Qed.

(** A key that sits in its home slot is found by the first probe. *)
Lemma get_at_home T (k : string) (klen : Z) :
  klen <> 0 ->
  occupied (slot_at T (home T k klen)) = true ->
  slot_matches T (slot_at T (home T k klen)) (hash1 T k klen) k klen = true ->
  let g := dagger_get T (Some k) klen in
  g_result g = DAGGER_OK /\ g_value g = value (slot_at T (home T k klen)) /\
  g_probes g = 1.
Proof.
  intros Hk Ho Hm. unfold dagger_get.
  destruct (klen =? 0) eqn:Z0; [apply Z.eqb_eq in Z0; contradiction|].
  cbv zeta. cbn [get_rh]. fold (home T k klen). rewrite Ho, Hm. cbn [negb].
  repeat split.
Qed.

(** An empty home slot ends the lookup at once. *)
Lemma get_at_empty_home T (k : string) (klen : Z) :
  klen <> 0 ->
  occupied (slot_at T (home T k klen)) = false ->
  let g := dagger_get T (Some k) klen in
  g_result g = DAGGER_NOT_FOUND /\ g_value g = None /\ g_probes g = 1.
Proof.
  intros Hk Ho. unfold dagger_get.
  destruct (klen =? 0) eqn:Z0; [apply Z.eqb_eq in Z0; contradiction|].
  cbv zeta. cbn [get_rh]. fold (home T k klen). rewrite Ho. cbn [negb].
  repeat split.
Qed.

(** *** Insertion into an empty home slot, then lookup *)

(** The entry [dagger_insert_internal] builds for a new key. *)
Lemma set_at_empty_home T (k : string) (klen : Z) (v : option V) (replace : bool) :
  table_ok T -> below_load T -> klen <> 0 ->
  occupied (slot_at T (home T k klen)) = false ->
  exists T',
    dagger_set T (Some k) klen v replace = Some (DAGGER_OK, T') /\
    count T' = u64 (count T + 1) /\ key_eq T' = key_eq T /\
    home T' k klen = home T k klen /\ hash1 T' k klen = hash1 T k klen /\
    slot_at T' (home T k klen)
      = mkEntry (hash1 T k klen) (hash2 T k klen) k v klen 0 true false.
Proof.
  intros Hok Hload Hk Ho.
  pose proof (slot_in_range T (hash1 T k klen) Hok) as Hr.
  unfold dagger_set.
  destruct (klen =? 0) eqn:Z0; [apply Z.eqb_eq in Z0; contradiction|].
  cbv zeta. unfold below_load in Hload.
  destruct (u64 (capacity T * DAGGER_LOAD_FACTOR_PERCENT) / 100 <=? count T) eqn:L;
    [apply Z.leb_le in L; lia|].
  unfold dagger_insert_internal, insert_fuel.
  replace (Z.to_nat (capacity T) + Z.to_nat DAGGER_MAX_CUCKOO_CYCLES + 2)%nat
    with (S (Z.to_nat (capacity T) + Z.to_nat DAGGER_MAX_CUCKOO_CYCLES + 1)) by lia.
  cbn [insert_loop]. fold (home T k klen) in *. rewrite Ho. cbn [negb].
  eexists. split; [reflexivity|]. split; [reflexivity|]. split; [reflexivity|].
  split; [reflexivity|]. split; [reflexivity|].
  unfold slot_at, set_counters. cbn [entries].
  apply (slot_at_put_eq T). exact Hr.
Qed.

(** On a table below its load threshold, binding a key whose home slot is
    free succeeds, counts the key, and the key is then found at the
    first probe with the value bound. *)
Theorem set_then_get T (k : string) (klen : Z) (v : option V) (replace : bool) :
  table_ok T -> below_load T -> key_eq T = dagger_key_eq_default ->
  klen <> 0 ->
  occupied (slot_at T (home T k klen)) = false ->
  exists T',
    dagger_set T (Some k) klen v replace = Some (DAGGER_OK, T') /\
    count T' = u64 (count T + 1) /\
    g_result (dagger_get T' (Some k) klen) = DAGGER_OK /\
    g_value (dagger_get T' (Some k) klen) = v /\
    g_probes (dagger_get T' (Some k) klen) = 1.
Proof.
  intros Hok Hload Heq Hk Ho.
  destruct (set_at_empty_home T k klen v replace Hok Hload Hk Ho)
    as (T' & E & C & Q & Hh & H1 & Hs).
  exists T'. split; [exact E|]. split; [exact C|].
  destruct (get_at_home T' k klen Hk) as (G1 & G2 & G3).
  - rewrite Hh, Hs. reflexivity.
  - rewrite Hh, Hs, H1. unfold slot_matches. cbn [hash_primary key_len key].
    rewrite Q, Heq, !Z.eqb_refl. cbn [andb]. apply default_key_eq_refl.
  - rewrite Hh, Hs in G2. cbn [value] in G2. auto.
Qed.

(** *** Lookups leave the table alone *)

Lemma get_rh_stats (fuel : nat) T (p l h1 : Z) (k : string) (klen idx probes : Z) :
  get_rh fuel (set_lookup_stats T p l) h1 k klen idx probes
    = get_rh fuel T h1 k klen idx probes.
Proof.
  revert idx probes; induction fuel as [|f IH]; intros idx probes; cbn [get_rh];
    change (slot_at (set_lookup_stats T p l) idx) with (slot_at T idx);
    change (slot_matches (set_lookup_stats T p l)) with (slot_matches T);
    change (next_idx (set_lookup_stats T p l) idx) with (next_idx T idx);
    [reflexivity|].
  rewrite IH. reflexivity.
Qed.

Lemma get_cuckoo_stats (n : nat) T (p l h2 : Z) (k : string) (klen idx probes : Z) :
  get_cuckoo n (set_lookup_stats T p l) h2 k klen idx probes
    = get_cuckoo n T h2 k klen idx probes.
Proof.
  revert idx probes; induction n as [|f IH]; intros idx probes; cbn [get_cuckoo];
    [reflexivity|].
  change (slot_at (set_lookup_stats T p l) idx) with (slot_at T idx).
  change (slot_matches_alt (set_lookup_stats T p l)) with (slot_matches_alt T).
  change (next_idx (set_lookup_stats T p l) idx) with (next_idx T idx).
  rewrite IH. reflexivity.
Qed.

Lemma get_table_stats T (k : option string) (klen : Z) :
  exists p l, g_table (dagger_get T k klen) = set_lookup_stats T p l.
Proof.
  unfold dagger_get. destruct k as [k|].
  2:{ exists (total_probes T), (total_lookups T). destruct T; reflexivity. }
  destruct (klen =? 0).
  { exists (total_probes T), (total_lookups T). destruct T; reflexivity. }
  cbv zeta. destruct (get_rh _ _ _ _ _ _ _); try (eexists; eexists; reflexivity).
  destruct (get_cuckoo _ _ _ _ _ _ _) as [[r v] pr]. eexists; eexists; reflexivity.
Qed.

Lemma get_after_stats T (p l : Z) (k : option string) (klen : Z) :
  let g := dagger_get T k klen in
  let g' := dagger_get (set_lookup_stats T p l) k klen in
  g_result g' = g_result g /\ g_value g' = g_value g /\ g_probes g' = g_probes g.
Proof.
  cbv zeta. unfold dagger_get. destruct k as [k|]; [|repeat split].
  destruct (klen =? 0); [repeat split|]. cbv zeta.
  change (hash1 (set_lookup_stats T p l) k klen) with (hash1 T k klen).
  change (hash2 (set_lookup_stats T p l) k klen) with (hash2 T k klen).
  change (dagger_slot (set_lookup_stats T p l)) with (dagger_slot T).
  rewrite get_rh_stats.
  destruct (get_rh _ _ _ _ _ _ _) as [v0 pr0|pr0|pr0];
    [repeat split|repeat split|].
  rewrite get_cuckoo_stats.
  destruct (get_cuckoo _ _ _ _ _ _ _) as [[r v] pr]. repeat split.
Qed.

(** [dagger_get] changes nothing but the lookup statistics: the slots,
    the count and the geometry stay, and any lookup made afterwards
    answers as it would have before. *)
Theorem dagger_get_readonly T (k k' : option string) (klen klen' : Z) :
  let T' := g_table (dagger_get T k klen) in
  entries T' = entries T /\ count T' = count T /\ capacity T' = capacity T /\
  g_result (dagger_get T' k' klen') = g_result (dagger_get T k' klen') /\
  g_value (dagger_get T' k' klen') = g_value (dagger_get T k' klen') /\
  g_probes (dagger_get T' k' klen') = g_probes (dagger_get T k' klen').
Proof.
  cbv zeta. destruct (get_table_stats T k klen) as (p & l & ->).
  split; [reflexivity|]. split; [reflexivity|]. split; [reflexivity|].
  apply get_after_stats.
Qed.


(** *** A second [dagger_set] of a key sitting in its home slot *)

(** Binding a key that already sits in its home slot: without [replace]
    the call answers [DAGGER_EXISTS] and leaves the table as it is; with
    [replace] it stores the new value, the count stays, and the key is
    then found with that value. *)
Theorem set_existing T (k : string) (klen : Z) (v : option V) :
  table_ok T -> below_load T -> key_eq T = dagger_key_eq_default -> klen <> 0 ->
  occupied (slot_at T (home T k klen)) = true ->
  slot_matches T (slot_at T (home T k klen)) (hash1 T k klen) k klen = true ->
  dagger_set T (Some k) klen v false = Some (DAGGER_EXISTS, T) /\
  exists T',
    dagger_set T (Some k) klen v true = Some (DAGGER_OK, T') /\
    count T' = count T /\
    g_result (dagger_get T' (Some k) klen) = DAGGER_OK /\
    g_value (dagger_get T' (Some k) klen) = v.
Proof.
  intros Hok Hload Heq Hk Ho Hm.
  pose proof (slot_in_range T (hash1 T k klen) Hok) as Hr.
  assert (Hm' := Hm). unfold slot_matches in Hm'.
  unfold dagger_set.
  destruct (klen =? 0) eqn:Z0; [apply Z.eqb_eq in Z0; contradiction|].
  cbv zeta. unfold below_load in Hload.
  destruct (u64 (capacity T * DAGGER_LOAD_FACTOR_PERCENT) / 100 <=? count T) eqn:L;
    [apply Z.leb_le in L; lia|].
  unfold dagger_insert_internal, insert_fuel.
  replace (Z.to_nat (capacity T) + Z.to_nat DAGGER_MAX_CUCKOO_CYCLES + 2)%nat
    with (S (Z.to_nat (capacity T) + Z.to_nat DAGGER_MAX_CUCKOO_CYCLES + 1)) by lia.
  cbn [insert_loop]. fold (home T k klen) in *. rewrite Ho, Hm'. cbn [negb].
  split; [reflexivity|].
  eexists. split; [reflexivity|]. split; [reflexivity|].
  match goal with |- context [dagger_get ?X _ _] => set (T' := X) end.
  assert (Hs : slot_at T' (home T' k klen)
               = with_kv (slot_at T (home T k klen)) k klen v).
  { change (home T' k klen) with (home T k klen). apply (slot_at_put_eq T). exact Hr. }
  apply andb_true_iff in Hm'. destruct Hm' as [Hm1 Hm3].
  apply andb_true_iff in Hm1. destruct Hm1 as [Hm1 Hm2].
  apply Z.eqb_eq in Hm2.
  destruct (get_at_home T' k klen Hk) as (G1 & G2 & G3).
  - rewrite Hs. exact Ho.
  - rewrite Hs. unfold slot_matches, with_kv. cbn [hash_primary key_len key].
    change (hash1 T' k klen) with (hash1 T k klen).
    change (key_eq T') with (key_eq T). rewrite Hm1, Z.eqb_refl, Heq. cbn [andb].
    apply default_key_eq_refl.
  - rewrite Hs in G2. split; assumption.
Qed.

(** *** Removal of a key sitting in its home slot *)

(** Removing a key that sits in its home slot, when the slot after it
    holds nothing to shift back: the call succeeds, the count drops by
    one, only that slot is cleared, and the key is no longer found. *)
Theorem remove_at_home T (k : string) (klen : Z) :
  table_ok T -> klen <> 0 ->
  occupied (slot_at T (home T k klen)) = true ->
  slot_matches T (slot_at T (home T k klen)) (hash1 T k klen) k klen = true ->
  occupied (slot_at T (next_idx T (home T k klen)))
    && (0 <? psl (slot_at T (next_idx T (home T k klen)))) = false ->
  exists T',
    dagger_remove T (Some k) klen = Some (DAGGER_OK, T') /\
    count T' = u64 (count T - 1) /\
    entries T' = list_set (entries T) (Z.to_nat (home T k klen)) empty_entry /\
    g_result (dagger_get T' (Some k) klen) = DAGGER_NOT_FOUND.
Proof.
  intros Hok Hk Ho Hm Hn.
  pose proof (slot_in_range T (hash1 T k klen) Hok) as Hr.
  unfold dagger_remove.
  destruct (klen =? 0) eqn:Z0; [apply Z.eqb_eq in Z0; contradiction|].
  cbv zeta. cbn [remove_rh]. fold (home T k klen) in *. rewrite Ho, Hm. cbn [negb].
  match goal with |- context [shift_back ?f ?X ?i ?n] => set (T1 := X) end.
  rewrite Nat.add_1_r. cbn [shift_back].
  assert (E : occupied (slot_at T1 (next_idx T1 (home T k klen)))
              && (0 <? psl (slot_at T1 (next_idx T1 (home T k klen)))) = false).
  { change (next_idx T1 (home T k klen)) with (next_idx T (home T k klen)).
    destruct (Z.eq_dec (home T k klen) (next_idx T (home T k klen))) as [Q|Q].
    - rewrite <- Q. unfold T1, set_counters, slot_at. cbn [entries].
      change (occupied (slot_at (slot_put T (home T k klen) empty_entry) (home T k klen))
              && (0 <? psl (slot_at (slot_put T (home T k klen) empty_entry)
                              (home T k klen))) = false).
      rewrite slot_at_put_eq by exact Hr. reflexivity.
    - change (slot_at T1 (next_idx T (home T k klen)))
        with (slot_at (slot_put T (home T k klen) empty_entry)
                (next_idx T (home T k klen))).
      rewrite slot_at_put_ne; [exact Hn|lia| |exact Q].
      unfold next_idx. destruct Hok as (j & Hj & _ & Hmask & _). rewrite Hmask.
      apply Z.land_nonneg. right. pose proof (Z.pow_pos_nonneg 2 j); lia. }
  rewrite E.
  eexists. split; [reflexivity|]. split; [reflexivity|]. split; [reflexivity|].
  apply (get_at_empty_home T1 k klen Hk).
  change (home T1 k klen) with (home T k klen).
  change (slot_at T1 (home T k klen))
    with (slot_at (slot_put T (home T k klen) empty_entry) (home T k klen)).
  rewrite slot_at_put_eq by exact Hr. reflexivity.
Qed.

(** *** Fresh and cleared tables *)

Lemma get_in_empty_table T (n : nat) (k : option string) (klen : Z) :
  entries T = repeat empty_entry n ->
  g_value (dagger_get T k klen) = None /\
  (k <> None -> klen <> 0 -> g_result (dagger_get T k klen) = DAGGER_NOT_FOUND).
Proof.
  intros E. unfold dagger_get. destruct k as [k|]; [|split; [reflexivity|congruence]].
  destruct (klen =? 0) eqn:Z0.
  - apply Z.eqb_eq in Z0. split; [reflexivity|congruence].
  - cbv zeta. cbn [get_rh]. rewrite (slot_at_empty n _ T E). cbn. split; reflexivity.
Qed.

(** After [dagger_clear] the table holds nothing: the count is 0, the
    capacity is kept, no key is found and none can be removed. *)
Theorem dagger_clear_empties T (k : string) (klen : Z) :
  klen <> 0 ->
  count (dagger_clear T) = 0 /\
  capacity (dagger_clear T) = capacity T /\
  g_result (dagger_get (dagger_clear T) (Some k) klen) = DAGGER_NOT_FOUND /\
  dagger_remove (dagger_clear T) (Some k) klen
    = Some (DAGGER_NOT_FOUND, dagger_clear T).
Proof.
  intros Hk. split; [reflexivity|]. split; [reflexivity|]. split.
  - apply (get_in_empty_table (dagger_clear T) (Z.to_nat (capacity T)));
      [reflexivity|discriminate|exact Hk].
  - unfold dagger_remove.
    destruct (klen =? 0) eqn:Z0; [apply Z.eqb_eq in Z0; contradiction|].
    cbv zeta. cbn [remove_rh remove_cuckoo].
    rewrite !(slot_at_empty (Z.to_nat (capacity T)) _ (dagger_clear T) eq_refl).
    reflexivity.
Qed.

(** A table made by [dagger_create] for a request of up to 2^56 slots
    is empty and below its load threshold; its capacity is a power of
    two, at least 16 and at least the request, and less than twice the
    request when that is 16 or more. *)
Theorem dagger_create_shape (c : Z) (keq : option dagger_key_eq_fn) :
  0 <= c <= 2 ^ 56 ->
  let T := dagger_create c keq : DaggerTable V in
  table_ok T /\ below_load T /\ count T = 0 /\
  DAGGER_MIN_CAPACITY <= capacity T /\ c <= capacity T /\
  (DAGGER_MIN_CAPACITY <= c -> capacity T < 2 * c) /\
  entries T = repeat empty_entry (Z.to_nat (capacity T)).
Proof.
  intros Hc. cbv zeta. unfold dagger_create.
  set (c' := if c <? DAGGER_MIN_CAPACITY then DAGGER_INITIAL_CAPACITY else c).
  assert (Hc' : 16 <= c' <= 2 ^ 56 /\ c <= c' /\ (DAGGER_MIN_CAPACITY <= c -> c' = c)).
  { unfold c', DAGGER_MIN_CAPACITY, DAGGER_INITIAL_CAPACITY.
    destruct (c <? 16) eqn:L; [apply Z.ltb_lt in L|apply Z.ltb_ge in L]; lia. }
  pose proof (next_pow2_log2 c' ltac:(lia)) as E.
  destruct (log2_bounds c' ltac:(lia)) as (Hk & Lo & Hi).
  set (k := Z.log2 (c' - 1) + 1) in *.
  rewrite E. cbn [capacity count mask entries].
  unfold table_ok, below_load, DAGGER_MIN_CAPACITY in *.
  cbn [capacity count mask entries].
  split; [exists k; rewrite repeat_length; repeat split; try reflexivity; lia|].
  split.
  - unfold DAGGER_LOAD_FACTOR_PERCENT, u64.
    rewrite Z.mod_small by lia.
    apply Z.div_str_pos. lia.
  - repeat split; lia.
Qed.

End Slots.

(** Concrete tables the statements above apply to. *)

Lemma set_then_get_witness :
  exists T',
    dagger_set (dagger_create 32 None) (Some "a") 1 (Some 7) false
      = Some (DAGGER_OK, T') /\
    count T' = u64 (count (dagger_create 32 None : DaggerTable Z) + 1) /\
    g_result (dagger_get T' (Some "a") 1) = DAGGER_OK /\
    g_value (dagger_get T' (Some "a") 1) = Some 7 /\
    g_probes (dagger_get T' (Some "a") 1) = 1.
Proof.
  apply (set_then_get (dagger_create 32 None) "a" 1 (Some 7) false).
  - exists 5. vm_compute. repeat split; discriminate.
  - vm_compute. reflexivity.
  - reflexivity.
  - lia.
  - vm_compute. reflexivity.
Defined.

Lemma set_existing_witness :
  dagger_set one_key (Some "a") 1 (Some 9) false = Some (DAGGER_EXISTS, one_key) /\
  exists T',
    dagger_set one_key (Some "a") 1 (Some 9) true = Some (DAGGER_OK, T') /\
    count T' = count one_key /\
    g_result (dagger_get T' (Some "a") 1) = DAGGER_OK /\
    g_value (dagger_get T' (Some "a") 1) = Some 9.
Proof.
  apply (set_existing one_key "a" 1 (Some 9)).
  - exists 5. vm_compute. repeat split; discriminate.
  - vm_compute. reflexivity.
  - reflexivity.
  - lia.
  - vm_compute. reflexivity.
  - vm_compute. reflexivity.
Defined.

Lemma remove_at_home_witness :
  exists T',
    dagger_remove one_key (Some "a") 1 = Some (DAGGER_OK, T') /\
    count T' = u64 (count one_key - 1) /\
    entries T' = list_set (entries one_key) (Z.to_nat (home one_key "a" 1)) empty_entry /\
    g_result (dagger_get T' (Some "a") 1) = DAGGER_NOT_FOUND.
Proof.
  apply (remove_at_home one_key "a" 1).
  - exists 5. vm_compute. repeat split; discriminate.
  - lia.
  - vm_compute. reflexivity.
  - vm_compute. reflexivity.
  - vm_compute. reflexivity.
Defined.

Lemma dagger_clear_empties_witness :
  count (dagger_clear one_key) = 0 /\
  capacity (dagger_clear one_key) = capacity one_key /\
  g_result (dagger_get (dagger_clear one_key) (Some "a") 1) = DAGGER_NOT_FOUND /\
  dagger_remove (dagger_clear one_key) (Some "a") 1
    = Some (DAGGER_NOT_FOUND, dagger_clear one_key).
Proof. apply (dagger_clear_empties one_key "a" 1). lia. Defined.

Lemma dagger_create_shape_witness :
  let T := dagger_create 20 None : DaggerTable Z in
  table_ok T /\ below_load T /\ count T = 0 /\
  DAGGER_MIN_CAPACITY <= capacity T /\ 20 <= capacity T /\
  (DAGGER_MIN_CAPACITY <= 20 -> capacity T < 2 * 20) /\
  entries T = repeat empty_entry (Z.to_nat (capacity T)).
Proof. apply (dagger_create_shape 20 None). lia. Defined.

End DaggerMore.

(** ** Arena *)

Module ArenaMore.
Import Arena ArenaInv.

Lemma lnot7 : u64 (Z.lnot (ARENA_DEFAULT_ALIGNMENT - 1)) = 2 ^ 64 - 8.
Proof. reflexivity. Qed.

Lemma land_clear3 (x : Z) : 0 <= x < 2 ^ 64 -> Z.land x (2 ^ 64 - 8) = 8 * (x / 8).
Proof.
  intros Hx. apply Z.bits_inj'. intros i Hi.
  rewrite Z.land_spec.
  replace (2 ^ 64 - 8) with (Z.shiftl (Z.ones 61) 3) by reflexivity.
  replace (8 * (x / 8)) with (Z.shiftl (Z.shiftr x 3) 3)
    by (rewrite Z.shiftl_mul_pow2, Z.shiftr_div_pow2 by lia; change (2 ^ 3) with 8; lia).
  rewrite !Z.shiftl_spec by lia.
  destruct (Z.ltb_spec i 3) as [L|L].
  - rewrite !(Z.testbit_neg_r _ (i - 3)) by lia. apply andb_false_r.
  - rewrite Z.shiftr_spec by lia. replace (i - 3 + 3) with i by lia.
    rewrite Z.testbit_ones_nonneg by lia.
    destruct (Z.ltb_spec (i - 3) 61) as [M|M]; [apply andb_true_r|].
    rewrite andb_false_r. symmetry.
    apply Z.bits_above_log2; [lia|].
    destruct (Z.eq_dec x 0) as [->|N]; [cbn; lia|].
    apply Z.log2_lt_pow2; [lia|].
    apply Z.lt_le_trans with (2 ^ 64); [lia|]. apply Z.pow_le_mono_r; lia.
Qed.

Lemma arena_align_eq (size : Z) :
  arena_align size = 8 * (u64 (size + 7) / 8).
Proof.
  unfold arena_align. rewrite lnot7.
  replace (size + ARENA_DEFAULT_ALIGNMENT - 1) with (size + 7)
    by (unfold ARENA_DEFAULT_ALIGNMENT; lia).
  apply land_clear3. unfold u64. apply Z.mod_pos_bound. lia.
Qed.

(** [arena_align] rounds up to the next multiple of 8 -- and wraps to 0
    for the seven sizes above 2^64 - 8. *)
Theorem arena_align_rounds_up (size : Z) :
  0 <= size < 2 ^ 64 ->
  arena_align size mod 8 = 0 /\
  (size <= 2 ^ 64 - 8 -> size <= arena_align size < size + 8) /\
  (2 ^ 64 - 8 < size -> arena_align size = 0).
Proof.
  intros Hs. rewrite arena_align_eq. split; [|split].
  - rewrite Z.mul_comm. apply Z.mod_mul. lia.
  - intros H. unfold u64. rewrite Z.mod_small by lia.
    pose proof (Z.div_mod (size + 7) 8 ltac:(lia)).
    pose proof (Z.mod_pos_bound (size + 7) 8 ltac:(lia)). lia.
  - intros H. unfold u64.
    replace (size + 7) with (size + 7 - 2 ^ 64 + 1 * 2 ^ 64) by lia.
    rewrite Z.mod_add by lia. rewrite Z.mod_small by lia.
    rewrite Z.div_small by lia. reflexivity.
Qed.

Lemma arena_align_rounds_up_witness :
  arena_align 13 mod 8 = 0 /\
  (13 <= 2 ^ 64 - 8 -> 13 <= arena_align 13 < 13 + 8) /\
  (2 ^ 64 - 8 < 13 -> arena_align 13 = 0).
Proof. apply (arena_align_rounds_up 13). lia. Defined.

Lemma align_small (size : Z) :
  0 < size < 2 ^ 62 ->
  arena_align size mod 8 = 0 /\ size <= arena_align size < size + 8.
Proof.
  intros H. rewrite arena_align_eq. unfold u64.
  rewrite (Z.mod_small (size + 7)) by lia. split.
  - rewrite Z.mul_comm. apply Z.mod_mul. lia.
  - pose proof (Z.div_mod (size + 7) 8 ltac:(lia)).
    pose proof (Z.mod_pos_bound (size + 7) 8 ltac:(lia)). lia.
Qed.

Lemma nth_firstn_app {A} (l : list A) (n i : nat) (x d : A) :
  (i <= n)%nat -> (n < List.length l)%nat ->
  nth i (firstn (S n) l ++ [x]) d = nth i l d.
Proof.
  intros Hi Hn. rewrite app_nth1 by (rewrite length_firstn; lia).
  revert i n Hi Hn. induction l as [|y l IH]; intros i n Hi Hn; [cbn in Hn; lia|].
  destruct i; [reflexivity|]. destruct n; [lia|].
  cbn [firstn nth]. cbn [firstn] in IH. apply IH; cbn in Hn; lia.
Qed.

Lemma nth_firstn_new {A} (l : list A) (n : nat) (x d : A) :
  (n < List.length l)%nat -> nth (S n) (firstn (S n) l ++ [x]) d = x.
Proof.
  intros Hn.
  assert (L : List.length (firstn (S n) l) = S n) by (rewrite length_firstn; lia).
  rewrite app_nth2 by lia. rewrite L, Nat.sub_diag. reflexivity.
Qed.

(** A successful allocation from a well-formed arena: the arena stays
    well formed, the pointer is 8-aligned, its [size] bytes lie inside
    the chunk, and every region handed out before stays live and is not
    overlapped. *)
Theorem arena_alloc_regions (a a' : Arena) (size : Z) (ok : bool) (p : ptr) :
  arena_ok a -> 0 < size < 2 ^ 62 ->
  arena_alloc a size ok = (Some p, a') ->
  arena_ok a' /\
  snd p mod 8 = 0 /\
  live a' p size /\
  used (nth (fst p) (chunks a') empty_chunk)
    <= capacity (nth (fst p) (chunks a') empty_chunk) /\
  forall q t, live a q t -> live a' q t /\ ~ overlap p size q t.
Proof.
  intros (Hc & Hu & Hcap & Hcs & Hal) Hs.
  destruct (align_small size Hs) as (A8 & Ar).
  unfold arena_alloc.
  destruct (size =? 0) eqn:Z0; [apply Z.eqb_eq in Z0; lia|].
  cbv zeta.
  assert (W : u64 (used (current_chunk a) + arena_align size)
              = used (current_chunk a) + arena_align size)
    by (unfold u64; apply Z.mod_small; lia).
  rewrite W.
  destruct (Z.leb_spec (used (current_chunk a) + arena_align size)
                       (capacity (current_chunk a))) as [Fit|Full].
  - intros E. injection E as <- <-. cbn [fst snd].
    unfold arena_ok, live, current_chunk. cbn [chunks current chunk_size fst snd].
    rewrite list_set_length, nth_list_set_eq by exact Hc.
    fold (current_chunk a). cbn [used capacity with_used].
    refine (conj _ (conj _ (conj _ (conj _ _)))).
    + repeat split; try lia. rewrite Z.add_mod, Hal, A8 by lia. reflexivity.
    + exact Hal.
    + repeat split; lia.
    + lia.
    + intros q t (Q1 & Q2 & Q3). split; [split; [exact Q1|split; [exact Q2|]]|].
      * destruct (Nat.eq_dec (current a) (fst q)) as [Eq|Ne].
        -- rewrite <- Eq. rewrite nth_list_set_eq by exact Hc. cbn [used with_used].
           rewrite <- Eq in Q3. fold (current_chunk a) in Q3. lia.
        -- rewrite nth_list_set_ne by exact Ne. exact Q3.
      * intros (O1 & O2 & O3). cbn [fst snd] in *.
        rewrite <- O1 in Q3. fold (current_chunk a) in Q3. lia.
  - unfold arena_chunk_create. destruct ok; [|discriminate].
    intros E. apply pair_equal_spec in E. destruct E as (E1 & E2).
    subst a'. assert (Ep : p = (S (current a), 0)) by congruence.
    subst p. clear E1. cbn [fst snd].
    unfold arena_ok, live, current_chunk. cbn [chunks current chunk_size fst snd].
    rewrite nth_firstn_new by exact Hc. cbn [used capacity with_used].
    rewrite length_app, length_firstn. cbn [List.length].
    assert (Hm : 0 <= (if chunk_size a <? arena_align size then arena_align size
                       else chunk_size a) < 2 ^ 63 /\
                 arena_align size <= (if chunk_size a <? arena_align size
                                      then arena_align size else chunk_size a)).
    { destruct (Z.ltb_spec (chunk_size a) (arena_align size)); lia. }
    refine (conj _ (conj _ (conj _ (conj _ _)))).
    + repeat split; lia.
    + reflexivity.
    + repeat split; lia.
    + lia.
    + intros q t (Q1 & Q2 & Q3). split; [split; [lia|split; [exact Q2|]]|].
      * rewrite nth_firstn_app by (try exact Q1; exact Hc). exact Q3.
      * intros (O1 & O2 & O3). cbn [fst snd] in *. lia.
Qed.

Lemma arena_alloc_regions_witness :
  let a' := snd (arena_alloc small_arena 13 true) in
  arena_ok a' /\
  snd (0%nat, 0) mod 8 = 0 /\
  live a' (0%nat, 0) 13 /\
  used (nth (fst (0%nat, 0)) (chunks a') empty_chunk)
    <= capacity (nth (fst (0%nat, 0)) (chunks a') empty_chunk) /\
  forall q t, live small_arena q t -> live a' q t /\ ~ overlap (0%nat, 0) 13 q t.
Proof.
  apply (arena_alloc_regions small_arena (snd (arena_alloc small_arena 13 true))
           13 true (0%nat, 0)).
  - unfold arena_ok. vm_compute. repeat split; try discriminate; lia.
  - lia.
  - reflexivity.
Defined.

Lemma alloc_keeps (b : Arena) (size : Z) (ok : bool) :
  (current b < List.length (chunks b))%nat ->
  let b' := snd (arena_alloc b size ok) in
  (current b' < List.length (chunks b'))%nat /\
  capacity (nth 0 (chunks b') empty_chunk) = capacity (nth 0 (chunks b) empty_chunk) /\
  chunk_size b' = chunk_size b /\ alignment b' = alignment b.
Proof.
  intros Hc. cbv zeta. unfold arena_alloc.
  destruct (size =? 0); [cbn [snd]; auto|]. cbv zeta.
  destruct (_ <=? _).
  - cbn [snd chunks current chunk_size alignment].
    rewrite list_set_length. repeat split; try assumption.
    destruct (Nat.eq_dec (current b) 0) as [E|N].
    + rewrite E. rewrite nth_list_set_eq by lia. unfold current_chunk. rewrite E.
      reflexivity.
    + rewrite nth_list_set_ne by exact N. reflexivity.
  - unfold arena_chunk_create. destruct ok; [|cbn [snd]; auto].
    cbn [snd chunks current chunk_size alignment].
    rewrite length_app, length_firstn. cbn [List.length].
    repeat split; try lia.
    apply (f_equal capacity). apply nth_firstn_app; lia.
Qed.

(** [arena_reset] after any run of allocations brings a created arena
    back to its state at creation, the peak statistic apart. *)
Theorem arena_reset_after_allocs (cs : Z) (a : Arena) (reqs : list (Z * bool)) :
  arena_create cs true = Some a ->
  arena_reset (alloc_all a reqs)
    = with_peak a (peak_allocated (alloc_all a reqs)).
Proof.
  intros C.
  assert (I : (current (alloc_all a reqs) < List.length (chunks (alloc_all a reqs)))%nat /\
              capacity (nth 0 (chunks (alloc_all a reqs)) empty_chunk)
                = capacity (nth 0 (chunks a) empty_chunk) /\
              chunk_size (alloc_all a reqs) = chunk_size a /\
              alignment (alloc_all a reqs) = alignment a).
  { assert (H0 : (current a < List.length (chunks a))%nat).
    { unfold arena_create, arena_chunk_create in C. cbv zeta in C.
      injection C as <-. cbn. lia. }
    clear C. revert a H0.
    induction reqs as [|[size ok] rest IH]; intros a H0; cbn [alloc_all].
    - auto.
    - destruct (alloc_keeps a size ok H0) as (K1 & K2 & K3 & K4). cbv zeta in *.
      destruct (IH _ K1) as (J1 & J2 & J3 & J4).
      repeat split; [exact J1|congruence|congruence|congruence]. }
  destruct I as (_ & I2 & I3 & I4).
  unfold arena_reset. cbv zeta. rewrite I2, I3, I4.
  unfold arena_create, arena_chunk_create in C. cbv zeta in C.
  injection C as <-. reflexivity.
Qed.

Lemma arena_reset_after_allocs_witness :
  arena_reset (alloc_all small_arena [(13, true); (100, true); (8, false)])
    = with_peak small_arena
        (peak_allocated (alloc_all small_arena [(13, true); (100, true); (8, false)])).
Proof.
  apply (arena_reset_after_allocs 64 small_arena). reflexivity.
Defined.

Lemma created_ok (cs : Z) (a : Arena) :
  0 <= cs < 2 ^ 63 -> arena_create cs true = Some a -> arena_ok a.
Proof.
  intros Hcs. unfold arena_create, arena_chunk_create. cbv zeta.
  intros E. injection E as <-.
  unfold arena_ok, current_chunk. cbn.
  destruct (Z.eqb_spec cs 0); unfold ARENA_DEFAULT_CHUNK_SIZE; repeat split; lia.
Qed.

End ArenaMore.

(** ** WEAVE *)

Module WeaveMore.
Import Weave WeaveOps StrFacts.

(** [ZORYA_NEXT_POWER_OF_2_64] below the wrap-around. *)
Lemma next_pow2_ge (x : Z) :
  0 <= x <= 2 ^ 63 ->
  x <= WEAVE_NEXT_POW2 x /\ WEAVE_NEXT_POW2 x <= 2 ^ 63 /\
  exists k, 0 <= k <= 63 /\ WEAVE_NEXT_POW2 x = 2 ^ k.
Proof.
  intros Hx. unfold WEAVE_NEXT_POW2.
  destruct (Z.leb_spec x 1) as [L|L].
  - split; [lia|]. split; [lia|]. exists 0. split; [lia|reflexivity].
  - pose proof (Z.log2_spec (x - 1) ltac:(lia)) as S.
    pose proof (Z.log2_nonneg (x - 1)) as N.
    assert (B : Z.log2 (x - 1) < 63).
    { apply Z.log2_lt_pow2; lia. }
    rewrite Z.shiftl_1_l. unfold u64.
    assert (P : 2 ^ (Z.log2 (x - 1) + 1) <= 2 ^ 63) by (apply Z.pow_le_mono_r; lia).
    rewrite Z.mod_small by (pose proof (Z.pow_pos_nonneg 2 (Z.log2 (x - 1) + 1)); lia).
    replace (Z.succ (Z.log2 (x - 1))) with (Z.log2 (x - 1) + 1) in S by lia.
    split; [lia|]. split; [lia|]. exists (Z.log2 (x - 1) + 1). split; [lia|reflexivity].
Qed.

Lemma grow_cap_ge (current needed : Z) :
  0 <= current < 2 ^ 62 -> 0 <= needed <= 2 ^ 62 ->
  needed <= weave_grow_cap current needed /\ current <= weave_grow_cap current needed \/
  needed <= weave_grow_cap current needed /\ needed <= 64.
Proof.
  intros Hc Hn. unfold weave_grow_cap.
  destruct (Z.leb_spec needed 64) as [L|L]; [right; lia|]. left. cbv zeta.
  assert (W : u64 (current * 2) = current * 2) by (unfold u64; apply Z.mod_small; lia).
  rewrite W.
  destruct (next_pow2_ge needed ltac:(lia)) as (A & _).
  destruct (next_pow2_ge (current * 2) ltac:(lia)) as (B & _).
  destruct (Z.ltb_spec (WEAVE_NEXT_POW2 needed) (current * 2)); lia.
Qed.

(** *** Creation *)

(** [weave_new] stores the C string given, that is the bytes before the
    first NUL: [weave_cstr] returns them, [weave_len] is [strlen], and
    the capacity is a power of two, at least 32 and at least the
    length. *)
Theorem weave_new_round_trip (s : string) :
  strlen s <= 2 ^ 63 ->
  exists w,
    weave_new (Some s) true = Some w /\
    weave_cstr (Some w) = c_str s /\ weave_len (Some w) = strlen s /\
    weave_ok w /\ WEAVE_INITIAL_CAP <= cap w /\ flags w = WEAVE_FLAG_NONE /\
    exists k, cap w = 2 ^ k.
Proof.
  intros Hs. unfold weave_new, weave_new_len, safe_strlen. cbv zeta.
  eexists. split; [reflexivity|]. unfold weave_ok. cbn [weave_cstr weave_len data len cap flags].
  pose proof (strlen_bounds s) as P.
  assert (D : (if 0 <? strlen s then take_bytes s (strlen s) else "") = c_str s).
  { destruct (Z.ltb_spec 0 (strlen s)); [apply take_c_str|].
    unfold strlen, zlen in *. destruct (c_str s); [reflexivity|].
    cbn [String.length] in *. lia. }
  rewrite D.
  destruct (next_pow2_ge (strlen s) ltac:(lia)) as (A & B & k & Hk & E).
  unfold WEAVE_INITIAL_CAP. fold (strlen s).
  destruct (Z.ltb_spec (strlen s) 32).
  - repeat split; try lia. exists 5. reflexivity.
  - repeat split; try lia. exists k. exact E.
Qed.

Lemma weave_new_round_trip_witness :
  exists w,
    weave_new (Some "pulsar") true = Some w /\
    weave_cstr (Some w) = c_str "pulsar" /\ weave_len (Some w) = strlen "pulsar" /\
    weave_ok w /\ WEAVE_INITIAL_CAP <= cap w /\ flags w = WEAVE_FLAG_NONE /\
    exists k, cap w = 2 ^ k.
Proof. apply (weave_new_round_trip "pulsar"). vm_compute. discriminate. Defined.

(** *** Growing *)

Lemma ensure_cap_grows (w : Weave) (n : Z) :
  weave_ok w -> immutable w = false ->
  0 <= n -> cap w < 2 ^ 62 -> len w + n <= 2 ^ 62 ->
  exists w',
    weave_ensure_cap (Some w) n true = Some w' /\
    data w' = data w /\ len w' = len w /\ flags w' = flags w /\
    len w + n <= cap w' /\ cap w <= cap w'.
Proof.
  intros (Hd & Hl) Hi Hn Hc Hb.
  assert (P : 0 <= len w) by (rewrite <- Hd; unfold zlen; lia).
  unfold weave_ensure_cap. rewrite Hi. cbv zeta.
  assert (W : u64 (len w + n) = len w + n) by (unfold u64; apply Z.mod_small; lia).
  rewrite W.
  destruct (Z.leb_spec (len w + n) (cap w)) as [L|L].
  - exists w. repeat split; lia.
  - eexists. split; [reflexivity|]. cbn [with_cap data len flags cap].
    destruct (grow_cap_ge (cap w) (len w + n) ltac:(lia) ltac:(lia)) as [G|G];
      repeat split; lia.
Qed.

(** Whether the block has to grow, and what [weave_ensure_cap] then
    returns. *)
Lemma ensure_cap_cases (w : Weave) (n : Z) :
  weave_ok w -> immutable w = false ->
  0 <= n -> len w + n <= 2 ^ 62 ->
  must_grow w n = negb (len w + n <=? cap w) /\
  (len w + n <= cap w -> weave_ensure_cap (Some w) n true = Some w) /\
  u64 (len w + n) = len w + n /\ take_bytes (data w) (len w) = data w.
Proof.
  intros (Hd & Hl) Hi Hn Hb.
  assert (P : 0 <= len w) by (rewrite <- Hd; unfold zlen; lia).
  assert (W : u64 (len w + n) = len w + n) by (unfold u64; apply Z.mod_small; lia).
  unfold must_grow, weave_ensure_cap. rewrite Hi, W. cbv zeta.
  split; [reflexivity|]. split.
  - intros L. destruct (Z.leb_spec (len w + n) (cap w)); [reflexivity|lia].
  - split; [reflexivity|]. rewrite <- Hd. apply take_all.
Qed.

(** Appending bytes that lie outside a mutable Weave concatenates, keeps
    the invariant, and truncating back to the old length restores the
    old content.  Appending bytes of the Weave itself is defined only
    when the block need not grow and the bytes lie inside the content;
    those bytes are then appended. *)
Theorem weave_append_concat (w : Weave) (s : string) (n off : Z) :
  weave_ok w -> immutable w = false ->
  0 < n <= zlen s -> cap w < 2 ^ 62 -> len w + n <= 2 ^ 62 ->
  (exists w',
    weave_append_len (Some w) (Some (Apart s)) n true = Ret (Some w') /\
    data w' = data w +++ take_bytes s n /\
    len w' = len w + n /\ flags w' = flags w /\ cap w <= cap w' /\
    weave_ok w' /\
    (c_str (take_bytes s n) = take_bytes s n ->
     weave_ends_with (Some w') (Some (take_bytes s n)) = true) /\
    weave_truncate w' (len w) = with_cap w (cap w')) /\
  weave_append_len (Some w) (Some (Within off)) n true
    = if (len w + n <=? cap w) && (0 <=? off) && (off + n <=? len w)
      then Ret (Some (with_content w (len w + n)
                        (data w +++
                         String.substring (Z.to_nat off) (Z.to_nat n) (data w))))
      else Undefined.
Proof.
  intros Hok Hi Hn Hc Hb.
  destruct (ensure_cap_grows w n Hok Hi ltac:(lia) Hc Hb)
    as (w1 & E & D1 & L1 & F1 & C1 & C2).
  destruct (ensure_cap_cases w n Hok Hi ltac:(lia) Hb) as (G & Fit & U & Tk).
  destruct Hok as (Hd & Hl).
  assert (P : 0 <= len w) by (rewrite <- Hd; unfold zlen; lia).
  split.
  - unfold weave_append_len.
    destruct (Z.eqb_spec n 0) as [Z0|_]; [lia|]. rewrite E.
    assert (W : u64 (len w1 + n) = len w + n)
      by (rewrite L1; unfold u64; apply Z.mod_small; lia).
    rewrite W, D1, L1, <- Hd, take_all.
    eexists. split; [reflexivity|].
    assert (I1 : immutable (with_content w1 (zlen (data w) + n)
                              (data w +++ take_bytes s n)) = false).
    { unfold immutable in *. cbn [with_content flags]. rewrite F1. exact Hi. }
    assert (T : zlen (take_bytes s n) = n) by (apply take_len; lia).
    unfold weave_ok. cbn [with_content data len flags cap].
    refine (conj eq_refl (conj eq_refl (conj F1 (conj C2 (conj _ (conj _ _)))))).
    + split; [|lia]. unfold zlen in *. rewrite str_length_app. lia.
    + intros Plain. unfold weave_ends_with. cbn [with_content data len].
      rewrite (strlen_plain _ Plain), T.
      destruct (Z.ltb_spec (zlen (data w) + n) n); [lia|].
      unfold data_from. cbn [with_content data len].
      replace (zlen (data w) + n - n) with (zlen (data w)) by lia.
      unfold zlen at 1. rewrite Nat2Z.id, drop_app.
      unfold Dagger.memcmp_eq. apply String.eqb_refl.
    + unfold weave_truncate. rewrite I1. cbn [with_content data len flags cap].
      destruct (Z.leb_spec (zlen (data w) + n) (zlen (data w))); [lia|].
      unfold with_content, with_cap. cbn [cap flags].
      unfold take_bytes at 1, zlen at 2. rewrite Nat2Z.id, substring_app.
      rewrite F1. f_equal. exact Hd.
  - unfold weave_append_len.
    destruct (Z.eqb_spec n 0) as [Z0|_]; [lia|]. rewrite G.
    destruct (Z.leb_spec (len w + n) (cap w)) as [L|L]; cbn [negb orb andb].
    + rewrite (Fit L), U, Tk.
      destruct ((0 <=? off) && (off + n <=? len w)); reflexivity.
    + rewrite E. reflexivity.
Qed.

(** Prepending bytes that lie outside a mutable Weave puts them in front.
    Prepending bytes of the Weave itself is defined only when the block
    need not grow and the bytes lie at offset [n] or later, up to the
    NUL; what is put in front is then read after the content was moved
    right, that is from [n] bytes earlier in the old content. *)
Theorem weave_prepend_concat (w : Weave) (s : string) (n off : Z) :
  weave_ok w -> immutable w = false ->
  0 < n <= zlen s -> cap w < 2 ^ 62 -> len w + n <= 2 ^ 62 ->
  (exists w',
    weave_prepend_len (Some w) (Some (Apart s)) n true = Ret (Some w') /\
    data w' = take_bytes s n +++ data w /\
    len w' = len w + n /\ flags w' = flags w /\ cap w <= cap w' /\
    weave_ok w' /\
    weave_starts_with (Some w') (Some (take_bytes s n)) = true) /\
  weave_prepend_len (Some w) (Some (Within off)) n true
    = if (len w + n <=? cap w) && (n <=? off) && (off <=? len w + 1)
      then Ret (Some (with_content w (len w + n)
                        (String.substring (Z.to_nat (off - n)) (Z.to_nat n)
                           (buffer w) +++ data w)))
      else Undefined.
Proof.
  intros Hok Hi Hn Hc Hb.
  destruct (ensure_cap_grows w n Hok Hi ltac:(lia) Hc Hb)
    as (w1 & E & D1 & L1 & F1 & C1 & C2).
  destruct (ensure_cap_cases w n Hok Hi ltac:(lia) Hb) as (G & Fit & U & Tk).
  destruct Hok as (Hd & Hl).
  assert (P : 0 <= len w) by (rewrite <- Hd; unfold zlen; lia).
  split.
  - unfold weave_prepend_len.
    destruct (Z.eqb_spec n 0) as [Z0|_]; [lia|]. rewrite E.
    assert (W : u64 (len w1 + n) = len w + n)
      by (rewrite L1; unfold u64; apply Z.mod_small; lia).
    rewrite W, D1, L1, <- Hd, take_all.
    eexists. split; [reflexivity|].
    assert (T : zlen (take_bytes s n) = n) by (apply take_len; lia).
    unfold weave_ok. cbn [with_content data len flags cap].
    refine (conj eq_refl (conj eq_refl (conj F1 (conj C2 (conj _ _))))).
    + split; [|lia]. unfold zlen in *. rewrite str_length_app. lia.
    + unfold weave_starts_with. cbn [with_content data len].
      pose proof (strlen_bounds (take_bytes s n)) as B.
      destruct (Z.ltb_spec (zlen (data w) + n) (strlen (take_bytes s n))); [lia|].
      unfold Dagger.memcmp_eq.
      rewrite sub_app_short by (unfold zlen in *; lia).
      apply String.eqb_refl.
  - unfold weave_prepend_len.
    destruct (Z.eqb_spec n 0) as [Z0|_]; [lia|]. rewrite G.
    destruct (Z.leb_spec (len w + n) (cap w)) as [L|L]; cbn [negb orb andb].
    + rewrite (Fit L), U, Tk.
      destruct ((n <=? off) && (off <=? len w + 1)); reflexivity.
    + rewrite E. reflexivity.
Qed.

(** *** Reversal *)

Lemma reverse_loop_length (d : string) (n i : Z) (k : nat) :
  String.length (reverse_loop d n i k) = k.
Proof. revert i; induction k as [|k IH]; intros i; cbn; [reflexivity|now rewrite IH]. Qed.

Lemma get_reverse_loop (d : string) (n i : Z) (k j : nat) :
  (j < k)%nat ->
  String.get j (reverse_loop d n i k) = Some (byte_at d (n - 1 - (i + Z.of_nat j))).
Proof.
  revert i j; induction k as [|k IH]; intros i j Hj; [lia|].
  cbn [reverse_loop]. destruct j as [|j]; cbn [String.get].
  - do 2 f_equal. lia.
  - rewrite IH by lia. do 2 f_equal. lia.
Qed.

Lemma get_none (s : string) (j : nat) :
  (String.length s <= j)%nat -> String.get j s = None.
Proof.
  revert j; induction s as [|c s IH]; intros j H; [destruct j; reflexivity|].
  destruct j; cbn in *; [lia|]. apply IH. lia.
Qed.

Lemma get_some (s : string) (j : nat) :
  (j < String.length s)%nat -> exists c, String.get j s = Some c.
Proof.
  revert j; induction s as [|c s IH]; intros j H; [cbn in H; lia|].
  destruct j; cbn in *; [eauto|]. apply IH. lia.
Qed.

Lemma byte_at_get (d : string) (j : nat) :
  (j < String.length d)%nat -> String.get j d = Some (byte_at d (Z.of_nat j)).
Proof.
  intros H. unfold byte_at. destruct (Z.ltb_spec (Z.of_nat j) 0); [lia|].
  rewrite Nat2Z.id. destruct (get_some d j H) as (c & ->). reflexivity.
Qed.

(** [weave_reverse] mirrors the bytes and keeps the length; applied
    twice it gives the content back. *)
Theorem weave_reverse_involution (w : Weave) :
  zlen (data w) = len w ->
  exists r rr,
    weave_reverse (Some w) true = Some r /\
    weave_reverse (Some r) true = Some rr /\
    len r = len w /\ zlen (data r) = len w /\
    (forall i, 0 <= i < len w ->
       byte_at (data r) i = byte_at (data w) (len w - 1 - i)) /\
    data rr = data w.
Proof.
  intros Hd. unfold weave_reverse, weave_with_cap. cbv zeta.
  eexists. eexists. split; [reflexivity|]. split; [reflexivity|].
  cbn [with_content len data].
  assert (N : Z.to_nat (len w) = String.length (data w))
    by (unfold zlen in Hd; lia).
  assert (B : forall j, (j < String.length (data w))%nat ->
            byte_at (reverse_loop (data w) (len w) 0 (Z.to_nat (len w))) (Z.of_nat j)
            = byte_at (data w) (len w - 1 - Z.of_nat j)).
  { intros j Hj. unfold byte_at at 1.
    destruct (Z.ltb_spec (Z.of_nat j) 0); [lia|].
    rewrite Nat2Z.id, get_reverse_loop by lia. reflexivity. }
  split; [reflexivity|]. split; [unfold zlen in *; rewrite reverse_loop_length; lia|].
  split.
  - intros i Hi. specialize (B (Z.to_nat i) ltac:(lia)).
    rewrite Z2Nat.id in B by lia. exact B.
  - apply String.get_correct. intros j.
    destruct (Nat.lt_ge_cases j (String.length (data w))) as [L|G].
    + rewrite get_reverse_loop by lia. rewrite byte_at_get by exact L.
      f_equal. cbn [Z.add].
      specialize (B (String.length (data w) - 1 - j)%nat ltac:(lia)).
      replace (len w - 1 - Z.of_nat j)
        with (Z.of_nat (String.length (data w) - 1 - j)) by lia.
      rewrite B. f_equal. lia.
    + rewrite !get_none; [reflexivity|lia|rewrite reverse_loop_length; lia].
Qed.

Lemma weave_reverse_involution_witness :
  exists r rr,
    weave_reverse (Some short_weave) true = Some r /\
    weave_reverse (Some r) true = Some rr /\
    len r = len short_weave /\ zlen (data r) = len short_weave /\
    (forall i, 0 <= i < len short_weave ->
       byte_at (data r) i = byte_at (data short_weave) (len short_weave - 1 - i)) /\
    data rr = data short_weave.
Proof. apply (weave_reverse_involution short_weave). reflexivity. Defined.

(** *** Substrings *)

Lemma take_drop (s : string) (k : nat) :
  (k <= String.length s)%nat ->
  String.substring 0 k s
    +++ String.substring 0 (String.length s - k) (CStr.drop k s) = s.
Proof.
  revert k; induction s as [|c s IH]; intros k Hk.
  - destruct k; [reflexivity|cbn in Hk; lia].
  - destruct k as [|k].
    + change (CStr.drop 0 (String c s)) with (String c s).
      rewrite Nat.sub_0_r, substring_all. reflexivity.
    + cbn [CStr.drop String.substring String.append String.length Nat.sub].
      f_equal. apply IH. cbn in Hk. lia.
Qed.

(** Cutting a Weave at [k] with [weave_substr] or [weave_slice] gives two
    pieces that concatenate to the original; a length beyond the end is
    clamped and a negative slice end means the end of the string. *)
Theorem weave_substr_split (w : Weave) (k : Z) :
  zlen (data w) = len w -> 0 <= k <= len w ->
  exists a b,
    weave_substr (Some w) 0 k true = Some a /\
    weave_substr (Some w) k (len w) true = Some b /\
    weave_slice (Some w) 0 k true = Some a /\
    weave_slice (Some w) k (-1) true = Some b /\
    len a = k /\ len b = len w - k /\
    data a +++ data b = data w.
Proof.
  intros Hd Hk.
  assert (E0 : weave_new (Some "") true = Some (mkWeave 0 32 0 "")) by reflexivity.
  assert (En : forall d, weave_new_len (Some d) 0 true = Some (mkWeave 0 32 0 ""))
    by reflexivity.
  assert (T : take_bytes (data_from w 0) k
                +++ take_bytes (data_from w k) (len w - k) = data w).
  { unfold take_bytes, data_from. cbn [Z.to_nat CStr.drop].
    replace (Z.to_nat (len w - k)) with (String.length (data w) - Z.to_nat k)%nat
      by (unfold zlen in Hd; lia).
    apply take_drop. unfold zlen in Hd. lia. }
  unfold weave_substr, weave_slice. cbv zeta.
  change (-1 <? 0) with true. cbv iota.
  destruct (Z.eq_dec k 0) as [K0|K0]; [subst k|];
    [|destruct (Z.eq_dec k (len w)) as [KL|KL]; [subst k|]].
  - (* cut at the start *)
    change (0 <? 0) with false. cbv iota.
    rewrite Z.sub_0_r.
    assert (A : (if len w <? 0 then len w else 0) = 0)
      by (destruct (Z.ltb_spec (len w) 0); lia).
    rewrite A. change (0 <=? 0) with true. cbv iota.
    destruct (Z.leb_spec (len w) 0) as [L|L].
    + assert (len w = 0) by lia.
      assert (D : data w = "") by (destruct (data w); [reflexivity|unfold zlen in Hd; cbn in Hd; lia]).
      rewrite E0. do 2 eexists. repeat split; try reflexivity. all: cbn [len data]; first [lia|rewrite D; reflexivity].
    + rewrite En, E0.
      rewrite (Z.ltb_irrefl (len w)).
      do 2 eexists. split; [reflexivity|]. split; [reflexivity|].
      split; [reflexivity|]. split; [reflexivity|].
      cbn [len data]. split; [reflexivity|]. split; [lia|].
      unfold weave_new_len. cbn [data]. 
      destruct (Z.ltb_spec 0 (len w)); [|lia].
      rewrite Z.sub_0_r in T. unfold take_bytes at 1 in T. cbn [Z.to_nat] in T.
      destruct (data_from w 0); exact T.
  - (* cut at the end *)
    rewrite Z.leb_refl, E0.
    assert (P : 0 < len w) by lia.
    rewrite Z.sub_0_r, Z.ltb_irrefl.
    destruct (Z.ltb_spec (len w) 0); [lia|].
    destruct (Z.leb_spec (len w) 0); [lia|].
    rewrite ?Z.sub_0_r.
    do 2 eexists. split; [reflexivity|]. split; [reflexivity|].
    split; [reflexivity|]. split; [reflexivity|].
    unfold weave_new_len. cbn [len data]. split; [reflexivity|]. split; [lia|].
    destruct (Z.ltb_spec 0 (len w)); [|lia].
    rewrite Z.sub_diag in T. unfold take_bytes at 2 in T. cbn [Z.to_nat] in T.
    destruct (data_from w (len w)); exact T.
  - (* cut in the middle *)
    destruct (Z.leb_spec (len w) 0); [lia|].
    destruct (Z.leb_spec (len w) k); [lia|].
    rewrite !Z.sub_0_r.
    destruct (Z.ltb_spec (len w) k); [lia|].
    destruct (Z.ltb_spec k 0); [lia|].
    destruct (Z.leb_spec k 0); [lia|].
    destruct (Z.ltb_spec (len w - k) (len w)); [|lia].
    rewrite ?Z.sub_0_r.
    do 2 eexists. split; [reflexivity|]. split; [reflexivity|].
    split; [reflexivity|]. split; [reflexivity|].
    unfold weave_new_len. cbn [len data]. split; [reflexivity|]. split; [reflexivity|].
    destruct (Z.ltb_spec 0 k); [|lia].
    destruct (Z.ltb_spec 0 (len w - k)); [|lia].
    exact T.
Qed.

Lemma weave_substr_split_witness :
  exists a b,
    weave_substr (Some short_weave) 0 1 true = Some a /\
    weave_substr (Some short_weave) 1 (len short_weave) true = Some b /\
    weave_slice (Some short_weave) 0 1 true = Some a /\
    weave_slice (Some short_weave) 1 (-1) true = Some b /\
    len a = 1 /\ len b = len short_weave - 1 /\
    data a +++ data b = data short_weave.
Proof.
  apply (weave_substr_split short_weave 1); [reflexivity|].
  vm_compute. split; discriminate.
Defined.

(** *** Trimming *)

Lemma trim_start_spec (d chars : string) (n : Z) (fuel : nat) (start : Z) :
  start <= n -> n - start < Z.of_nat fuel ->
  let a := trim_start d chars n start fuel in
  start <= a <= n /\
  (forall i, start <= i < a -> char_in_set (byte_at d i) chars = true) /\
  (a < n -> char_in_set (byte_at d a) chars = false).
Proof.
  revert start; induction fuel as [|f IH]; intros start Hs Hf; [lia|].
  cbn [trim_start]. cbv zeta.
  destruct (Z.ltb_spec start n) as [L|L]; cbn [andb].
  - destruct (char_in_set (byte_at d start) chars) eqn:C.
    + destruct (IH (start + 1) ltac:(lia) ltac:(lia)) as (A1 & A2 & A3).
      cbv zeta in *. split; [lia|]. split; [|exact A3].
      intros i Hi. destruct (Z.eq_dec i start) as [->|N]; [exact C|].
      apply A2. lia.
    + split; [lia|]. split; [intros i Hi; lia|]. intros _. exact C.
  - split; [lia|]. split; [intros i Hi; lia|]. intros Q. lia.
Qed.

Lemma trim_end_spec (d chars : string) (start : Z) (fuel : nat) (e : Z) :
  start <= e -> e - start < Z.of_nat fuel ->
  let b := trim_end d chars start e fuel in
  start <= b <= e /\
  (forall i, b <= i < e -> char_in_set (byte_at d i) chars = true) /\
  (start < b -> char_in_set (byte_at d (b - 1)) chars = false).
Proof.
  revert e; induction fuel as [|f IH]; intros e Hs Hf; [lia|].
  cbn [trim_end]. cbv zeta.
  destruct (Z.ltb_spec start e) as [L|L]; cbn [andb].
  - destruct (char_in_set (byte_at d (e - 1)) chars) eqn:C.
    + destruct (IH (e - 1) ltac:(lia) ltac:(lia)) as (A1 & A2 & A3).
      cbv zeta in *. split; [lia|]. split; [|exact A3].
      intros i Hi. destruct (Z.eq_dec i (e - 1)) as [->|N]; [exact C|].
      apply A2. lia.
    + split; [lia|]. split; [intros i Hi; lia|]. intros _. exact C.
  - split; [lia|]. split; [intros i Hi; lia|]. intros Q. lia.
Qed.

Lemma substring_drop (s : string) (a n : nat) :
  String.substring a n s = String.substring 0 n (CStr.drop a s).
Proof.
  revert a; induction s as [|c s IH]; intros a.
  - destruct a, n; reflexivity.
  - destruct a as [|a]; [reflexivity|]. cbn [String.substring CStr.drop]. apply IH.
Qed.

(** [weave_trim_chars] (and [weave_trim], for white space) returns the
    stretch [a, b) of the content: only bytes of the set are cut off at
    either end, and what is left neither starts nor ends with a byte of
    the set. *)
Theorem weave_trim_chars_spec (w : Weave) (chars : option string) :
  zlen (data w) = len w ->
  let set := match chars with None => WHITESPACE | Some c => c end in
  exists r a b,
    weave_trim_chars (Some w) chars true = Some r /\
    (chars = None -> weave_trim (Some w) true = Some r) /\
    0 <= a <= b /\ b <= len w /\ len r = b - a /\
    data r = String.substring (Z.to_nat a) (Z.to_nat (b - a)) (data w) /\
    (forall i, 0 <= i < a \/ b <= i < len w ->
       char_in_set (byte_at (data w) i) set = true) /\
    (a < b -> char_in_set (byte_at (data w) a) set = false /\
              char_in_set (byte_at (data w) (b - 1)) set = false).
Proof.
  intros Hd set.
  assert (P : 0 <= len w) by (rewrite <- Hd; unfold zlen; lia).
  unfold weave_trim, weave_trim_chars. cbv zeta. fold set.
  set (fuel := S (Z.to_nat (len w))).
  destruct (trim_start_spec (data w) set (len w) fuel 0 P ltac:(unfold fuel; lia))
    as (A1 & A2 & A3). cbv zeta in *.
  set (a := trim_start (data w) set (len w) 0 fuel) in *.
  destruct (trim_end_spec (data w) set a fuel (len w) ltac:(lia)
              ltac:(unfold fuel; lia)) as (B1 & B2 & B3). cbv zeta in *.
  set (b := trim_end (data w) set a (len w) fuel) in *.
  unfold weave_new_len. cbv zeta.
  eexists. exists a, b. split; [reflexivity|]. cbn [len data].
  split; [intros ->; reflexivity|].
  split; [lia|]. split; [lia|]. split; [reflexivity|]. split; [|split].
  - rewrite substring_drop. unfold take_bytes, data_from.
    destruct (Z.ltb_spec 0 (b - a)) as [L|L]; [reflexivity|].
    replace (Z.to_nat (b - a)) with 0%nat by lia.
    destruct (CStr.drop (Z.to_nat a) (data w)); reflexivity.
  - intros i [Hi|Hi]; [apply A2|apply B2]; lia.
  - intros L. split; [apply A3; lia|apply B3; lia].
Qed.

Lemma weave_trim_chars_spec_witness :
  let set := "b" in
  exists r a b,
    weave_trim_chars (Some short_weave) (Some "b") true = Some r /\
    (Some "b" = None -> weave_trim (Some short_weave) true = Some r) /\
    0 <= a <= b /\ b <= len short_weave /\ len r = b - a /\
    data r = String.substring (Z.to_nat a) (Z.to_nat (b - a)) (data short_weave) /\
    (forall i, 0 <= i < a \/ b <= i < len short_weave ->
       char_in_set (byte_at (data short_weave) i) set = true) /\
    (a < b -> char_in_set (byte_at (data short_weave) a) set = false /\
              char_in_set (byte_at (data short_weave) (b - 1)) set = false).
Proof. apply (weave_trim_chars_spec short_weave (Some "b")). reflexivity. Defined.

Lemma weave_append_concat_witness :
  (exists w',
    weave_append_len (Some short_weave) (Some (Apart "cd")) 2 true = Ret (Some w') /\
    data w' = data short_weave +++ take_bytes "cd" 2 /\
    len w' = len short_weave + 2 /\ flags w' = flags short_weave /\
    cap short_weave <= cap w' /\
    weave_ok w' /\
    (c_str (take_bytes "cd" 2) = take_bytes "cd" 2 ->
     weave_ends_with (Some w') (Some (take_bytes "cd" 2)) = true) /\
    weave_truncate w' (len short_weave) = with_cap short_weave (cap w')) /\
  weave_append_len (Some short_weave) (Some (Within 0)) 2 true
    = if (len short_weave + 2 <=? cap short_weave) && (0 <=? 0)
         && (0 + 2 <=? len short_weave)
      then Ret (Some (with_content short_weave (len short_weave + 2)
                        (data short_weave +++
                         String.substring (Z.to_nat 0) (Z.to_nat 2)
                           (data short_weave))))
      else Undefined.
Proof.
  apply (weave_append_concat short_weave "cd" 2 0).
  - split; [reflexivity|vm_compute; discriminate].
  - reflexivity.
  - vm_compute. split; [reflexivity|discriminate].
  - vm_compute. reflexivity.
  - vm_compute. discriminate.
Defined.

Lemma weave_prepend_concat_witness :
  (exists w',
    weave_prepend_len (Some short_weave) (Some (Apart "c")) 1 true = Ret (Some w') /\
    data w' = take_bytes "c" 1 +++ data short_weave /\
    len w' = len short_weave + 1 /\ flags w' = flags short_weave /\
    cap short_weave <= cap w' /\
    weave_ok w' /\
    weave_starts_with (Some w') (Some (take_bytes "c" 1)) = true) /\
  weave_prepend_len (Some short_weave) (Some (Within 1)) 1 true
    = if (len short_weave + 1 <=? cap short_weave) && (1 <=? 1)
         && (1 <=? len short_weave + 1)
      then Ret (Some (with_content short_weave (len short_weave + 1)
                        (String.substring (Z.to_nat (1 - 1)) (Z.to_nat 1)
                           (buffer short_weave) +++ data short_weave)))
      else Undefined.
Proof.
  apply (weave_prepend_concat short_weave "c" 1 1).
  - split; [reflexivity|vm_compute; discriminate].
  - reflexivity.
  - vm_compute. split; [reflexivity|discriminate].
  - vm_compute. reflexivity.
  - vm_compute. discriminate.
Defined.

End WeaveMore.

(** ** Cord *)

Module CordProofs.
Import Weave Cord CordRef StrFacts.

Lemma content_app (a b : list CordChunk) :
  content (a ++ b) = content a +++ content b.
Proof.
  induction a as [|ch a IH]; cbn; [reflexivity|].
  fold (content (a ++ b)). fold (content a). rewrite IH, str_app_assoc. reflexivity.
Qed.

(** Below 2^59 chunks the allocation size does not wrap. *)
Lemma array_slots_exact (cap : Z) : 0 <= cap < 2 ^ 59 -> array_slots cap = cap.
Proof.
  intros H. unfold array_slots, SIZEOF_CORDCHUNK, u64.
  rewrite Z.mod_small by lia. apply Z.div_mul. lia.
Qed.

(** One [cord_append] on a Cord with room to grow. *)
Lemma cord_append_step (n : Z) (c : Cord) (s : string) :
  0 <= n ->
  cord_ok c -> 2 <= chunk_cap c <= n + 2 * chunk_count c ->
  n + 2 * chunk_count c < 2 ^ 58 ->
  total_len c + strlen s < 2 ^ 63 ->
  exists ok c',
    cord_append c (Some s) true true = CordRet ok c' /\
    cord_ok c' /\ 2 <= chunk_cap c' <= n + 2 * chunk_count c' /\
    chunk_count c <= chunk_count c' <= chunk_count c + 1 /\
    content (chunks c') = content (chunks c) +++ c_str s.
Proof.
  intros Hn0 (K1 & K2 & K3 & K4) Hcap Hb Ht.
  pose proof (strlen_bounds s) as Ps.
  assert (Pc : 0 <= chunk_count c) by lia.
  unfold cord_append, cord_append_len.
  destruct (Z.eqb_spec (strlen s) 0) as [Z0|N0].
  - exists true, c. split; [reflexivity|].
    assert (c_str s = "") as ->.
    { unfold strlen, zlen in Z0. destruct (c_str s); [reflexivity|cbn in Z0; lia]. }
    rewrite str_app_nil_r. repeat split; try assumption; lia.
  - assert (G : exists c1, cord_ensure_cap c true = (true, c1) /\
                  total_len c1 = total_len c /\ chunk_count c1 = chunk_count c /\
                  chunks c1 = chunks c /\ chunk_count c < chunk_cap c1 /\
                  chunk_cap c1 <= n + 2 * (chunk_count c + 1) /\
                  2 <= chunk_cap c1).
    { unfold cord_ensure_cap.
      destruct (Z.ltb_spec (chunk_count c) (chunk_cap c)) as [L|L].
      - exists c. repeat split; lia.
      - eexists. split; [reflexivity|]. cbn [total_len chunk_count chunks chunk_cap].
        assert (W : u64 (chunk_cap c * 3) = chunk_cap c * 3)
          by (unfold u64; apply Z.mod_small; lia).
        rewrite W.
        assert (chunk_cap c = chunk_count c) by lia.
        pose proof (Z.div_mod (chunk_cap c * 3) 2 ltac:(lia)).
        pose proof (Z.mod_pos_bound (chunk_cap c * 3) 2 ltac:(lia)).
        repeat split; lia. }
    destruct G as (c1 & E & G1 & G2 & G3 & G4 & G5 & G6). rewrite E.
    rewrite (array_slots_exact (chunk_cap c1)) by lia.
    destruct (Z.ltb_spec (chunk_count c1) (chunk_cap c1)) as [L|L]; [|lia].
    eexists. eexists. split; [reflexivity|].
    unfold cord_ok. cbn [total_len chunk_count chunks chunk_cap].
    rewrite G1, G2, G3, take_c_str, content_app, length_app.
    cbn [List.length content fold_right cdata clen].
    change (take_bytes (c_str s) (strlen s)) with (take_bytes (c_str s) (zlen (c_str s))).
    rewrite take_all, str_app_nil_r.
    assert (W1 : u64 (chunk_count c + 1) = chunk_count c + 1)
      by (unfold u64; apply Z.mod_small; lia).
    assert (W2 : u64 (total_len c + strlen s) = total_len c + strlen s).
    { unfold u64; apply Z.mod_small. rewrite K3 in *.
      pose proof (zlen_nonneg (content (chunks c))). lia. }
    rewrite W1, W2, str_app_length. fold (strlen s).
    repeat split; try lia.
    apply Forall_app. split; [exact K4|]. constructor; [|constructor].
    unfold chunk_ok. cbn [clen cdata]. fold (strlen s). lia.
Qed.

Lemma cord_append_all_ok (n : Z) (ss : list string) (c : Cord) :
  0 <= n ->
  cord_ok c -> 2 <= chunk_cap c <= n + 2 * chunk_count c ->
  n + 2 * (chunk_count c + Z.of_nat (List.length ss)) < 2 ^ 58 ->
  total_len c + zlen (flat (map c_str ss)) < 2 ^ 63 ->
  exists c',
    cord_append_all c ss = Some c' /\ cord_ok c' /\
    2 <= chunk_cap c' <= n + 2 * chunk_count c' /\
    chunk_count c' <= chunk_count c + Z.of_nat (List.length ss) /\
    content (chunks c') = content (chunks c) +++ flat (map c_str ss).
Proof.
  intros Hn0.
  revert c; induction ss as [|s rest IH]; intros c Hok Hcap Hb Ht.
  - exists c. split; [reflexivity|]. split; [exact Hok|]. split; [exact Hcap|].
    split; [cbn [List.length]; lia|]. cbn. now rewrite str_app_nil_r.
  - cbn [map flat fold_right] in Ht. fold (flat (map c_str rest)) in Ht.
    rewrite str_app_length in Ht. fold (strlen s) in Ht.
    pose proof (strlen_bounds s). pose proof (zlen_nonneg (flat (map c_str rest))).
    cbn [List.length] in Hb.
    destruct (cord_append_step n c s Hn0 Hok Hcap ltac:(lia) ltac:(lia))
      as (ok & c1 & E & Ok1 & Cap1 & Cnt1 & Con1).
    cbn [cord_append_all]. rewrite E.
    assert (T1 : total_len c1 = total_len c + strlen s).
    { destruct Ok1 as (_ & _ & T & _). destruct Hok as (_ & _ & T0 & _).
      rewrite T, Con1, str_app_length, T0. reflexivity. }
    destruct (IH c1 Ok1 Cap1 ltac:(lia) ltac:(lia)) as (c' & E' & Ok' & Cap' & Cnt' & Con').
    exists c'. split; [exact E'|]. split; [exact Ok'|]. split; [exact Cap'|].
    split; [cbn [List.length]; lia|].
    cbn [map flat fold_right]. fold (flat (map c_str rest)).
    rewrite Con', Con1, str_app_assoc. reflexivity.
Qed.

Lemma to_weave_loop_ok (chs : list CordChunk) (r : Weave) :
  Forall chunk_ok chs ->
  zlen (data r) = len r -> len r + zlen (content chs) <= cap r -> cap r < 2 ^ 63 ->
  exists r',
    to_weave_loop chs r = Some r' /\
    data r' = data r +++ content chs /\ len r' = zlen (data r') /\
    cap r' = cap r /\ flags r' = flags r.
Proof.
  revert r; induction chs as [|ch rest IH]; intros r Hf Hd Hl Hc.
  - exists r. cbn. rewrite str_app_nil_r. auto.
  - inversion Hf as [|? ? Hch Hrest]; subst.
    cbn [content fold_right] in Hl. fold (content rest) in Hl.
    rewrite str_app_length, take_len in Hl by exact Hch.
    pose proof (zlen_nonneg (content rest)). pose proof (zlen_nonneg (data r)).
    unfold chunk_ok in Hch.
    cbn [to_weave_loop].
    destruct (Z.leb_spec (len r + clen ch) (cap r + 1)) as [L|L]; [|lia].
    assert (W : u64 (len r + clen ch) = len r + clen ch)
      by (unfold u64; apply Z.mod_small; lia).
    rewrite W.
    destruct (IH (with_content r (len r + clen ch)
                    (data r +++ take_bytes (cdata ch) (clen ch))) Hrest)
      as (r' & E & D & L' & C & F).
    + cbn [with_content data len]. rewrite str_app_length, take_len by exact Hch. lia.
    + cbn [with_content data len cap]. lia.
    + cbn [with_content cap]. exact Hc.
    + exists r'. split; [exact E|]. cbn [with_content data cap flags] in *.
      split; [|split; [exact L'|split; [exact C|exact F]]].
      rewrite D, str_app_assoc. reflexivity.
Qed.

(** C strings appended to a Cord whose chunk array starts with room for
    at least two chunks are all kept, in order: every store stays inside
    the array as allocated, [cord_len] is the total length and
    [cord_to_weave] is the concatenation. *)
Theorem cord_collects (n : Z) (ss : list string) :
  2 <= n -> n + 2 * Z.of_nat (List.length ss) < 2 ^ 58 ->
  zlen (flat (map c_str ss)) < 2 ^ 62 ->
  exists c0 c r,
    cord_with_cap n true = Some c0 /\
    cord_append_all c0 ss = Some c /\
    cord_len (Some c) = zlen (flat (map c_str ss)) /\
    chunk_count c <= array_slots (chunk_cap c) /\
    cord_to_weave (Some c) true = Some (Some r) /\
    weave_cstr (Some r) = flat (map c_str ss) /\
    weave_len (Some r) = zlen (flat (map c_str ss)).
Proof.
  intros Hn Hb Ht. unfold cord_with_cap.
  eexists.
  destruct (cord_append_all_ok n ss (mkCord 0 0 n [])) as (c & E & Ok & Cap & Cnt & Con).
  - lia.
  - unfold cord_ok. cbn. repeat split; try lia. constructor.
  - cbn. lia.
  - cbn [chunk_count]. lia.
  - cbn [total_len]. lia.
  - cbn [chunks content fold_right String.append] in Con.
    cbn [chunk_count] in Cnt.
    destruct Ok as (K1 & K2 & K3 & K4).
    pose proof (zlen_nonneg (flat (map c_str ss))) as P.
    destruct (to_weave_loop_ok (chunks c)
                (mkWeave 0 (if total_len c <? WEAVE_INITIAL_CAP
                            then WEAVE_INITIAL_CAP else total_len c)
                         WEAVE_FLAG_NONE "") K4)
      as (r & Er & D & L & C & F).
    + reflexivity.
    + cbn [len cap]. rewrite <- K3. unfold WEAVE_INITIAL_CAP.
      destruct (Z.ltb_spec (total_len c) 32); lia.
    + cbn [cap]. rewrite K3, Con. unfold WEAVE_INITIAL_CAP.
      destruct (Z.ltb_spec (zlen (flat (map c_str ss))) 32); lia.
    + exists c, r. split; [reflexivity|]. split; [exact E|].
      cbn [cord_len]. rewrite K3, Con. split; [reflexivity|].
      split; [rewrite array_slots_exact by lia; exact K2|].
      unfold cord_to_weave, weave_with_cap. cbv zeta. rewrite Er.
      cbn [data len cap String.append] in *.
      assert (Q : len r <= cap r).
      { rewrite L, D, C, Con. unfold WEAVE_INITIAL_CAP. rewrite K3, Con.
        destruct (Z.ltb_spec (zlen (flat (map c_str ss))) 32); lia. }
      destruct (Z.leb_spec (len r) (cap r)); [|lia].
      cbn [weave_cstr weave_len]. rewrite L, D, Con. auto.
Qed.

Lemma cord_collects_witness :
  exists c0 c r,
    cord_with_cap 2 true = Some c0 /\
    cord_append_all c0 ["ab"; ""; "c"; "def"] = Some c /\
    cord_len (Some c) = zlen (flat (map c_str ["ab"; ""; "c"; "def"])) /\
    chunk_count c <= array_slots (chunk_cap c) /\
    cord_to_weave (Some c) true = Some (Some r) /\
    weave_cstr (Some r) = flat (map c_str ["ab"; ""; "c"; "def"]) /\
    weave_len (Some r) = zlen (flat (map c_str ["ab"; ""; "c"; "def"])).
Proof.
  apply (cord_collects 2 ["ab"; ""; "c"; "def"]).
  - lia.
  - vm_compute. reflexivity.
  - vm_compute. reflexivity.
Defined.

(** A Cord created with room for one chunk never grows: its array is
    reallocated with the same single slot ([1 * 3 / 2 = 1]), and the
    second non-empty C string appended is stored past it. *)
Theorem cord_small_cap_overruns (s1 s2 : string) :
  0 < strlen s1 < 2 ^ 63 -> 0 < strlen s2 ->
  exists c0 c1,
    cord_with_cap 1 true = Some c0 /\
    cord_append c0 (Some s1) true true = CordRet true c1 /\
    chunk_count c1 = 1 /\ chunks c1 = [mkCordChunk (c_str s1) (strlen s1) true] /\
    cord_ensure_cap c1 true = (true, c1) /\
    cord_append c1 (Some s2) true true = CordOverrun /\
    cord_append_all c0 [s1; s2] = None.
Proof.
  intros H1 H2. unfold cord_with_cap. eexists. eexists.
  split; [reflexivity|].
  assert (P1 : (strlen s1 =? 0) = false) by (apply Z.eqb_neq; lia).
  assert (P2 : (strlen s2 =? 0) = false) by (apply Z.eqb_neq; lia).
  assert (A1 : cord_append (mkCord 0 0 1 []) (Some s1) true true
               = CordRet true
                   (mkCord (strlen s1) 1 1 [mkCordChunk (c_str s1) (strlen s1) true])).
  { unfold cord_append, cord_append_len. rewrite P1.
    unfold cord_ensure_cap. cbn [chunk_count chunk_cap total_len chunks].
    change (0 <? 1) with true. cbv iota. cbn [chunk_count chunk_cap total_len chunks].
    change (0 <? array_slots 1) with true. cbv iota.
    rewrite take_c_str. cbn [app Z.add].
    change (u64 (0 + 1)) with 1.
    replace (u64 (strlen s1)) with (strlen s1)
      by (unfold u64; rewrite Z.mod_small; lia).
    reflexivity. }
  assert (A2 : cord_append
                 (mkCord (strlen s1) 1 1 [mkCordChunk (c_str s1) (strlen s1) true])
                 (Some s2) true true = CordOverrun).
  { unfold cord_append, cord_append_len. rewrite P2.
    unfold cord_ensure_cap. cbn [chunk_count chunk_cap total_len chunks].
    change (1 <? 1) with false. cbv iota.
    change (u64 (1 * 3) / 2) with 1.
    cbn [chunk_count chunk_cap]. change (1 <? array_slots 1) with false.
    reflexivity. }
  split; [exact A1|]. split; [reflexivity|]. split; [reflexivity|].
  split; [reflexivity|]. split; [exact A2|].
  cbn [cord_append_all]. rewrite A1, A2. reflexivity.
Qed.

Lemma cord_small_cap_overruns_witness :
  exists c0 c1,
    cord_with_cap 1 true = Some c0 /\
    cord_append c0 (Some "a") true true = CordRet true c1 /\
    chunk_count c1 = 1 /\ chunks c1 = [mkCordChunk (c_str "a") (strlen "a") true] /\
    cord_ensure_cap c1 true = (true, c1) /\
    cord_append c1 (Some "b") true true = CordOverrun /\
    cord_append_all c0 ["a"; "b"] = None.
Proof.
  apply (cord_small_cap_overruns "a" "b").
  - vm_compute. split; reflexivity.
  - vm_compute. reflexivity.
Defined.

(** *** [cord_to_buf] *)

Lemma to_buf_loop_full (chs : list CordChunk) (limit : Z) (out : string) :
  to_buf_loop chs limit limit out = (limit, out).
Proof. destruct chs; cbn [to_buf_loop]; [reflexivity|]. rewrite Z.ltb_irrefl. reflexivity. Qed.

Lemma to_buf_loop_spec (chs : list CordChunk) (limit written : Z) (out : string) :
  Forall chunk_ok chs ->
  0 <= written <= limit -> written + zlen (content chs) < 2 ^ 64 ->
  let m := Z.min (written + zlen (content chs)) limit in
  to_buf_loop chs limit written out
    = (m, out +++ take_bytes (content chs) (m - written)).
Proof.
  revert written out; induction chs as [|ch rest IH]; intros written out Hf Hw Hb; cbv zeta.
  - cbn [to_buf_loop content fold_right]. change (zlen "") with 0.
    replace (Z.min (written + 0) limit) with written by lia.
    rewrite Z.sub_diag, take_zero, str_app_nil_r. reflexivity.
  - inversion Hf as [|? ? Hch Hrest]; subst. unfold chunk_ok in Hch.
    cbn [content fold_right] in *. fold (content rest) in *.
    rewrite str_app_length, take_len in * by exact Hch.
    pose proof (zlen_nonneg (content rest)) as Pr.
    cbn [to_buf_loop].
    destruct (Z.ltb_spec written limit) as [L|L].
    + assert (W : u64 (written + clen ch) = written + clen ch)
        by (unfold u64; apply Z.mod_small; lia).
      rewrite W. cbv zeta.
      destruct (Z.ltb_spec limit (written + clen ch)) as [Cut|Fit].
      * assert (W2 : u64 (limit - written) = limit - written)
          by (unfold u64; apply Z.mod_small; lia).
        rewrite W2.
        replace (u64 (written + (limit - written))) with limit
          by (unfold u64; rewrite Z.mod_small; lia).
        rewrite to_buf_loop_full.
        replace (Z.min (written + (clen ch + zlen (content rest))) limit) with limit by lia.
        f_equal. f_equal. unfold take_bytes.
        rewrite sub_app_short by (rewrite substring_length; unfold zlen in Hch; lia).
        rewrite sub_sub by lia. reflexivity.
      * rewrite W.
        specialize (IH (written + clen ch)
                       (out +++ take_bytes (cdata ch) (clen ch)) Hrest
                       ltac:(lia) ltac:(lia)).
        cbv zeta in IH. rewrite IH.
        replace (written + clen ch + zlen (content rest))
          with (written + (clen ch + zlen (content rest))) by lia.
        set (m := Z.min (written + (clen ch + zlen (content rest))) limit).
        f_equal. rewrite str_app_assoc. f_equal.
        assert (Hm : clen ch <= m - written) by (unfold m; lia).
        unfold take_bytes at 3.
        replace (Z.to_nat (m - written))
          with (String.length (take_bytes (cdata ch) (clen ch))
                + Z.to_nat (m - (written + clen ch)))%nat.
        -- rewrite sub_app_long. reflexivity.
        -- pose proof (take_len (cdata ch) (clen ch) Hch) as T.
           unfold zlen in T. lia.
    + assert (written = limit) by lia. subst written.
      replace (Z.min (limit + (clen ch + zlen (content rest))) limit) with limit by lia.
      rewrite Z.sub_diag, take_zero, str_app_nil_r. reflexivity.
Qed.

(** With a buffer of at least one byte [cord_to_buf] stores as much of
    the content as fits before the NUL and returns that count; with
    [buflen] 0 the NUL is stored outside the buffer. *)
Theorem cord_to_buf_bounded (c : Cord) (buflen : Z) :
  Forall chunk_ok (chunks c) -> zlen (content (chunks c)) < 2 ^ 63 ->
  0 <= buflen < 2 ^ 64 ->
  let m := Z.min (zlen (content (chunks c))) (buflen - 1) in
  (1 <= buflen ->
     cord_to_buf c buflen = Some (m, take_bytes (content (chunks c)) m)) /\
  (buflen = 0 -> cord_to_buf c buflen = None).
Proof.
  intros Hf Ht Hb. cbv zeta.
  pose proof (zlen_nonneg (content (chunks c))) as P.
  unfold cord_to_buf. split.
  - intros H1.
    assert (W : u64 (buflen - 1) = buflen - 1) by (unfold u64; apply Z.mod_small; lia).
    rewrite W.
    rewrite (to_buf_loop_spec (chunks c) (buflen - 1) 0 "" Hf) by lia.
    cbn [Z.add String.append]. rewrite Z.sub_0_r.
    destruct (Z.ltb_spec (Z.min (zlen (content (chunks c))) (buflen - 1)) buflen); [|lia].
    reflexivity.
  - intros ->. change (u64 (0 - 1)) with (2 ^ 64 - 1).
    rewrite (to_buf_loop_spec (chunks c) (2 ^ 64 - 1) 0 "" Hf) by lia.
    cbn [Z.add].
    destruct (Z.ltb_spec (Z.min (zlen (content (chunks c))) (2 ^ 64 - 1)) 0); [lia|].
    reflexivity.
Qed.

Lemma cord_to_buf_bounded_witness :
  let c := mkCord 5 2 8 [mkCordChunk "ab" 2 true; mkCordChunk "cde" 3 true] in
  let m := Z.min (zlen (content (chunks c))) (4 - 1) in
  (1 <= 4 -> cord_to_buf c 4 = Some (m, take_bytes (content (chunks c)) m)) /\
  (4 = 0 -> cord_to_buf c 4 = None).
Proof.
  apply (cord_to_buf_bounded
           (mkCord 5 2 8 [mkCordChunk "ab" 2 true; mkCordChunk "cde" 3 true]) 4).
  - repeat constructor; vm_compute; discriminate.
  - vm_compute. reflexivity.
  - lia.
Defined.

End CordProofs.

(** ** Tablet *)

Module TabletMore.
Import Weave Tablet.
Import DaggerInv DaggerMore ArenaMore StrFacts.

Lemma ptr_eqb_refl (p : Arena.ptr) : Arena.ptr_eqb p p = true.
Proof. unfold Arena.ptr_eqb. rewrite Nat.eqb_refl, Z.eqb_refl. reflexivity. Qed.

Lemma alloc_succeeds (a : Arena.Arena) (size : Z) :
  size <> 0 ->
  exists p a', Arena.arena_alloc a size true = (Some p, a') /\
    Arena.total_allocated a' = u64 (Arena.total_allocated a + Arena.arena_align size).
Proof.
  intros H. unfold Arena.arena_alloc.
  destruct (Z.eqb_spec size 0); [contradiction|]. cbv zeta.
  destruct (_ <=? _); [do 2 eexists; split; reflexivity|].
  unfold Arena.arena_chunk_create. do 2 eexists; split; reflexivity.
Qed.

(** Interning the empty string never yields a Weave: the pool refuses a
    key of length 0, so the call returns NULL and the counters stay; when
    the arena could provide the object, its 32 bytes are lost. *)
Theorem tablet_intern_empty_null (T : Tablet) (malloc_ok : bool) :
  exists T',
    tablet_intern T (Some "") malloc_ok = Some (None, T') /\
    tablet_count (Some T') = tablet_count (Some T) /\
    tablet_memory (Some T') = tablet_memory (Some T) /\
    pool T' = pool T /\
    tablet_lookup T' (Some "") = None /\
    (malloc_ok = true ->
     Arena.total_allocated (arena T')
       = u64 (Arena.total_allocated (arena T) + 32)).
Proof.
  unfold tablet_lookup, tablet_lookup_len, tablet_intern, tablet_intern_len.
  change (strlen "") with 0.
  cbn [andb Z.ltb Z.compare]. cbv zeta.
  change (u32 0) with 0. cbn [Dagger.dagger_get Z.eqb].
  cbn [Dagger.g_result Dagger.g_value Dagger.g_table].
  cbn [arena pool count memory heap].
  destruct malloc_ok.
  - destruct (alloc_succeeds (arena T) (weave_alloc_size 0)) as (p & a' & E & TA);
      [discriminate|].
    rewrite E. cbn [Dagger.dagger_set Z.eqb].
    eexists. split; [reflexivity|].
    cbn [tablet_count tablet_memory count memory pool arena].
    repeat split. intros _. exact TA.
  - destruct (Arena.arena_alloc (arena T) (weave_alloc_size 0) false) as [[p|] a'].
    + cbn [Dagger.dagger_set Z.eqb].
      eexists. split; [reflexivity|].
      cbn [tablet_count tablet_memory count memory pool arena].
      repeat split. discriminate.
    + exists T. destruct T. repeat split. discriminate.
Qed.

(** On a new Tablet a C string (a byte string without NUL) is interned
    once: the first call stores an interned, read-only copy, and looking
    it up or interning it again returns the same pointer without storing
    anything. *)
Theorem tablet_intern_fresh_twice (s : string) :
  c_str s = s ->
  0 < zlen s < 2 ^ 32 ->
  exists T0 p T1 T2,
    tablet_create true = Some T0 /\
    tablet_intern T0 (Some s) true = Some (Some p, T1) /\
    deref T1 (Some p)
      = Some (mkWeave (zlen s) (zlen s)
                (Z.lor WEAVE_FLAG_INTERNED WEAVE_FLAG_READONLY) s) /\
    tablet_count (Some T1) = 1 /\
    tablet_lookup T1 (Some s) = Some p /\
    tablet_intern T1 (Some s) true = Some (Some p, T2) /\
    tablet_count (Some T2) = 1 /\ heap T2 = heap T1.
Proof.
  intros Plain Hs.
  pose proof (strlen_plain s Plain) as SL.
  assert (U : u32 (zlen s) = zlen s) by (unfold u32; apply Z.mod_small; lia).
  assert (N0 : zlen s <> 0) by lia.
  assert (D : (if 0 <? zlen s then take_bytes s (zlen s) else "") = s).
  { destruct (Z.ltb_spec 0 (zlen s)); [|lia].
    unfold take_bytes, zlen. rewrite Nat2Z.id.
    clear. induction s as [|c s IH]; cbn; [reflexivity|now rewrite IH]. }
  unfold tablet_create, tablet_create_sized, Arena.arena_create,
    Arena.arena_chunk_create. cbv zeta. cbn [Z.eqb].
  eexists. 
  set (P0 := Dagger.dagger_create TABLET_INITIAL_BUCKETS None : Dagger.DaggerTable Arena.ptr).
  set (A0 := Arena.mkArena _ _ _ _ _ _ _ _ _).
  (* the first call *)
  destruct (get_table_stats P0 (Some s) (zlen s)) as (pr & lk & G).
  destruct (get_in_empty_table P0 (Z.to_nat (Dagger.capacity P0)) (Some s) (zlen s)
              eq_refl) as (G1 & G2).
  specialize (G2 ltac:(discriminate) N0).
  destruct (alloc_succeeds A0 (weave_alloc_size (zlen s))) as (p & a1 & E & _).
  { unfold weave_alloc_size, WEAVE_ALIGN_UP, SIZEOF_WEAVE.
    assert (W : u64 (24 + zlen s + 1) = 25 + zlen s) by (unfold u64; rewrite Z.mod_small; lia).
    rewrite W.
    assert (W2 : u64 (25 + zlen s + (8 - 1)) = 32 + zlen s)
      by (unfold u64; rewrite Z.mod_small; lia).
    rewrite W2. change (u64 (Z.lnot (8 - 1))) with (2 ^ 64 - 8).
    rewrite land_clear3 by lia.
    pose proof (Z.div_mod (32 + zlen s) 8 ltac:(lia)).
    pose proof (Z.mod_pos_bound (32 + zlen s) 8 ltac:(lia)). lia. }
  set (P1 := Dagger.set_lookup_stats P0 pr lk) in *.
  destruct (set_at_empty_home P1 s (zlen s) (Some p) false)
    as (P2 & S1 & S2 & Q & Hh & H1 & Hslot).
  { exists 8. vm_compute. repeat split; discriminate. }
  { vm_compute. reflexivity. }
  { exact N0. }
  { rewrite (slot_at_empty (Z.to_nat (Dagger.capacity P0)) _ P1 eq_refl).
    reflexivity. }
  destruct (get_at_home P2 s (zlen s) N0) as (S3 & S4 & _).
  { rewrite Hh, Hslot. reflexivity. }
  { rewrite Hh, Hslot, H1. unfold Dagger.slot_matches.
    cbn [Dagger.hash_primary Dagger.key_len Dagger.key].
    rewrite Q, !Z.eqb_refl. cbn [andb]. apply default_key_eq_refl. }
  rewrite Hh, Hslot in S4. cbn [Dagger.value] in S4.
  exists p.
  assert (I1 : tablet_intern (mkTablet P0 A0 0 0 []) (Some s) true
               = Some (Some p, mkTablet P2 a1 1 (u64 (0 + weave_alloc_size (zlen s)))
                                  [(p, mkWeave (zlen s) (zlen s)
                                     (Z.lor WEAVE_FLAG_INTERNED WEAVE_FLAG_READONLY) s)])).
  { unfold tablet_intern, tablet_intern_len. rewrite SL. cbn [andb]. cbv zeta.
    cbn [pool arena count memory heap]. rewrite U, G, G2.
    cbn [pool arena count memory heap]. rewrite E, D.
    cbn [pool arena count memory heap data]. rewrite S1. reflexivity. }
  eexists. 
  destruct (get_table_stats P2 (Some s) (zlen s)) as (pr2 & lk2 & G').
  eexists.
  split; [reflexivity|]. split; [exact I1|].
  split; [cbn [deref heap heap_find]; rewrite ptr_eqb_refl; reflexivity|].
  split; [reflexivity|].
  split.
  { unfold tablet_lookup, tablet_lookup_len. rewrite SL. cbn [pool].
    rewrite U, S3, S4. reflexivity. }
  split.
  { unfold tablet_intern, tablet_intern_len. rewrite SL. cbn [andb]. cbv zeta.
    cbn [pool arena count memory heap]. rewrite U, S3, S4. reflexivity. }
  split; reflexivity.
Qed.

Lemma tablet_intern_fresh_twice_witness :
  exists T0 p T1 T2,
    tablet_create true = Some T0 /\
    tablet_intern T0 (Some "main") true = Some (Some p, T1) /\
    deref T1 (Some p)
      = Some (mkWeave (zlen "main") (zlen "main")
                (Z.lor WEAVE_FLAG_INTERNED WEAVE_FLAG_READONLY) "main") /\
    tablet_count (Some T1) = 1 /\
    tablet_lookup T1 (Some "main") = Some p /\
    tablet_intern T1 (Some "main") true = Some (Some p, T2) /\
    tablet_count (Some T2) = 1 /\ heap T2 = heap T1.
Proof.
  apply (tablet_intern_fresh_twice "main"); [reflexivity|].
  vm_compute. split; reflexivity.
Defined.

End TabletMore.

(** ** ORDINAL *)

Module OrdinalMore.
Import CStr Ordinal OrdinalRef OrdinalRefMore.

(** *** Runtime variables *)

Lemma prefix_app (a b s : string) :
  String.prefix (a +++ b) s = true -> String.prefix a s = true.
Proof.
  revert s; induction a as [|c a IH]; intros s H; [destruct s; reflexivity|].
  destruct s as [|d s]; [discriminate|].
  cbn [String.append String.prefix] in *.
  destruct (Ascii.ascii_dec c d); [apply IH; exact H|discriminate].
Qed.

Lemma prefix_ref (rest s : string) :
  starts_with ("${_" +++ rest) s = true -> starts_with "${_" s = true.
Proof. apply prefix_app. Qed.

Lemma strstr_none_inv (pat : string) (c : ascii) (s : string) :
  strstr pat (String c s) = None ->
  starts_with pat (String c s) = false /\ strstr pat s = None.
Proof.
  cbn [strstr]. destruct (starts_with pat (String c s)); [discriminate|].
  destruct (strstr pat s); [discriminate|]. auto.
Qed.

Lemma replace_all_absent (rest v s : string) :
  strstr "${_" s = None -> replace_all ("${_" +++ rest) v s O = s.
Proof.
  induction s as [|c s IH]; intros H; [reflexivity|].
  apply strstr_none_inv in H. destruct H as (H1 & H2).
  cbn [replace_all].
  destruct (starts_with ("${_" +++ rest) (String c s)) eqn:P.
  - apply prefix_ref in P. congruence.
  - rewrite IH by exact H2. reflexivity.
Qed.

Lemma replace_var_absent (rest : string) (v : option string) (s : string) :
  strstr "${_" s = None -> REPLACE_VAR ("${_" +++ rest) v s = s.
Proof.
  intros H. unfold REPLACE_VAR. destruct v; [apply replace_all_absent; exact H|reflexivity].
Qed.

(** A string that holds no [${_] is returned as it is by
    [resolve_runtime_vars], whatever the target and the variables. *)
Lemma runtime_vars_plain (o : Ordinal) (s : string)
    (t : option OrdinalTargetInternal) :
  strstr "${_" s = None -> resolve_runtime_vars o (Some s) t = Some s.
Proof.
  intros H. unfold resolve_runtime_vars.
  destruct (strchr "$" s); [|reflexivity]. cbn [negb]. cbv zeta.
  change "${_target}" with ("${_" +++ "target}").
  change "${_first_dep}" with ("${_" +++ "first_dep}").
  change "${_all_deps}" with ("${_" +++ "all_deps}").
  change "${_platform}" with ("${_" +++ "platform}").
  change "${_arch}" with ("${_" +++ "arch}").
  change "${_nproc}" with ("${_" +++ "nproc}").
  change "${_cwd}" with ("${_" +++ "cwd}").
  change "${_ordinal_dir}" with ("${_" +++ "ordinal_dir}").
  assert (R : match t with
              | Some t0 =>
                  match resolved_deps t0 with
                  | [] => REPLACE_VAR ("${_" +++ "target}")
                            (Some match target_file t0 with
                                  | Some f => f
                                  | None => name t0
                                  end) s
                  | d0 :: _ =>
                      REPLACE_VAR ("${_" +++ "all_deps}")
                        (Some (String.concat " " (resolved_deps t0)))
                        (REPLACE_VAR ("${_" +++ "first_dep}") (Some d0)
                           (REPLACE_VAR ("${_" +++ "target}")
                              (Some match target_file t0 with
                                    | Some f => f
                                    | None => name t0
                                    end) s))
                  end
              | None => s
              end = s).
  { destruct t as [t0|]; [|reflexivity].
    destruct (resolved_deps t0); repeat rewrite (replace_var_absent _ _ s H);
      reflexivity. }
  rewrite R. repeat rewrite (replace_var_absent _ _ s H). reflexivity.
Qed.

(** *** Glob dependencies *)

Lemma split_spaces_word (w rest cur : string) :
  strchr " " w = false ->
  split_spaces (w +++ rest) cur = split_spaces rest (cur +++ w).
Proof.
  revert cur; induction w as [|c w IH]; intros cur H.
  - cbn [String.append]. f_equal.
    clear. induction cur as [|x cur IHc]; cbn; [reflexivity|now rewrite <- IHc].
  - cbn [strchr] in H. apply orb_false_iff in H. destruct H as (H1 & H2).
    cbn [String.append split_spaces]. rewrite Ascii.eqb_sym in H1. rewrite H1.
    rewrite IH by exact H2. f_equal.
    clear. induction cur as [|x cur IHc]; cbn; [reflexivity|now rewrite IHc].
Qed.

Lemma split_concat (paths : list string) :
  Forall plain_path paths ->
  split_spaces (String.concat " " paths) "" = paths.
Proof.
  induction paths as [|x rest IH]; intros H; [reflexivity|].
  inversion H as [|? ? (Hx1 & Hx2) Hr]; subst.
  destruct rest as [|y rest].
  - cbn [String.concat].
    replace x with (x +++ "") at 1
      by (clear; induction x as [|c x IHx]; cbn; [reflexivity|now rewrite IHx]).
    rewrite split_spaces_word by exact Hx2. cbn [String.append split_spaces].
    destruct x; [congruence|reflexivity].
  - change (String.concat " " (x :: y :: rest))
      with (x +++ " " +++ String.concat " " (y :: rest)).
    rewrite split_spaces_word by exact Hx2.
    cbn [String.append split_spaces]. cbn [Ascii.eqb Bool.eqb]. cbv iota.
    rewrite IH by exact Hr.
    destruct x; [congruence|reflexivity].
Qed.

Section DryRun.
Variable World : Type.
Variable stat_mtime : World -> string -> option Z.
Variable glob : World -> string -> glob_result.
Variable system : World -> string -> Z * World.
Variable chdir : World -> string -> option World.
Variable getcwd : World -> option string.

(** A dependency that is a glob pattern is replaced by the paths [glob]
    reports, in order, as long as there are at most [ORD_MAX_DEPS] of them
    and none is empty or holds a space. *)
Theorem glob_dep_expands (w : World) (o : Ordinal) (t : OrdinalTargetInternal)
    (d : string) (paths : list string) :
  deps t = [d] -> strstr "${_" d = None ->
  strchr "*" d || strchr "?" d = true ->
  glob w d = GlobOk paths ->
  Forall plain_path paths -> (List.length paths <= ORD_MAX_DEPS)%nat ->
  resolved_deps (resolve_target_deps World glob w o t) = paths.
Proof.
  intros Hd Hp Hg Hglob Hok Hlen.
  unfold resolve_target_deps. rewrite Hd. cbn [with_resolved_deps resolved_deps].
  cbn [resolve_deps_loop List.length Nat.leb ORD_MAX_DEPS].
  rewrite runtime_vars_plain by exact Hp. rewrite Hg.
  unfold expand_glob. rewrite Hglob. cbn [app].
  assert (E : split_spaces (expand_glob_with (GlobOk paths) d) "" = paths).
  { destruct paths as [|p ps]; [reflexivity|].
    change (expand_glob_with (GlobOk (p :: ps)) d) with (String.concat " " (p :: ps)).
    apply split_concat. exact Hok. }
  rewrite E. apply firstn_all2. exact Hlen.
Qed.

Lemma quiet_refl (st : RunState World) : quiet_step st st.
Proof. repeat split. Qed.

Lemma quiet_trans (a b c : RunState World) :
  quiet_step a b -> quiet_step b c -> quiet_step a c.
Proof. intros (A1 & A2 & A3) (B1 & B2 & B3). repeat split; congruence. Qed.

Lemma quiet_with_ord (st : RunState World) (o : Ordinal) :
  config o = config (ord World st) -> quiet_step st (with_ord World st o).
Proof. intros H. repeat split. exact H. Qed.

Lemma quiet_notify (st : RunState World) n s m :
  quiet_step st (notify World st n s m).
Proof. unfold notify. destruct (progress_registered _); repeat split. Qed.

Lemma quiet_dry (a b : RunState World) :
  quiet_step a b -> dry_run (config (ord World a)) = true ->
  dry_run (config (ord World b)) = true.
Proof. intros (_ & _ & C) H. rewrite C. exact H. Qed.

Lemma execute_dry (st : RunState World) (idx : Z) :
  dry_run (config (ord World st)) = true ->
  fst (execute_command World system st idx) = ORDINAL_OK /\
  quiet_step st (snd (execute_command World system st idx)).
Proof.
  intros D. unfold execute_command. cbv zeta.
  destruct (resolved_command _) as [[|c cmd]|]; try (split; [reflexivity|apply quiet_refl]).
  rewrite D. split; [reflexivity|]. apply quiet_with_ord. reflexivity.
Qed.

Lemma build_target_dry (budget : nat) (st : RunState World) (n : string) :
  dry_run (config (ord World st)) = true ->
  quiet_step st (snd (build_target World stat_mtime glob system budget st n)).
Proof.
  revert st n. induction budget as [|b IH]; intros st n D.
  - cbn [build_target snd]. apply quiet_with_ord. reflexivity.
  - cbn [build_target].
    destruct (lookup_target (ord World st) n) as [idx|]; [|apply quiet_refl].
    destruct (_ <=? _); [apply quiet_refl|].
    destruct (in_stack _); [apply quiet_with_ord; reflexivity|].
    destruct (visited _); [apply quiet_refl|].
    cbv zeta.
    match goal with
    | |- context [let (_, _) := ?X in _] =>
        match X with
        | ?f ?ds0 ?st3 =>
            match f with
            | context [build_target] => set (deps0 := ds0); set (s3 := st3)
            end
        end
    end.
    assert (Q3 : quiet_step st s3).
    { unfold s3. eapply quiet_trans; [|apply quiet_with_ord; reflexivity].
      eapply quiet_trans; [|apply quiet_notify].
      apply quiet_with_ord. reflexivity. }
    clearbody s3 deps0.
    match goal with
    | |- context [let (_, _) := ?X in _] =>
        match X with
        | ?f deps0 s3 => set (r := X)
        end
    end.
    assert (Q4 : quiet_step st (snd r)).
    { unfold r. clear r. revert s3 Q3.
      induction deps0 as [|dep rest IHd]; intros s3 Q3; [exact Q3|].
      destruct (lookup_target (ord World s3) dep); [|apply IHd; exact Q3].
      pose proof (IH s3 dep (quiet_dry _ _ Q3 D)) as Q.
      destruct (build_target World stat_mtime glob system b s3 dep) as [err s4].
      cbn [snd] in Q.
      destruct (negb (is_ok err) && negb (keep_going (config (ord World s4)))).
      - cbn [snd]. eapply quiet_trans; eassumption.
      - apply IHd. eapply quiet_trans; eassumption. }
    destruct r as [[err|] s4]; cbn [snd] in Q4.
    + cbn [snd]. eapply quiet_trans; [exact Q4|]. apply quiet_with_ord. reflexivity.
    + match goal with
      | |- context [needs_rebuild World stat_mtime ?w ?o ?t] =>
          destruct (needs_rebuild World stat_mtime w o t)
      end; cbn [negb].
      * set (s5 := notify World (with_ord World s4 _) n ORDINAL_STATUS_BUILDING None).
        assert (Q5 : quiet_step st s5).
        { unfold s5. eapply quiet_trans; [exact Q4|].
          eapply quiet_trans; [|apply quiet_notify]. apply quiet_with_ord. reflexivity. }
        clearbody s5.
        destruct (execute_dry s5 (u64 (idx - 1)) (quiet_dry _ _ Q5 D)) as (E1 & E2).
        destruct (execute_command World system s5 (u64 (idx - 1))) as [err s6].
        cbn [fst snd] in E1, E2. subst err. cbn [is_ok negb].
        cbn [snd]. eapply quiet_trans; [exact Q5|]. eapply quiet_trans; [exact E2|].
        eapply quiet_trans; [|apply quiet_notify].
        unfold quiet_step, with_ord. cbn [executed world ord].
        split; [reflexivity|]. split; [reflexivity|].
        destruct (status _); reflexivity.
      * cbn [snd]. eapply quiet_trans; [exact Q4|].
        eapply quiet_trans; [|apply quiet_notify].
        unfold quiet_step, with_ord. cbn [executed world ord]. repeat split.
Qed.

(** With [dry_run] set nothing is ever handed to [system]: neither
    [build_target] nor a whole [ordinal_run] executes a command, and
    [build_target] leaves the world as it is. *)
Theorem dry_run_executes_nothing (st : RunState World) (target : option string)
    (budget : nat) (n : string) :
  dry_run (config (ord World st)) = true ->
  executed World (snd (build_target World stat_mtime glob system budget st n))
    = executed World st /\
  world World (snd (build_target World stat_mtime glob system budget st n))
    = world World st /\
  executed World (snd (ordinal_run World stat_mtime glob system chdir getcwd st target))
    = executed World st.
Proof.
  intros D.
  destruct (build_target_dry budget st n D) as (B1 & B2 & _).
  split; [exact B1|]. split; [exact B2|].
  unfold ordinal_run. cbv zeta.
  destruct (match target with Some t => Some t | None => _ end) as [tn|];
    [|reflexivity].
  destruct (lookup_target (ord World st) tn); [|reflexivity].
  match goal with
  | |- context [match ?E with Some _ => _ | None => _ end] =>
      match E with
      | context [chdir] => destruct E as [[old s1]|] eqn:En
      end
  end; [|reflexivity].
  assert (Q1 : executed World s1 = executed World st /\
               dry_run (config (ord World s1)) = true).
  { destruct (directory _).
    - destruct (chdir _ _); [|discriminate]. injection En as _ <-.
      split; [reflexivity|exact D].
    - injection En as _ <-. split; [reflexivity|exact D]. }
  destruct Q1 as (Q1 & D1).
  pose proof (build_target_dry (Z.to_nat (ORD_MAX_RECURSION + 1)) s1 tn D1) as (C1 & _).
  destruct (build_target _ _ _ _ _ s1 tn) as [err s2]. cbn [snd] in *.
  destruct old as [d|]; [destruct (chdir _ d)|]; cbn [with_ord executed]; congruence.
Qed.

End DryRun.

Lemma glob_dep_expands_witness :
  match load object_file with
  | Some o =>
      resolved_deps (resolve_target_deps unit two_files_glob tt o glob_target)
        = ["a.c"; "b.c"]
  | None => False
  end.
Proof.
  assert (F : match load object_file with Some o => True | None => False end)
    by (vm_compute; exact I).
  destruct (load object_file) as [o|]; [|exact F].
  apply (glob_dep_expands unit two_files_glob tt o glob_target "*.c" ["a.c"; "b.c"]).
  - reflexivity.
  - reflexivity.
  - reflexivity.
  - reflexivity.
  - repeat constructor; discriminate.
  - vm_compute. lia.
Defined.

Lemma dry_run_executes_nothing_witness :
  match load object_file with
  | Some o =>
      let st := mkRun unit tt (with_dry_run o) [] [] in
      executed unit (snd (build_target unit (quiet_stat None) quiet_glob
                            quiet_system 33 st "obj")) = executed unit st /\
      world unit (snd (build_target unit (quiet_stat None) quiet_glob
                         quiet_system 33 st "obj")) = world unit st /\
      executed unit (snd (ordinal_run unit (quiet_stat None) quiet_glob quiet_system
                            quiet_chdir quiet_getcwd st (Some "obj")))
        = executed unit st
  | None => False
  end.
Proof.
  assert (F : match load object_file with
              | Some o => dry_run (config (with_dry_run o)) = true
              | None => False
              end) by (vm_compute; reflexivity).
  destruct (load object_file) as [o|]; [|exact F].
  exact (dry_run_executes_nothing unit (quiet_stat None) quiet_glob quiet_system
           quiet_chdir quiet_getcwd (mkRun unit tt (with_dry_run o) [] [])
           (Some "obj") 33 "obj" F).
Defined.

End OrdinalMore.

(** ** ZORYA-INI *)

Module IniMore.
Import CStr Ini IniRefMore IniRef StrFacts.

(** *** Arrays *)

Lemma ttb_cons (c : ascii) (s : string) :
  trim_trailing_blank (String c s)
  = match trim_trailing_blank s with
    | EmptyString => if is_blank c then EmptyString else String c EmptyString
    | t => String c t
    end.
Proof. reflexivity. Qed.

Lemma ttb_strchr (x : ascii) (s : string) :
  strchr x s = false -> strchr x (trim_trailing_blank s) = false.
Proof.
  induction s as [|c s IH]; intros H; [reflexivity|].
  cbn [strchr] in H. apply orb_false_iff in H. destruct H as (H1 & H2).
  rewrite ttb_cons. specialize (IH H2).
  destruct (trim_trailing_blank s) as [|d t].
  - destruct (is_blank c); [reflexivity|]. cbn [strchr]. rewrite H1. reflexivity.
  - cbn [strchr] in *. rewrite H1. exact IH.
Qed.

Lemma ttb_idem (s : string) :
  trim_trailing_blank (trim_trailing_blank s) = trim_trailing_blank s.
Proof.
  induction s as [|c s IH]; [reflexivity|].
  rewrite ttb_cons. destruct (trim_trailing_blank s) as [|d t] eqn:E.
  - destruct (is_blank c) eqn:B; [reflexivity|]. cbn. rewrite B. reflexivity.
  - rewrite ttb_cons, IH. reflexivity.
Qed.

Lemma ttb_starts (s : string) :
  starts_clean s -> starts_clean (trim_trailing_blank s).
Proof.
  destruct s as [|c s]; [exact (fun H => H)|]. cbn [starts_clean]. intros H.
  rewrite ttb_cons. destruct (trim_trailing_blank s); [rewrite H|]; exact H.
Qed.

Lemma starts_clean_skip (s : string) : starts_clean s -> skip_ws s = s.
Proof. destruct s as [|c s]; [reflexivity|]. cbn. intros ->. reflexivity. Qed.

Lemma clean_emit (cur : string) :
  strchr "|" cur = false -> starts_clean cur ->
  trim_trailing_blank cur <> "" -> clean_item (trim_trailing_blank cur).
Proof.
  intros H1 H2 H3. split; [exact H3|]. split; [apply ttb_strchr; exact H1|].
  split; [apply starts_clean_skip, ttb_starts; exact H2|apply ttb_idem].
Qed.

Lemma strchr_snoc (x c : ascii) (cur : string) :
  strchr x cur = false -> Ascii.eqb x c = false ->
  strchr x (cur +++ String c "") = false.
Proof.
  induction cur as [|d cur IH]; intros H1 H2; cbn [String.append strchr] in *.
  - rewrite H2. reflexivity.
  - apply orb_false_iff in H1. destruct H1 as (A & B). rewrite A. apply IH; assumption.
Qed.

Lemma parse_array_items_clean (s cur : string) (item : string) :
  strchr "|" cur = false -> starts_clean cur ->
  In item (parse_array_items s cur) -> clean_item item.
Proof.
  revert cur; induction s as [|c s IH]; intros cur H1 H2 Hin.
  - cbn [parse_array_items] in Hin.
    destruct (trim_trailing_blank cur) as [|d t] eqn:E; [contradiction|].
    destruct Hin as [<-|[]]. rewrite <- E. apply clean_emit; [assumption..|congruence].
  - cbn [parse_array_items] in Hin.
    destruct (Ascii.eqb c "|") eqn:P.
    + destruct (trim_trailing_blank cur) as [|d t] eqn:E.
      * apply (IH "" eq_refl I Hin).
      * destruct Hin as [<-|Hin]; [|apply (IH "" eq_refl I Hin)].
        rewrite <- E. apply clean_emit; [assumption..|congruence].
    + destruct (is_empty cur && is_blank c) eqn:B.
      * apply (IH cur H1 H2 Hin).
      * apply (IH (cur +++ String c "")); [| |exact Hin].
        -- apply strchr_snoc; [exact H1|]. rewrite Ascii.eqb_sym. exact P.
        -- destruct cur as [|d cur]; [|exact H2].
           cbn [is_empty andb] in B. exact B.
Qed.

(** Every item [parse_array] returns is non-empty, holds no [|] and has
    no blank at its start or end. *)
Theorem parse_array_clean (v item : string) :
  In item (parse_array v) -> clean_item item.
Proof. apply parse_array_items_clean; [reflexivity|exact I]. Qed.

Lemma parse_array_clean_witness :
  In "b c" (parse_array " a |  | b c  |") /\ clean_item "b c".
Proof.
  assert (H : In "b c" (parse_array " a |  | b c  |"))
    by (vm_compute; right; left; reflexivity).
  split; [exact H|]. apply (parse_array_clean " a |  | b c  |" "b c" H).
Defined.

(** *** Lines *)

Lemma strchr_snoc_lf (c : ascii) (cur : string) :
  strchr LF cur = false -> Ascii.eqb c LF = false ->
  strchr LF (cur +++ String c "") = false.
Proof.
  intros H1 H2. apply strchr_snoc; [exact H1|]. rewrite Ascii.eqb_sym. exact H2.
Qed.

Lemma read_lines_bounded (k : nat) (s cur : string) (n : nat) (l : string) :
  (String.length s <= k)%nat ->
  String.length cur = n -> (n < 4095)%nat -> strchr LF cur = false ->
  In l (read_lines s cur n) ->
  strchr LF l = false /\ (String.length l <= 4095)%nat.
Proof.
  revert s cur n; induction k as [|k IH]; intros s cur n Hk Hc Hn Hlf Hin.
  - destruct s; [|cbn in Hk; lia]. cbn [read_lines] in Hin.
    destruct n; [contradiction|]. destruct Hin as [<-|[]]. split; [exact Hlf|lia].
  - destruct s as [|c s]; cbn [read_lines] in Hin.
    + destruct n; [contradiction|]. destruct Hin as [<-|[]]. split; [exact Hlf|lia].
    + cbn [String.length] in Hk.
      destruct (Ascii.eqb c LF) eqn:E.
      * destruct Hin as [<-|Hin]; [split; [exact Hlf|lia]|].
        apply (IH s "" 0%nat); [lia|reflexivity|lia|reflexivity|exact Hin].
      * pose proof (strchr_snoc_lf c cur Hlf E) as Hlf'.
        pose proof (length_snoc c cur) as Hlen.
        change (Z.to_nat (INI_MAX_LINE_LENGTH - 1)) with 4095%nat in Hin.
        destruct (Nat.eqb_spec (S n) 4095) as [Full|NotFull].
        -- destruct s as [|d s'].
           ++ destruct Hin as [<-|[]]. split; [exact Hlf'|lia].
           ++ cbn [String.length] in Hk.
              destruct (Ascii.eqb d LF);
                (destruct Hin as [<-|Hin]; [split; [exact Hlf'|lia]|]).
              ** apply (IH s' "" 0%nat); [lia|reflexivity|lia|reflexivity|exact Hin].
              ** apply (IH (String d s') "" 0%nat);
                   [cbn [String.length]; lia|reflexivity|lia|reflexivity|exact Hin].
        -- apply (IH s (cur +++ String c "") (S n)); [lia|lia|lia|exact Hlf'|exact Hin].
Qed.

(** Every line [parse_buffer] reads fits [line_buf]: it holds no line
    feed and at most [INI_MAX_LINE_LENGTH - 1] bytes. *)
Theorem read_lines_fit (data l : string) :
  In l (read_lines data "" 0) ->
  strchr LF l = false /\ zlen l <= INI_MAX_LINE_LENGTH - 1.
Proof.
  intros H.
  destruct (read_lines_bounded (String.length data) data "" 0 l) as (A & B);
    [lia|reflexivity|lia|reflexivity|exact H|].
  split; [exact A|]. unfold zlen, INI_MAX_LINE_LENGTH. lia.
Qed.

Lemma read_lines_fit_witness :
  In "b = 2" (read_lines ("a = 1" +++ String LF "b = 2") "" 0) /\
  strchr LF "b = 2" = false /\ zlen "b = 2" <= INI_MAX_LINE_LENGTH - 1.
Proof.
  assert (H : In "b = 2" (read_lines ("a = 1" +++ String LF "b = 2") "" 0))
    by (vm_compute; right; left; reflexivity).
  split; [exact H|]. apply (read_lines_fit _ _ H).
Defined.

(** *** Interpolation *)

Section Plain.
Variable getenv : string -> option string.

Lemma zlen_cons (c : ascii) (s : string) : zlen (String c s) = zlen s + 1.
Proof. unfold zlen. cbn [String.length]. lia. Qed.

Lemma zlen_snoc (c : ascii) (s : string) : zlen (s +++ String c "") = zlen s + 1.
Proof. unfold zlen. rewrite length_snoc. lia. Qed.

Lemma snoc_app (out : string) (c : ascii) (s : string) :
  (out +++ String c "") +++ s = out +++ String c s.
Proof. induction out as [|d out IH]; cbn; [reflexivity|now rewrite IH]. Qed.

Lemma scan_plain (fv : string -> option string) (s out : string) (cap : Z) :
  strstr "${" s = None -> zlen out + zlen s < cap ->
  resolve_scan fv s O out cap = Some (out +++ s).
Proof.
  revert out; induction s as [|c s IH]; intros out H Hc.
  - cbn. rewrite str_app_nil_r. reflexivity.
  - cbn [strstr] in H.
    destruct (starts_with "${" (String c s)) eqn:P; [discriminate|].
    destruct (strstr "${" s) eqn:Q; [discriminate|]. clear H.
    rewrite zlen_cons in Hc. pose proof (Zle_0_nat (String.length s)) as Ps.
    fold (zlen s) in Ps.
    assert (R : resolve_scan fv s O (out +++ String c "") cap
                = Some (out +++ String c s)).
    { rewrite IH; [rewrite snoc_app; reflexivity|reflexivity|rewrite zlen_snoc; lia]. }
    cbn [resolve_scan].
    destruct (Z.leb_spec cap (zlen out + 1)) as [L|L]; [lia|].
    destruct (Ascii.eqb c "$") eqn:D; [|exact R].
    destruct s as [|d body]; [exact R|].
    apply Ascii.eqb_eq in D. subst c.
    destruct (Ascii.ascii_dec d "{") as [->|N];
      [unfold starts_with in P; destruct body; cbn in P; discriminate P|].
    destruct d as [[] [] [] [] [] [] [] []]; try exact R. contradiction N. reflexivity.
Qed.

(** A value that holds no [${] comes back from [resolve_string] as it
    is, as long as it is shorter than [INTERP_MAX_OUTPUT]. *)
Theorem resolve_string_plain (b : nat) (ini : ZoryaIni) (s sec : string) :
  strstr "${" s = None -> zlen s < INTERP_MAX_OUTPUT ->
  resolve_string getenv (S b) ini (Some s) sec = Some s.
Proof.
  intros H Hl. cbn [resolve_string].
  destruct (strchr "$" s); [|reflexivity]. cbn [negb]. cbv zeta.
  rewrite scan_plain; [reflexivity|exact H|].
  change (zlen "") with 0. unfold INTERP_MAX_OUTPUT in *.
  pose proof (Zle_0_nat (String.length s)) as Ps. fold (zlen s) in Ps.
  destruct (Z.ltb_spec 65536 (zlen s * 2 + 64)); lia.
Qed.

End Plain.

Lemma resolve_string_plain_witness :
  match zorya_ini_new true with
  | Some ini =>
      resolve_string no_env 33 ini (Some "5 $ {x} $") "build" = Some "5 $ {x} $"
  | None => False
  end.
Proof.
  assert (F : match zorya_ini_new true with Some _ => True | None => False end)
    by (vm_compute; exact I).
  destruct (zorya_ini_new true) as [ini|]; [|exact F].
  apply (resolve_string_plain no_env 32 ini "5 $ {x} $" "build").
  - reflexivity.
  - vm_compute. reflexivity.
Defined.

End IniMore.
